(** * iop-lsp: symbol index, name mangling and doc-comment extraction

    A shallow embedding of [iop_lsp/c_mapping.py], [iop_lsp/symbols.py],
    [iop_lsp/doc_comments.py] and [iop_lsp/indexer.py], followed by the
    properties of the specification proved (or refuted) on it.

    Conventions.
    - A Python [str] is a [string]; each [ascii] stands for one character
      (code point below 256).  The helpers of [PyStr] follow the Python
      built-ins on that range; [capitalize] is exact on ASCII.
    - A tree-sitter node is a [Node]: type tag, decoded text, named flag,
      start and end points, ordered children.  The parser itself is
      external: [Indexer] takes it as a section variable.
    - [dict]s that are only read by key are [gmap]s; [by_name], whose
      values are iterated in insertion order by [resolve_enum_value], is
      an insertion-ordered association list ([odict]).
    - [index_file] and [index_workspace], which read files from disk,
      end in an [Outcome]: the index when the call returns, or the index
      as it stands when the [UnicodeDecodeError] of a
      [node.text.decode('utf-8')] escapes the call. *)

From Stdlib Require Import Ascii String.
From stdpp Require Import base option list strings gmap fin_maps.

Local Open Scope string_scope.
Local Open Scope list_scope.

(** ** Python string built-ins *)

Module PyStr.

Definition chars (s : string) : list ascii := list_ascii_of_string s.
Definition str (l : list ascii) : string := string_of_list_ascii l.

Definition code (c : ascii) : nat := nat_of_ascii c.

Definition between (lo hi : nat) (c : ascii) : bool :=
  (lo <=? code c)%nat && (code c <=? hi)%nat.

(** [[A-Z]], [[a-z]] and [[a-z0-9]] of the regular expressions. *)
Definition is_upper (c : ascii) : bool := between 65 90 c.
Definition is_lower (c : ascii) : bool := between 97 122 c.
Definition is_digit (c : ascii) : bool := between 48 57 c.
Definition is_lower_or_digit (c : ascii) : bool := is_lower c || is_digit c.

(** [str.isspace] on one character: TAB..CR, FS..US, space, NEL, NBSP. *)
Definition is_space (c : ascii) : bool :=
  between 9 13 c || between 28 32 c
  || (code c =? 133)%nat || (code c =? 160)%nat.

(** [str.lower] on one character (ASCII and the Latin-1 capitals). *)
Definition lower_char (c : ascii) : ascii :=
  if is_upper c
     || (between 192 222 c && negb (code c =? 215)%nat)
  then ascii_of_nat (code c + 32) else c.

(** [str.upper] on one character whose capital is a single character
    below 256. *)
Definition upper_char (c : ascii) : ascii :=
  if is_lower c
     || (between 224 254 c && negb (code c =? 247)%nat)
  then ascii_of_nat (code c - 32) else c.

Definition lower (s : string) : string := str (map lower_char (chars s)).

(** [s.capitalize()]: first character upper-cased, the rest lower-cased. *)
Definition capitalize (s : string) : string :=
  match chars s with
  | [] => ""
  | c :: r => str (upper_char c :: map lower_char r)
  end.

Definition startswith (s p : string) : bool := String.prefix p s.

Fixpoint list_prefix (p l : list ascii) : bool :=
  match p, l with
  | [], _ => true
  | a :: p', b :: l' => if ascii_dec a b then list_prefix p' l' else false
  | _ :: _, [] => false
  end.

Definition endswith (s p : string) : bool :=
  list_prefix (rev (chars p)) (rev (chars s)).

(** [s[n:]] and [s[:-n]] for [n > 0]. *)
Definition drop_front (n : nat) (s : string) : string :=
  str (drop n (chars s)).
Definition drop_back (n : nat) (s : string) : string :=
  str (take (String.length s - n) (chars s)).

Fixpoint lstrip_by (f : ascii -> bool) (l : list ascii) : list ascii :=
  match l with
  | [] => []
  | c :: r => if f c then lstrip_by f r else l
  end.

Definition rstrip_by (f : ascii -> bool) (l : list ascii) : list ascii :=
  rev (lstrip_by f (rev l)).

(** [s.strip()] *)
Definition strip (s : string) : string :=
  str (rstrip_by is_space (lstrip_by is_space (chars s))).

(** [s.lstrip(set)] *)
Definition lstrip_chars (set : string) (s : string) : string :=
  str (lstrip_by (fun c => bool_decide (c ∈ chars set)) (chars s)).

(** [s.split(sep)] for a one-character separator; never returns [[]]. *)
Fixpoint split_on (sep : ascii) (l : list ascii) : list (list ascii) :=
  match l with
  | [] => [[]]
  | c :: r =>
      if ascii_dec c sep then [] :: split_on sep r
      else match split_on sep r with
           | [] => [[c]]
           | w :: ws => (c :: w) :: ws
           end
  end.

Definition split (sep : ascii) (s : string) : list string :=
  map str (split_on sep (chars s)).

(** [sep.join(parts)] *)
Fixpoint join (sep : string) (parts : list string) : string :=
  match parts with
  | [] => ""
  | [p] => p
  | p :: r => p +:+ sep +:+ join sep r
  end.

(** [sep in s] for a one-character [sep]. *)
Definition contains (sep : ascii) (s : string) : bool :=
  bool_decide (sep ∈ chars s).

(** Cut [l] at its first [sep]: the part before and the part after. *)
Fixpoint break_on (sep : ascii) (l : list ascii)
  : option (list ascii * list ascii) :=
  match l with
  | [] => None
  | c :: r =>
      if ascii_dec c sep then Some ([], r)
      else match break_on sep r with
           | Some (a, b) => Some (c :: a, b)
           | None => None
           end
  end.

(** [s.rsplit(sep, 1)]: [None] stands for the one-element list [[s]],
    [Some (a, b)] for [[a, b]], cut at the last [sep]. *)
Definition rsplit1 (sep : ascii) (s : string) : option (string * string) :=
  match break_on sep (rev (chars s)) with
  | None => None
  | Some (after_rev, before_rev) =>
      Some (str (rev before_rev), str (rev after_rev))
  end.

(** [s.replace(c, by)] for a one-character [c]. *)
Definition replace (c : ascii) (by_ : string) (s : string) : string :=
  str (mjoin (map (fun x => if ascii_dec x c then chars by_ else [x])
                  (chars s))).

(** Truthiness of a [str] and of an [Optional[str]]. *)
Definition truthy (s : string) : bool := negb (bool_decide (s = "")).
Definition otruthy (o : option string) : bool :=
  match o with Some s => truthy s | None => false end.

End PyStr.

(** ** [c_mapping.py]: IOP CamelCase names and C snake_case identifiers *)

Module CMapping.
Import PyStr.

(** [re.sub(r'([a-z0-9])([A-Z])', r'\1_\2', name)]: leftmost,
    non-overlapping; a match consumes both characters. *)
Fixpoint sub_lower_upper (l : list ascii) : list ascii :=
  match l with
  | a :: (b :: r) as tl =>
      if is_lower_or_digit a && is_upper b
      then a :: "_"%char :: b :: sub_lower_upper r
      else a :: sub_lower_upper tl
  | _ => l
  end.

(** The maximal run of [[A-Z]] at the head of [l], and what follows. *)
Fixpoint span_upper (l : list ascii) : list ascii * list ascii :=
  match l with
  | c :: r =>
      if is_upper c
      then let (u, rest) := span_upper r in (c :: u, rest)
      else ([], l)
  | [] => ([], [])
  end.

(** [re.sub(r'([A-Z]+)([A-Z][a-z])', r'\1_\2', s)].  At a position the
    greedy [[A-Z]+] takes the whole run of capitals and backtracks by
    exactly one, so there is a match iff the run has at least two
    capitals and is followed by [[a-z]]; group 1 is the run without its
    last capital.  Every step consumes a character, so [length l] is
    enough fuel. *)
Fixpoint sub_acronym (fuel : nat) (l : list ascii) : list ascii :=
  match fuel with
  | 0 => l
  | S fuel' =>
      match l with
      | [] => []
      | c :: r =>
          let (run, rest) := span_upper l in
          match rest with
          | d :: rest' =>
              if (2 <=? length run)%nat && is_lower d
              then take (length run - 1) run ++ "_"%char
                     :: drop (length run - 1) run ++ d
                     :: sub_acronym fuel' rest'
              else c :: sub_acronym fuel' r
          | [] => c :: sub_acronym fuel' r
          end
      end
  end.

Definition camelcase_to_c (name : string) : string :=
  let s := sub_lower_upper (chars name) in
  let s := sub_acronym (length s) s in
  lower (str s).

Definition c_to_camelcase (name : string) : string :=
  join "" (map capitalize (split "_"%char name)).

Definition iop_type_to_c (qualified_name : string) : string :=
  match rsplit1 "."%char qualified_name with
  | Some (pkg, type_name) =>
      let pkg_c := replace "."%char "__" pkg in
      pkg_c +:+ "__" +:+ camelcase_to_c type_name
  | None => camelcase_to_c qualified_name
  end.

Definition C_TYPE_SUFFIXES : list string :=
  ["__array_t"; "__opt_t"; "__sp"; "__ep"; "__t"; "__s"; "__e"].

(** The loop shared by [add_symbol], [remove_file] and
    [resolve_c_identifier]: cut the first suffix of the table that
    [base] ends with. *)
Fixpoint strip_suffix (suffixes : list string) (base : string) : string :=
  match suffixes with
  | [] => base
  | suffix :: more =>
      if endswith base suffix
      then drop_back (String.length suffix) base
      else strip_suffix more base
  end.

End CMapping.

(** ** [symbols.py] *)

Inductive SymbolKind :=
  | STRUCT | UNION | CLASS | ENUM | INTERFACE | MODULE | TYPEDEF
  | SNMP_OBJ | SNMP_TBL | SNMP_IFACE.

Record Range := mkRange {
  start_line : nat; start_col : nat; end_line : nat; end_col : nat }.

Record FieldSymbol := mkField {
  f_name : string;
  f_type_ref : option string;
  f_specifier : option string;
  f_default_value : option string;
  f_range : Range;
  f_doc : option string }.

Record RpcSymbol := mkRpc {
  r_name : string;
  r_in_type : option string;
  r_out_type : option string;
  r_throw_type : option string;
  r_range : Range;
  r_doc : option string }.

Record EnumValueSymbol := mkEnumValue {
  ev_name : string;
  ev_value : option string;
  ev_range : Range;
  ev_doc : option string }.

Record Symbol := mkSymbol {
  name : string;
  qualified_name : string;
  kind : SymbolKind;
  file : string;
  range : Range;
  doc : option string;
  package : string;
  parent_class : option string;
  fields : list FieldSymbol;
  enum_values : list EnumValueSymbol;
  rpcs : list RpcSymbol;
  typedef_source : option string;
  ctype : option string }.

#[global] Instance SymbolKind_eq_dec : EqDecision SymbolKind.
Proof. solve_decision. Defined.
#[global] Instance Range_eq_dec : EqDecision Range.
Proof. solve_decision. Defined.
#[global] Instance FieldSymbol_eq_dec : EqDecision FieldSymbol.
Proof. solve_decision. Defined.
#[global] Instance RpcSymbol_eq_dec : EqDecision RpcSymbol.
Proof. solve_decision. Defined.
#[global] Instance EnumValueSymbol_eq_dec : EqDecision EnumValueSymbol.
Proof. solve_decision. Defined.
#[global] Instance Symbol_eq_dec : EqDecision Symbol.
Proof. solve_decision. Defined.

(** ** The syntax tree handed over by the parser *)

#[warnings="-register-all"]
Inductive Node := mkNode {
  ntype : string;              (* node.type *)
  ntext : string;              (* node.text.decode('utf-8') *)
  is_named : bool;
  start_point : nat * nat;     (* (row, column) *)
  end_point : nat * nat;
  children : list Node }.

(** A node together with its siblings: [before ++ here :: after] are the
    children of its parent, which is how [prev_named_sibling],
    [next_named_sibling] and [node.parent.children] are reached. *)
Record Focus := mkFocus {
  before : list Node; here : Node; after : list Node }.

Fixpoint foci_from (seen : list Node) (l : list Node) : list Focus :=
  match l with
  | [] => []
  | n :: r => mkFocus seen n r :: foci_from (seen ++ [n]) r
  end.

(** The children of a node, each with its position among them. *)
Definition child_foci (parent : Node) : list Focus :=
  foci_from [] (children parent).

Definition _node_range (node : Node) : Range :=
  mkRange (fst (start_point node)) (snd (start_point node))
          (fst (end_point node)) (snd (end_point node)).

Definition has_type (type_name : string) (n : Node) : bool :=
  bool_decide (ntype n = type_name).

Definition _find_child (node : Node) (type_name : string) : option Node :=
  find (has_type type_name) (children node).

Definition _find_children (node : Node) (type_name : string) : list Node :=
  filter (fun c => ntype c = type_name) (children node).

Definition _node_text (node : option Node) : option string :=
  ntext <$> node.

Definition _find_identifier (node : Node) : option Node :=
  _find_child node "identifier".

(** ** [doc_comments.py] *)

Module DocComments.
Import PyStr.

Definition clean_line (line : string) : string :=
  let line := strip line in
  if startswith line "* " then drop_front 2 line
  else if startswith line "*" then drop_front 1 line
  else line.

Definition _clean_doc_comment (text : string) : string :=
  let text := drop_front 3 text in
  let text := if endswith text "*/" then drop_back 2 text else text in
  let lines := split "010"%char text in
  strip (join (String "010"%char "") (map clean_line lines)).

Definition _clean_trailing_doc_comment (text : string) : string :=
  let text := drop_front 4 text in
  let text := if endswith text "*/" then drop_back 2 text else text in
  strip text.

(** [node.prev_named_sibling], then its own, and so on: the named
    siblings before the node, nearest first. *)
Definition prev_named_siblings (f : Focus) : list Node :=
  filter (fun n => is_named n = true) (rev (before f)).

(** The [while] loop: skip past attributes. *)
Fixpoint skip_attributes (candidates : list Node) : option Node :=
  match candidates with
  | [] => None
  | c :: r => if has_type "attribute" c then skip_attributes r else Some c
  end.

Definition is_doc_text (text : string) : bool :=
  startswith text "/**"
  && negb (startswith text "/***")
  && negb (startswith text "/**<").

Definition get_doc_comment (f : Focus) : option string :=
  match skip_attributes (prev_named_siblings f) with
  | Some candidate =>
      if has_type "comment" candidate && is_doc_text (ntext candidate)
      then Some (_clean_doc_comment (ntext candidate))
      else None
  | None => None
  end.

Definition next_named_sibling (f : Focus) : option Node :=
  find (fun n => is_named n) (after f).

(** A [/**<] comment that starts on the row where [node] ends. *)
Definition is_trailing_doc_of (node : Node) (c : Node) : bool :=
  has_type "comment" c
  && startswith (ntext c) "/**<"
  && bool_decide (fst (start_point c) = fst (end_point node)).

(** The loop over [node.parent.children] once [found_node] is set. *)
Fixpoint scan_trailing (node : Node) (following : list Node)
  : option string :=
  match following with
  | [] => None
  | child :: r =>
      if is_trailing_doc_of node child
      then Some (_clean_trailing_doc_comment (ntext child))
      else if (fst (end_point node) <? fst (start_point child))%nat
      then None
      else scan_trailing node r
  end.

Definition get_trailing_doc_comment (f : Focus) : option string :=
  match next_named_sibling f with
  | Some sibling =>
      if is_trailing_doc_of (here f) sibling
      then Some (_clean_trailing_doc_comment (ntext sibling))
      else scan_trailing (here f) (after f)
  | None => scan_trailing (here f) (after f)
  end.

Definition get_field_doc_comment (f : Focus) : option string :=
  match get_doc_comment f with
  | Some doc => Some doc
  | None => get_trailing_doc_comment f
  end.

End DocComments.

(** ** [indexer.py]: the symbol index *)

Definition BUILTIN_TYPES : list string :=
  ["int"; "uint"; "long"; "ulong"; "byte"; "ubyte";
   "short"; "ushort"; "bool"; "double"; "bytes"; "string";
   "xml"; "void"].

Definition is_builtin (t : string) : bool := bool_decide (t ∈ BUILTIN_TYPES).

(** A Python [dict] with its insertion order. *)
Module OD.
Section odict.
Context {V : Type}.

Definition odict := list (string * V).

(** [d.get(k)] *)
Fixpoint get (k : string) (d : list (string * V)) : option V :=
  match d with
  | [] => None
  | (k', v) :: r => if decide (k' = k) then Some v else get k r
  end.

(** [d[k] = v]: in place when [k] is a key, at the end otherwise. *)
Fixpoint set (k : string) (v : V) (d : list (string * V))
  : list (string * V) :=
  match d with
  | [] => [(k, v)]
  | (k', v') :: r =>
      if decide (k' = k) then (k, v) :: r else (k', v') :: set k v r
  end.

(** [del d[k]] *)
Definition del (k : string) (d : list (string * V)) : list (string * V) :=
  filter (fun e => e.1 ≠ k) d.

(** [d.values()] *)
Definition values (d : list (string * V)) : list V := map snd d.

Definition keys (d : list (string * V)) : list string := map fst d.
End odict.
End OD.

Record SymbolIndex := mkIndex {
  by_name : list (string * list Symbol);
  by_qualified_name : gmap string Symbol;
  by_package : gmap string (list Symbol);
  by_file : gmap string (list Symbol);
  package_of_file : gmap string string;
  by_c_name : gmap string Symbol }.

Definition empty_index : SymbolIndex := mkIndex [] ∅ ∅ ∅ ∅ ∅.

Module Index.
Import PyStr CMapping.

(** [for s in pkg_symbols: if s.name == type_name: return s] *)
Definition find_named (type_name : string) (syms : list Symbol)
  : option Symbol :=
  find (fun s => bool_decide (name s = type_name)) syms.

(** [for c in candidates: if c.package == current_package: return c] *)
Definition find_in_package (current_package : string)
  (candidates : list Symbol) : option Symbol :=
  find (fun c => bool_decide (package c = current_package)) candidates.

Definition resolve (self : SymbolIndex) (name : string)
  (current_package : option string) : option Symbol :=
  if is_builtin name then None
  else if contains "."%char name then
    match by_qualified_name self !! name with
    | Some sym => Some sym
    | None =>
        match rsplit1 "."%char name with
        | Some (pkg, type_name) =>
            find_named type_name (default [] (by_package self !! pkg))
        | None => None
        end
    end
  else
    let candidates := default [] (OD.get name (by_name self)) in
    match candidates with
    | [] => None
    | [c] => Some c
    | c0 :: _ =>
        match current_package with
        | Some p =>
            if truthy p
            then match find_in_package p candidates with
                 | Some c => Some c
                 | None => Some c0
                 end
            else Some c0
        | None => Some c0
        end
    end.

(** [for ev in sym.enum_values: if ev.name == value_name] *)
Definition find_value (value_name : string) (sym : Symbol)
  : option EnumValueSymbol :=
  find (fun ev => bool_decide (ev_name ev = value_name)) (enum_values sym).

(** [for sym in syms: if sym.kind == ENUM: for ev in ...: return (sym, ev)] *)
Fixpoint scan_enums (value_name : string) (syms : list Symbol)
  : option (Symbol * EnumValueSymbol) :=
  match syms with
  | [] => None
  | sym :: r =>
      if bool_decide (kind sym = ENUM) then
        match find_value value_name sym with
        | Some ev => Some (sym, ev)
        | None => scan_enums value_name r
        end
      else scan_enums value_name r
  end.

(** [for syms in self.by_name.values(): for sym in syms: ...] *)
Fixpoint scan_buckets (value_name : string) (buckets : list (list Symbol))
  : option (Symbol * EnumValueSymbol) :=
  match buckets with
  | [] => None
  | syms :: r =>
      match scan_enums value_name syms with
      | Some found => Some found
      | None => scan_buckets value_name r
      end
  end.

Definition resolve_enum_value (self : SymbolIndex) (value_name : string)
  (current_package : option string) : option (Symbol * EnumValueSymbol) :=
  let in_package :=
    match current_package with
    | Some p =>
        if truthy p
        then scan_enums value_name (default [] (by_package self !! p))
        else None
    | None => None
    end in
  match in_package with
  | Some found => Some found
  | None => scan_buckets value_name (OD.values (by_name self))
  end.

(** The key of the second [by_c_name] entry, when [sym.ctype] is truthy. *)
Definition ctype_base (sym : Symbol) : option string :=
  match ctype sym with
  | Some c => if truthy c then Some (strip_suffix C_TYPE_SUFFIXES c) else None
  | None => None
  end.

(** [self.by_name.setdefault(sym.name, []).append(sym)] *)
Definition name_add (sym : Symbol) (d : list (string * list Symbol))
  : list (string * list Symbol) :=
  OD.set (name sym) (default [] (OD.get (name sym) d) ++ [sym]) d.

(** [m.setdefault(key, []).append(sym)] for [by_package] and [by_file] *)
Definition bucket_add (key : string) (sym : Symbol)
  (m : gmap string (list Symbol)) : gmap string (list Symbol) :=
  <[key := default [] (m !! key) ++ [sym]]> m.

(** The canonical entry, then the entry of the [@ctype] override. *)
Definition c_name_add (sym : Symbol) (m : gmap string Symbol)
  : gmap string Symbol :=
  let c_name := iop_type_to_c (qualified_name sym) in
  let m := <[c_name := sym]> m in
  match ctype_base sym with
  | Some base => <[base := sym]> m
  | None => m
  end.

Definition add_symbol (sym : Symbol) (self : SymbolIndex) : SymbolIndex :=
  mkIndex (name_add sym (by_name self))
          (<[qualified_name sym := sym]> (by_qualified_name self))
          (bucket_add (package sym) sym (by_package self))
          (bucket_add (file sym) sym (by_file self))
          (package_of_file self)
          (c_name_add sym (by_c_name self)).

(** [[s for s in l if s.file != filepath]] *)
Definition not_from (filepath : string) (l : list Symbol) : list Symbol :=
  filter (fun s => file s <> filepath) l.

Definition is_nil {A} (l : list A) : bool :=
  match l with [] => true | _ => false end.

(** "Remove from by_name": filter the bucket of [n], drop it when empty. *)
Definition name_remove (filepath : string) (n : string)
  (d : list (string * list Symbol)) : list (string * list Symbol) :=
  let name_list := default [] (OD.get n d) in
  let kept := not_from filepath name_list in
  let d := OD.set n kept d in
  if is_nil kept then OD.del n d else d.

(** "Remove from by_package", under [if pkg:]. *)
Definition package_remove (filepath : string) (pkg : option string)
  (m : gmap string (list Symbol)) : gmap string (list Symbol) :=
  match pkg with
  | Some p =>
      if truthy p then
        let pkg_list := default [] (m !! p) in
        let kept := not_from filepath pkg_list in
        let m := <[p := kept]> m in
        if is_nil kept then delete p m else m
      else m
  | None => m
  end.

(** "Remove from by_c_name": both entries of [add_symbol]. *)
Definition c_name_remove (sym : Symbol) (m : gmap string Symbol)
  : gmap string Symbol :=
  let c_name := iop_type_to_c (qualified_name sym) in
  let m := delete c_name m in
  match ctype_base sym with
  | Some base => delete base m
  | None => m
  end.

(** One round of the loop of [remove_file]. *)
Definition remove_symbol (filepath : string) (pkg : option string)
  (self : SymbolIndex) (sym : Symbol) : SymbolIndex :=
  mkIndex (name_remove filepath (name sym) (by_name self))
          (delete (qualified_name sym) (by_qualified_name self))
          (package_remove filepath pkg (by_package self))
          (by_file self)
          (package_of_file self)
          (c_name_remove sym (by_c_name self)).

(** [symbols] and [pkg] are popped before the loop runs. *)
Definition remove_file (filepath : string) (self : SymbolIndex)
  : SymbolIndex :=
  let symbols := default [] (by_file self !! filepath) in
  let pkg := package_of_file self !! filepath in
  let self := mkIndex (by_name self) (by_qualified_name self)
                (by_package self) (delete filepath (by_file self))
                (delete filepath (package_of_file self)) (by_c_name self) in
  foldl (remove_symbol filepath pkg) self symbols.

Definition resolve_c_identifier (self : SymbolIndex) (c_ident : string)
  : option Symbol :=
  by_c_name self !! strip_suffix C_TYPE_SUFFIXES c_ident.

End Index.

(** ** [indexer.py]: extraction and the workspace indexer *)

Module Extract.
Import PyStr DocComments.

(** [_NODE_TYPE_TO_KIND] together with the test on
    [data_structure_definition], whose kind is read from its
    [data_structure_type] child. *)
Definition node_kind (node : Node) : option SymbolKind :=
  let t := ntype node in
  if bool_decide (t = "data_structure_definition") then
    match _find_child node "data_structure_type" with
    | Some ds_type =>
        Some (if bool_decide (ntext ds_type = "struct") then STRUCT else UNION)
    | None => None
    end
  else if bool_decide (t = "class_definition") then Some CLASS
  else if bool_decide (t = "enum_definition") then Some ENUM
  else if bool_decide (t = "interface_definition") then Some INTERFACE
  else if bool_decide (t = "module_definition") then Some MODULE
  else if bool_decide (t = "typedef_definition") then Some TYPEDEF
  else if bool_decide (t = "snmp_object_definition") then Some SNMP_OBJ
  else if bool_decide (t = "snmp_table_definition") then Some SNMP_TBL
  else if bool_decide (t = "snmp_interface_definition") then Some SNMP_IFACE
  else None.

(** [_node_range(id_node) if id_node else _node_range(child)] *)
Definition range_of (id_node : option Node) (child : Node) : Range :=
  match id_node with
  | Some n => _node_range n
  | None => _node_range child
  end.

(** [type_text if type_text and type_text not in BUILTIN_TYPES else None] *)
Definition type_ref_of (type_text : option string) : option string :=
  match type_text with
  | Some t => if truthy t && negb (is_builtin t) then Some t else None
  | None => None
  end.

Definition field_of (child : Focus) (var : Node) : FieldSymbol :=
  let type_node := _find_child var "type" in
  let type_spec := _find_child var "type_specifier" in
  let id_node := _find_identifier var in
  let default_ := _find_child var "default_value" in
  {| f_name := default "" (_node_text id_node);
     f_type_ref := type_ref_of (_node_text type_node);
     f_specifier := _node_text type_spec;
     f_default_value := _node_text default_;
     f_range := range_of id_node (here child);
     f_doc := get_field_doc_comment child |}.

Fixpoint fields_of (cs : list Focus) : list FieldSymbol :=
  match cs with
  | [] => []
  | child :: r =>
      if has_type "field" (here child) then
        match _find_child (here child) "variable" with
        | Some var => field_of child var :: fields_of r
        | None => fields_of r
        end
      else fields_of r
  end.

Definition _extract_fields (block : Node) : list FieldSymbol :=
  fields_of (child_foci block).

Definition enum_value_of (child : Focus) : EnumValueSymbol :=
  let id_node := _find_identifier (here child) in
  let default_ := _find_child (here child) "default_value" in
  let doc :=
    match get_field_doc_comment child with
    | Some d => Some d
    | None => get_trailing_doc_comment child
    end in
  {| ev_name := default "" (_node_text id_node);
     ev_value := (fun d => strip (lstrip_chars "= " (ntext d))) <$> default_;
     ev_range := range_of id_node (here child);
     ev_doc := doc |}.

Definition _extract_enum_values (block : Node) : list EnumValueSymbol :=
  map enum_value_of
    (filter (fun c => ntype (here c) = "enum_field") (child_foci block)).

Definition _extract_rpc_type_ref (rpc_clause : option Node)
  : option string :=
  match rpc_clause with
  | None => None
  | Some clause =>
      match _find_child clause "argument_list" with
      | Some _ => None
      | None =>
          match _find_identifier clause with
          | Some id_node =>
              let text := ntext id_node in
              if truthy text && negb (is_builtin text)
                 && negb (bool_decide (text ∈ ["null"; "void"]))
              then Some text else None
          | None => None
          end
      end
  end.

Definition rpc_of (child : Focus) : RpcSymbol :=
  let id_node := _find_identifier (here child) in
  {| r_name := default "" (_node_text id_node);
     r_in_type := _extract_rpc_type_ref (_find_child (here child) "rpc_in");
     r_out_type := _extract_rpc_type_ref (_find_child (here child) "rpc_out");
     r_throw_type :=
       _extract_rpc_type_ref (_find_child (here child) "rpc_throw");
     r_range := range_of id_node (here child);
     r_doc := get_doc_comment child |}.

Definition _extract_rpcs (block : Node) : list RpcSymbol :=
  map rpc_of (filter (fun c => ntype (here c) = "rpc") (child_foci block)).

Fixpoint module_fields_of (cs : list Focus) : list FieldSymbol :=
  match cs with
  | [] => []
  | child :: r =>
      if has_type "module_field" (here child) then
        match _find_children (here child) "identifier" with
        | type_id :: name_id :: _ =>
            {| f_name := ntext name_id;
               f_type_ref := Some (ntext type_id);
               f_specifier := None;
               f_default_value := None;
               f_range := _node_range name_id;
               f_doc := get_field_doc_comment child |}
            :: module_fields_of r
        | _ => module_fields_of r
        end
      else module_fields_of r
  end.

Definition _extract_module_fields (block : Node) : list FieldSymbol :=
  module_fields_of (child_foci block).

(** The loop of [_extract_ctype] over the children of the definition. *)
Fixpoint ctype_of (cs : list Node) : option string :=
  match cs with
  | [] => None
  | child :: r =>
      if has_type "attribute" child then
        match _find_child child "identifier" with
        | Some attr_id =>
            if bool_decide (ntext attr_id = "ctype") then
              match _find_child child "attribute_argument_list" with
              | Some arg_list =>
                  match _find_child arg_list "attribute_content" with
                  | Some content => Some (strip (ntext content))
                  | None => ctype_of r
                  end
              | None => ctype_of r
              end
            else ctype_of r
        | None => ctype_of r
        end
      else ctype_of r
  end.

Definition _extract_ctype (node : Node) : option string :=
  ctype_of (children node).

(** [for inh in _find_children(node, 'class_inheritance'): ...]: the last
    inheritance clause that has an identifier wins. *)
Definition parent_class_of (node : Node) : option string :=
  if bool_decide (ntype node = "class_definition") then
    foldl (fun acc inh =>
             match _find_identifier inh with
             | Some inh_id => Some (ntext inh_id)
             | None => acc
             end)
          None (_find_children node "class_inheritance")
  else None.

(** The declared name: inside the [variable] child for a typedef. *)
Definition name_node (node : Node) : option Node :=
  if bool_decide (ntype node = "typedef_definition") then
    match _find_child node "variable" with
    | Some var => _find_identifier var
    | None => None
    end
  else _find_identifier node.

Definition block_fields (node : Node) : list FieldSymbol :=
  match _find_child node "data_structure_block" with
  | Some block => _extract_fields block
  | None => []
  end.

Definition _extract_symbol (f : Focus) (filepath package : string)
  : option Symbol :=
  let node := here f in
  match node_kind node with
  | None => None
  | Some kind =>
      match name_node node with
      | None => None
      | Some id_node =>
          let name := ntext id_node in
          let sym_fields :=
            match kind with
            | STRUCT | UNION | SNMP_OBJ | SNMP_TBL => block_fields node
            | CLASS => block_fields node
            | MODULE =>
                match _find_child node "module_block" with
                | Some block => _extract_module_fields block
                | None => []
                end
            | _ => []
            end in
          let sym_enum_values :=
            match kind with
            | ENUM =>
                match _find_child node "enum_block" with
                | Some block => _extract_enum_values block
                | None => []
                end
            | _ => []
            end in
          let sym_rpcs :=
            match kind with
            | INTERFACE =>
                match _find_child node "rpc_block" with
                | Some block => _extract_rpcs block
                | None => []
                end
            | _ => []
            end in
          let sym_typedef_source :=
            match kind with
            | TYPEDEF =>
                match _find_child node "variable" with
                | Some var => _node_text (_find_child var "type")
                | None => None
                end
            | _ => None
            end in
          Some {| name := name;
                  qualified_name := package +:+ "." +:+ name;
                  kind := kind;
                  file := filepath;
                  range := _node_range id_node;
                  doc := get_doc_comment f;
                  package := package;
                  parent_class := parent_class_of node;
                  fields := sym_fields;
                  enum_values := sym_enum_values;
                  rpcs := sym_rpcs;
                  typedef_source := sym_typedef_source;
                  ctype := _extract_ctype node |}
      end
  end.

(** The package of a file: the identifier of the first
    [package_definition] among the children of the root. *)
Definition package_of_root (root : Node) : option string :=
  match _find_child root "package_definition" with
  | Some child => _node_text (_find_identifier child)
  | None => None
  end.

(** The symbols of a file in declaration order: the second loop of
    [_index_source] without its [add_symbol]. *)
Definition symbols_of_root (root : Node) (filepath package : string)
  : list Symbol :=
  omap (fun child => _extract_symbol child filepath package)
       (child_foci root).

(** ** Texts that do not decode

    [node.text.decode('utf-8')] raises [UnicodeDecodeError] when the bytes
    of the node are not valid UTF-8, and nothing in the indexer catches
    it.  [ntext] is the decoded text; whether the bytes of a node decode
    is not part of the tree and is given from outside.  The functions
    below list, in the order of evaluation, the nodes whose text a
    function of the indexer decodes.  Control flow is followed with the
    decoded texts, which is exact up to the first node that does not
    decode; what comes after that node is never run. *)

(** [_node_text(node)]: the text of [node], unless it is [None]. *)
Definition text_reads (node : option Node) : list Node :=
  match node with
  | Some n => [n]
  | None => []
  end.

(** [get_doc_comment]: the text of the candidate, when it is a comment. *)
Definition doc_comment_reads (f : Focus) : list Node :=
  match skip_attributes (prev_named_siblings f) with
  | Some candidate => if has_type "comment" candidate then [candidate] else []
  | None => []
  end.

(** The loop of [get_trailing_doc_comment]: the text of every comment it
    meets until it returns or breaks. *)
Fixpoint scan_trailing_reads (node : Node) (following : list Node)
  : list Node :=
  match following with
  | [] => []
  | child :: r =>
      (if has_type "comment" child then [child] else [])
      ++ (if is_trailing_doc_of node child then []
          else if (fst (end_point node) <? fst (start_point child))%nat
          then []
          else scan_trailing_reads node r)
  end.

Definition trailing_doc_reads (f : Focus) : list Node :=
  match next_named_sibling f with
  | Some sibling =>
      if has_type "comment" sibling then
        sibling
        :: (if is_trailing_doc_of (here f) sibling then []
            else scan_trailing_reads (here f) (after f))
      else scan_trailing_reads (here f) (after f)
  | None => scan_trailing_reads (here f) (after f)
  end.

(** [get_field_doc_comment]: the trailing comment is looked for only
    when there is no doc before the member. *)
Definition field_doc_reads (f : Focus) : list Node :=
  doc_comment_reads f
  ++ (match get_doc_comment f with
      | Some _ => []
      | None => trailing_doc_reads f
      end).

(** [_extract_fields]: type, name, specifier, default value, doc. *)
Fixpoint fields_reads (cs : list Focus) : list Node :=
  match cs with
  | [] => []
  | child :: r =>
      if has_type "field" (here child) then
        match _find_child (here child) "variable" with
        | Some var =>
            text_reads (_find_child var "type")
            ++ text_reads (_find_identifier var)
            ++ text_reads (_find_child var "type_specifier")
            ++ text_reads (_find_child var "default_value")
            ++ field_doc_reads child
            ++ fields_reads r
        | None => fields_reads r
        end
      else fields_reads r
  end.

(** [_extract_enum_values]: the doc, the trailing doc once more when
    there is none, then name and value. *)
Definition enum_value_reads (child : Focus) : list Node :=
  field_doc_reads child
  ++ (match get_field_doc_comment child with
      | Some _ => []
      | None => trailing_doc_reads child
      end)
  ++ text_reads (_find_identifier (here child))
  ++ text_reads (_find_child (here child) "default_value").

Definition enum_values_reads (block : Node) : list Node :=
  concat (map enum_value_reads
            (filter (fun c => ntype (here c) = "enum_field")
                    (child_foci block))).

(** [_extract_rpc_type_ref] *)
Definition rpc_type_ref_reads (rpc_clause : option Node) : list Node :=
  match rpc_clause with
  | None => []
  | Some clause =>
      match _find_child clause "argument_list" with
      | Some _ => []
      | None => text_reads (_find_identifier clause)
      end
  end.

(** [_extract_rpcs]: doc, name, then the three clauses. *)
Definition rpc_reads (child : Focus) : list Node :=
  doc_comment_reads child
  ++ text_reads (_find_identifier (here child))
  ++ rpc_type_ref_reads (_find_child (here child) "rpc_in")
  ++ rpc_type_ref_reads (_find_child (here child) "rpc_out")
  ++ rpc_type_ref_reads (_find_child (here child) "rpc_throw").

Definition rpcs_reads (block : Node) : list Node :=
  concat (map rpc_reads
            (filter (fun c => ntype (here c) = "rpc") (child_foci block))).

(** [_extract_module_fields]: name, type, doc. *)
Fixpoint module_fields_reads (cs : list Focus) : list Node :=
  match cs with
  | [] => []
  | child :: r =>
      if has_type "module_field" (here child) then
        match _find_children (here child) "identifier" with
        | type_id :: name_id :: _ =>
            name_id :: type_id :: field_doc_reads child
            ++ module_fields_reads r
        | _ => module_fields_reads r
        end
      else module_fields_reads r
  end.

(** [_extract_ctype]: the identifier of every attribute until the one
    named [ctype] that has a content, and that content. *)
Fixpoint ctype_reads (cs : list Node) : list Node :=
  match cs with
  | [] => []
  | child :: r =>
      if has_type "attribute" child then
        match _find_child child "identifier" with
        | Some attr_id =>
            attr_id
            :: (if bool_decide (ntext attr_id = "ctype") then
                  match _find_child child "attribute_argument_list" with
                  | Some arg_list =>
                      match _find_child arg_list "attribute_content" with
                      | Some content => [content]
                      | None => ctype_reads r
                      end
                  | None => ctype_reads r
                  end
                else ctype_reads r)
        | None => ctype_reads r
        end
      else ctype_reads r
  end.

(** The identifiers of the inheritance clauses of a class. *)
Definition parent_class_reads (node : Node) : list Node :=
  if bool_decide (ntype node = "class_definition") then
    concat (map (fun inh => text_reads (_find_identifier inh))
                (_find_children node "class_inheritance"))
  else [].

(** "Extract children based on kind" *)
Definition members_reads (kind : SymbolKind) (node : Node) : list Node :=
  match kind with
  | STRUCT | UNION | SNMP_OBJ | SNMP_TBL | CLASS =>
      match _find_child node "data_structure_block" with
      | Some block => fields_reads (child_foci block)
      | None => []
      end
  | ENUM =>
      match _find_child node "enum_block" with
      | Some block => enum_values_reads block
      | None => []
      end
  | INTERFACE =>
      match _find_child node "rpc_block" with
      | Some block => rpcs_reads block
      | None => []
      end
  | MODULE =>
      match _find_child node "module_block" with
      | Some block => module_fields_reads (child_foci block)
      | None => []
      end
  | TYPEDEF =>
      match _find_child node "variable" with
      | Some var => text_reads (_find_child var "type")
      | None => []
      end
  | SNMP_IFACE => []
  end.

(** [_extract_symbol]: the [data_structure_type], then, when there is a
    name, the name, the doc, the parent class, the [@ctype] and the
    members. *)
Definition extract_symbol_reads (f : Focus) : list Node :=
  let node := here f in
  match node_kind node with
  | None => []
  | Some kind =>
      (if bool_decide (ntype node = "data_structure_definition")
       then text_reads (_find_child node "data_structure_type")
       else [])
      ++ (match name_node node with
          | None => []
          | Some id_node =>
              id_node :: doc_comment_reads f
              ++ parent_class_reads node
              ++ ctype_reads (children node)
              ++ members_reads kind node
          end)
  end.

(** The first loop of [_index_source]: the identifier of the package. *)
Definition package_reads (root : Node) : list Node :=
  match _find_child root "package_definition" with
  | Some child => text_reads (_find_identifier child)
  | None => []
  end.

End Extract.

Module Indexer.
Import PyStr Index Extract.

(** [self.index.package_of_file[filepath] = package] *)
Definition record_package (filepath package : string) (index : SymbolIndex)
  : SymbolIndex :=
  mkIndex (by_name index) (by_qualified_name index) (by_package index)
          (by_file index) (<[filepath := package]> (package_of_file index))
          (by_c_name index).

(** [sym = self._extract_symbol(...)]; [if sym is not None: add_symbol] *)
Definition add_extracted (filepath package : string) (index : SymbolIndex)
  (child : Focus) : SymbolIndex :=
  match _extract_symbol child filepath package with
  | Some sym => add_symbol sym index
  | None => index
  end.

Definition _index_source (filepath : string) (root : Node)
  (index : SymbolIndex) : SymbolIndex :=
  match package_of_root root with
  | None => index
  | Some package =>
      foldl (add_extracted filepath package)
            (record_package filepath package index) (child_foci root)
  end.

(** What a call leaves behind: the index when the call returns, or the
    index as it stands when an exception escapes the call. *)
Inductive Outcome :=
  | Returned (index : SymbolIndex)
  | Raised (index : SymbolIndex).

Definition index_of (o : Outcome) : SymbolIndex :=
  match o with
  | Returned index => index
  | Raised index => index
  end.

(** The next statement runs only when the one before has returned. *)
Definition and_then (o : Outcome) (next : SymbolIndex -> Outcome)
  : Outcome :=
  match o with
  | Returned index => next index
  | Raised index => Raised index
  end.

Section indexer.
(** [os.path.abspath], [os.path.join] and [self.parser.parse] *)
Variable abspath : string -> string.
Variable path_join : string -> string -> string.
Variable parse : string -> Node.

(** The source of an open document is encoded from a [str] by the
    server, so every text of its tree decodes: [_index_source] is the run
    in which nothing raises. *)
Definition index_source (filepath : string) (source : string)
  (index : SymbolIndex) : SymbolIndex :=
  let filepath := abspath filepath in
  let index := remove_file filepath index in
  _index_source filepath (parse source) index.

(** A file on disk is read as bytes, which need not be valid UTF-8:
    [decodes n] says whether the bytes of [n] are. *)
Variable decodes : Node -> bool.

Definition raises (reads : list Node) : bool :=
  negb (forallb decodes reads).

(** The second loop of [_index_source]: [_extract_symbol] builds the
    whole symbol before [add_symbol] is called, so an exception leaves
    the index as the children before have made it. *)
Fixpoint add_extracted_or_raise (filepath package : string)
  (index : SymbolIndex) (cs : list Focus) : Outcome :=
  match cs with
  | [] => Returned index
  | child :: r =>
      if raises (extract_symbol_reads child) then Raised index
      else add_extracted_or_raise filepath package
             (add_extracted filepath package index child) r
  end.

(** [_index_source] on a tree whose texts may not decode. *)
Definition _index_source_or_raise (filepath : string) (root : Node)
  (index : SymbolIndex) : Outcome :=
  if raises (package_reads root) then Raised index
  else
    match package_of_root root with
    | None => Returned index
    | Some package =>
        add_extracted_or_raise filepath package
          (record_package filepath package index) (child_foci root)
    end.

(** [read filepath] is the outcome of opening and reading the file:
    [None] when that raises [OSError], the one exception caught. *)
Definition index_file (read : string -> option string)
  (filepath : string) (index : SymbolIndex) : Outcome :=
  let filepath := abspath filepath in
  let index := remove_file filepath index in
  match read filepath with
  | None => Returned index
  | Some source => _index_source_or_raise filepath (parse source) index
  end.

(** [walk] is what [os.walk(root_path)] yields: directories with their
    file names.  An exception that escapes [index_file] ends the scan. *)
Definition index_workspace (read : string -> option string)
  (walk : list (string * list string)) (index : SymbolIndex)
  : Outcome :=
  foldl (fun o '(dirpath, filenames) =>
           foldl (fun o fname =>
                    and_then o (fun index =>
                      if endswith fname ".iop"
                      then index_file read (path_join dirpath fname) index
                      else Returned index))
                 o filenames)
        (Returned index) walk.
End indexer.

End Indexer.

(** ** [server.py]: the position resolver and the requests *)

Module Server.
Import PyStr Index.

Definition _uri_to_path (uri : string) : string :=
  if startswith uri "file://" then drop_front 7 uri else uri.

(** A node of a parsed document as the resolver walks from it: the node
    itself and, innermost first, its ancestors, each without the child the
    walk came from.  Node identity ([node.id]) is the position in the
    tree. *)
Record Frame := mkFrame {
  fr_type : string;
  fr_text : string;
  fr_named : bool;
  fr_start : nat * nat;
  fr_end : nat * nat;
  fr_before : list Node;
  fr_after : list Node }.

Record Located := mkLocated {
  lnode : Node;
  labove : list Frame }.

(** The parent of [child] seen through [fr], with all its children. *)
Definition plug (fr : Frame) (child : Node) : Node :=
  mkNode (fr_type fr) (fr_text fr) (fr_named fr) (fr_start fr) (fr_end fr)
         (fr_before fr ++ child :: fr_after fr).

(** [node.parent], as a located node and as a plain node. *)
Definition lparent (l : Located) : option Located :=
  match labove l with
  | [] => None
  | fr :: up => Some (mkLocated (plug fr (lnode l)) up)
  end.

Definition parent_node (l : Located) : option Node := lnode <$> lparent l.

Definition grandparent_node (l : Located) : option Node :=
  lparent l ≫= parent_node.

(** The node among its siblings; a node without parent has none. *)
Definition lfocus (l : Located) : Focus :=
  match labove l with
  | [] => mkFocus [] (lnode l) []
  | fr :: _ => mkFocus (fr_before fr) (lnode l) (fr_after fr)
  end.

(** [node.id == first.id] where [first] is the first child of the parent
    with type [t]: no earlier sibling has that type and the node has it. *)
Definition is_first_of_type (t : string) (l : Located) : bool :=
  match labove l with
  | [] => false
  | fr :: _ =>
      negb (existsb (has_type t) (fr_before fr)) && has_type t (lnode l)
  end.

Definition _is_type_reference_context (l : Located) : bool :=
  let node := lnode l in
  if negb (has_type "identifier" node) && negb (has_type "type" node)
  then false
  else
    match parent_node l with
    | None => false
    | Some parent =>
        if has_type "identifier" node && has_type "type" parent then true
        else if has_type "type" node && has_type "variable" parent then true
        else if has_type "class_inheritance" parent then true
        else if bool_decide (ntype parent ∈ ["rpc_in"; "rpc_out"; "rpc_throw"])
        then true
        else if has_type "module_field" parent
        then is_first_of_type "identifier" l
        else false
    end.

(** [node.text.decode('utf-8') if node.text else None] *)
Definition text_of (node : Node) : option string :=
  if truthy (ntext node) then Some (ntext node) else None.

(** [gp and gp.type == 'default_value'] *)
Definition in_default_value (l : Located) : bool :=
  match grandparent_node l with
  | Some gp => has_type "default_value" gp
  | None => false
  end.

(** [node] is the outcome of [_node_at_position]: the smallest named node
    at the cursor, as tree-sitter finds it. *)
Definition _get_type_ref_at_position (node : option Located)
  : option string :=
  match node with
  | None => None
  | Some l =>
      match text_of (lnode l) with
      | None => None
      | Some text =>
          if _is_type_reference_context l then Some text
          else if has_type "identifier" (lnode l) then
            match parent_node l with
            | Some parent =>
                if has_type "value" parent then Some text
                else if in_default_value l then Some text
                else None
            | None => None
            end
          else None
      end
  end.

(** The context tags ['type_ref'], ['enum_value'], ['field_name'],
    ['enum_value_def'], ['type_def'], ['rpc_name'] and ['unknown']. *)
Inductive Context :=
  | type_ref | enum_value | field_name | enum_value_def
  | type_def | rpc_name | unknown.

Definition TYPE_DEFINITIONS : list string :=
  ["data_structure_definition"; "class_definition";
   "enum_definition"; "interface_definition";
   "module_definition"; "snmp_object_definition";
   "snmp_table_definition"; "snmp_interface_definition"].

(** The classification of [_get_node_context_at_position] for a node
    that was found. *)
Definition context_of (l : Located) : Context :=
  let node := lnode l in
  let by_node_type := if has_type "type" node then type_ref else unknown in
  if _is_type_reference_context l then type_ref
  else if has_type "identifier" node then
    match parent_node l with
    | Some parent =>
        if has_type "value" parent || in_default_value l then enum_value
        else if has_type "variable" parent
                && bool_decide (is_Some (_find_child parent "type"))
                && negb (is_first_of_type "type" l)
        then field_name
        else if has_type "enum_field" parent then enum_value_def
        else if bool_decide (ntype parent ∈ TYPE_DEFINITIONS) then type_def
        else if has_type "rpc" parent then rpc_name
        else by_node_type
    | None => by_node_type
    end
  else by_node_type.

Definition _get_node_context_at_position (node : option Located)
  : option Located * Context :=
  match node with
  | None => (None, unknown)
  | Some l => (Some l, context_of l)
  end.

(** [lsp.Location], its range with the four numbers of [lsp.Range]. *)
Record Location := mkLocation { loc_uri : string; loc_range : Range }.

Definition _range_to_lsp (r : Range) : Range :=
  mkRange (start_line r) (start_col r) (end_line r) (end_col r).

Definition _symbol_to_location (sym : Symbol) : Location :=
  mkLocation ("file://" +:+ file sym) (_range_to_lsp (range sym)).

Definition _get_package_for_uri (index : SymbolIndex) (uri : string)
  : option string :=
  package_of_file index !! _uri_to_path uri.

(** The text looked up by [goto_definition] and [hover]: for a [type]
    node, the text of its first identifier child when it has one. *)
Definition lookup_text (node : Node) (text : string) : string :=
  if has_type "type" node then
    match _find_child node "identifier" with
    | Some child => ntext child
    | None => text
    end
  else text.

(** [node] is the node found at the position of the request in the parsed
    document. *)
Definition goto_definition (index : SymbolIndex) (uri : string)
  (node : option Located) : option Location :=
  match _get_node_context_at_position node with
  | (None, _) => None
  | (Some l, context) =>
      match text_of (lnode l) with
      | None => None
      | Some text =>
          let text := lookup_text (lnode l) text in
          let current_package := _get_package_for_uri index uri in
          match context with
          | type_ref =>
              _symbol_to_location <$> resolve index text current_package
          | enum_value =>
              (fun '(enum_sym, enum_val) =>
                 mkLocation ("file://" +:+ file enum_sym)
                            (_range_to_lsp (ev_range enum_val)))
              <$> resolve_enum_value index text current_package
          | field_name =>
              match parent_node l with
              | Some parent =>
                  if has_type "variable" parent then
                    match _find_child parent "type" with
                    | Some type_node =>
                        _symbol_to_location
                        <$> resolve index (ntext type_node) current_package
                    | None => None
                    end
                  else None
              | None => None
              end
          | _ => None
          end
      end
  end.

(** [sym.kind.value] *)
Definition kind_value (k : SymbolKind) : string :=
  match k with
  | STRUCT => "struct" | UNION => "union" | CLASS => "class"
  | ENUM => "enum" | INTERFACE => "interface" | MODULE => "module"
  | TYPEDEF => "typedef" | SNMP_OBJ => "snmpObj" | SNMP_TBL => "snmpTbl"
  | SNMP_IFACE => "snmpIface"
  end.

Definition newline : string := String "010"%char "".

(** [f' = {ev.value}' if ev.value else ''] *)
Definition value_suffix (ev : EnumValueSymbol) : string :=
  match ev_value ev with
  | Some v => if truthy v then " = " +:+ v else ""
  | None => ""
  end.

(** [x or d] for an [Optional[str]] *)
Definition or_else (o : option string) (d : string) : string :=
  match o with
  | Some s => if truthy s then s else d
  | None => d
  end.

(** The arrow of the typedef line is written as the three bytes of its
    UTF-8 encoding. *)
Definition _format_symbol_hover (sym : Symbol) : string :=
  let head := "**" +:+ kind_value (kind sym) +:+ " " +:+ name sym +:+ "**" in
  let head :=
    if bool_decide (kind sym = CLASS) && otruthy (parent_class sym)
    then head +:+ " : " +:+ default "" (parent_class sym)
    else head in
  let head :=
    if bool_decide (kind sym = TYPEDEF) && otruthy (typedef_source sym)
    then "**typedef** " +:+ default "" (typedef_source sym)
         +:+ " → **" +:+ name sym +:+ "**"
    else head in
  let parts := [head; "*(package: " +:+ package sym +:+ ")*"] in
  let parts :=
    if otruthy (doc sym) then parts ++ [""; default "" (doc sym)]
    else parts in
  let parts :=
    if negb (is_nil (enum_values sym)) then
      parts ++ [""; "```iop"]
      ++ map (fun ev => "  " +:+ ev_name ev +:+ value_suffix ev +:+ ",")
             (enum_values sym)
      ++ ["```"]
    else if negb (is_nil (fields sym)) && (length (fields sym) <=? 10)%nat
    then
      parts ++ [""; "```iop"]
      ++ map (fun f => "  " +:+ or_else (f_type_ref f) "builtin"
                       +:+ or_else (f_specifier f) "" +:+ " "
                       +:+ f_name f +:+ ";")
             (fields sym)
      ++ ["```"]
    else parts in
  join newline parts.

Definition _format_enum_value_hover (enum_sym : Symbol)
  (ev : EnumValueSymbol) : string :=
  let parts :=
    ["**" +:+ ev_name ev +:+ "**" +:+ value_suffix ev;
     "*(enum " +:+ qualified_name enum_sym +:+ ")*"] in
  let parts :=
    if otruthy (ev_doc ev) then parts ++ [""; default "" (ev_doc ev)]
    else parts in
  join newline parts.

(** [field_parent] is the parent of the variable; its doc comment is
    looked up among its own siblings. *)
Definition _format_field_hover_from_node (l : Located) : option string :=
  match lparent l with
  | None => None
  | Some var =>
      let var_node := lnode var in
      if negb (has_type "variable" var_node) then None
      else
        let type_node := _find_child var_node "type" in
        let type_spec := _find_child var_node "type_specifier" in
        let default_ := _find_child var_node "default_value" in
        let head :=
          "**" +:+ ntext (lnode l) +:+ "** ("
          +:+ default "?" (ntext <$> type_node)
          +:+ default "" (ntext <$> type_spec) +:+ ")" in
        let head :=
          match default_ with
          | Some d => head +:+ " " +:+ ntext d
          | None => head
          end in
        let parts :=
          match lparent var with
          | Some field_parent =>
              if has_type "field" (lnode field_parent) then
                match DocComments.get_field_doc_comment
                        (lfocus field_parent) with
                | Some doc => if truthy doc then [head; ""; doc] else [head]
                | None => [head]
                end
              else [head]
          | None => [head]
          end in
        Some (join newline parts)
  end.

Definition _format_enum_value_def_hover (index : SymbolIndex)
  (node : Node) (current_package : option string) : option string :=
  match text_of node with
  | None => None
  | Some name =>
      (fun '(enum_sym, ev) => _format_enum_value_hover enum_sym ev)
      <$> resolve_enum_value index name current_package
  end.

(** [if hover_text:] *)
Definition shown (hover_text : option string) : option string :=
  match hover_text with
  | Some t => if truthy t then Some t else None
  | None => None
  end.

(** The markdown of the [lsp.Hover] answered, if any. *)
Definition hover (index : SymbolIndex) (uri : string)
  (node : option Located) : option string :=
  match _get_node_context_at_position node with
  | (None, _) => None
  | (Some l, context) =>
      match text_of (lnode l) with
      | None => None
      | Some text =>
          let text := lookup_text (lnode l) text in
          let current_package := _get_package_for_uri index uri in
          match context with
          | type_ref =>
              if is_builtin text
              then Some ("**" +:+ text +:+ "** (built-in type)")
              else _format_symbol_hover <$> resolve index text current_package
          | enum_value =>
              (fun '(enum_sym, enum_val) =>
                 _format_enum_value_hover enum_sym enum_val)
              <$> resolve_enum_value index text current_package
          | field_name => shown (_format_field_hover_from_node l)
          | enum_value_def =>
              shown (_format_enum_value_def_hover index (lnode l)
                       current_package)
          | type_def =>
              if truthy text then
                let qname :=
                  match current_package with
                  | Some p => if truthy p then p +:+ "." +:+ text else text
                  | None => text
                  end in
                _format_symbol_hover <$> by_qualified_name index !! qname
              else None
          | _ => None
          end
      end
  end.

Section notifications.
Variable abspath : string -> string.
Variable parse : string -> Node.

(** [did_open] and [did_change]: the text of the document is indexed. *)
Definition did_open (uri text : string) (index : SymbolIndex)
  : SymbolIndex :=
  Indexer.index_source abspath parse (_uri_to_path uri) text index.

(** [did_save]: the file is read again, from disk. *)
Definition did_save (decodes : Node -> bool)
  (read : string -> option string) (uri : string)
  (index : SymbolIndex) : Indexer.Outcome :=
  Indexer.index_file abspath parse decodes read (_uri_to_path uri) index.
End notifications.

End Server.

(** ** Sample syntax trees

    Trees of the shape the extraction code reads, for sources like those
    of the repository's tests.  Rows are those of the source; columns are
    indicative where nothing depends on them. *)

Module Samples.

Definition tok (t : string) (row c1 c2 : nat) : Node :=
  mkNode t t false (row, c1) (row, c2) [].

Definition leaf (t txt : string) (row c1 c2 : nat) : Node :=
  mkNode t txt true (row, c1) (row, c2) [].

Definition inner (t : string) (row c1 c2 : nat) (cs : list Node) : Node :=
  mkNode t "" true (row, c1) (row, c2) cs.

Definition package_decl (pkg : string) : Node :=
  inner "package_definition" 0 0 (9 + String.length pkg)
    [tok "package" 0 0 7;
     leaf "identifier" pkg 0 8 (8 + String.length pkg);
     tok ";" 0 (8 + String.length pkg) (9 + String.length pkg)].

(** [struct <name> { <members> };] on row [row] *)
Definition struct_decl (row : nat) (name : string) (members : list Node)
  : Node :=
  inner "data_structure_definition" row 0 (11 + String.length name)
    [leaf "data_structure_type" "struct" row 0 6;
     leaf "identifier" name row 7 (7 + String.length name);
     inner "data_structure_block" row (8 + String.length name)
       (10 + String.length name)
       (tok "{" row (8 + String.length name) (9 + String.length name)
        :: members
        ++ [tok "}" row (9 + String.length name) (10 + String.length name)]);
     tok ";" row (10 + String.length name) (11 + String.length name)].

(** [<type> <name>;] as a member on row [row] *)
Definition field_decl (row : nat) (type_name name : string) : Node :=
  inner "field" row 4 (6 + String.length type_name + String.length name)
    [inner "variable" row 4 (5 + String.length type_name + String.length name)
       [leaf "type" type_name row 4 (4 + String.length type_name);
        leaf "identifier" name row (5 + String.length type_name)
          (5 + String.length type_name + String.length name)];
     tok ";" row (5 + String.length type_name + String.length name)
       (6 + String.length type_name + String.length name)].

(** [<NAME>,] as an enum member on row [row] *)
Definition enum_field_decl (row : nat) (name : string) : Node :=
  inner "enum_field" row 4 (4 + String.length name)
    [leaf "identifier" name row 4 (4 + String.length name)].

(** [enum <name> { <members> };] starting on row [row] *)
Definition enum_decl (row : nat) (name : string) (members : list Node)
  : Node :=
  inner "enum_definition" row 0 (9 + String.length name)
    [tok "enum" row 0 4;
     leaf "identifier" name row 5 (5 + String.length name);
     inner "enum_block" row (6 + String.length name)
       (8 + String.length name)
       (tok "{" row (6 + String.length name) (7 + String.length name)
        :: members
        ++ [tok "}" row (7 + String.length name) (8 + String.length name)]);
     tok ";" row (8 + String.length name) (9 + String.length name)].

Definition comment (text : string) (row c1 : nat) : Node :=
  leaf "comment" text row c1 (c1 + String.length text).

Definition source_file (decls : list Node) : Node :=
  inner "source_file" 0 0 0 decls.

(** [package foo; struct Common {};] and [package bar; struct Common {};] *)
Definition foo_common : Node :=
  source_file [package_decl "foo"; struct_decl 1 "Common" []].
Definition bar_common : Node :=
  source_file [package_decl "bar"; struct_decl 1 "Common" []].

(** [package pkgB; enum Other { X, };] and [package pkgA; enum Mine { X, };] *)
Definition pkgB_enum : Node :=
  source_file [package_decl "pkgB";
               enum_decl 1 "Other" [enum_field_decl 1 "X"; tok "," 1 17 18]].
Definition pkgA_enum : Node :=
  source_file [package_decl "pkgA";
               enum_decl 1 "Mine" [enum_field_decl 1 "X"; tok "," 1 16 17]].

(** [package foo; struct S { Missing m; int n; };]: [Missing] is declared
    nowhere. *)
Definition foo_undeclared : Node :=
  source_file [package_decl "foo";
               struct_decl 1 "S" [field_decl 2 "Missing" "m";
                                  field_decl 3 "int" "n"]].

(** The sources of the trees above, and a parser that knows them. *)
Definition nl : string := String "010"%char "".

Definition foo_common_src : string :=
  "package foo;" +:+ nl +:+ "struct Common {};".
Definition bar_common_src : string :=
  "package bar;" +:+ nl +:+ "struct Common {};".
Definition pkgB_enum_src : string :=
  "package pkgB;" +:+ nl +:+ "enum Other { X, };".
Definition pkgA_enum_src : string :=
  "package pkgA;" +:+ nl +:+ "enum Mine { X, };".
Definition foo_undeclared_src : string :=
  "package foo;" +:+ nl +:+ "struct S {" +:+ nl +:+ "    Missing m;" +:+ nl
  +:+ "    int n;" +:+ nl +:+ "};".
Definition no_package_src : string := "struct Common {};".

Definition parse (source : string) : Node :=
  if bool_decide (source = foo_common_src) then foo_common
  else if bool_decide (source = bar_common_src) then bar_common
  else if bool_decide (source = pkgB_enum_src) then pkgB_enum
  else if bool_decide (source = pkgA_enum_src) then pkgA_enum
  else if bool_decide (source = foo_undeclared_src) then foo_undeclared
  else if bool_decide (source = no_package_src)
  then source_file [struct_decl 0 "Common" []]
  else source_file [].

Definition index_source := Indexer.index_source id parse.

End Samples.

(** ** Vocabulary of the statements *)

(** Enum [e] declares the value [ev] under the name [v]. *)
Definition declares (v : string) (e : Symbol) (ev : EnumValueSymbol) : Prop :=
  kind e = ENUM /\ ev ∈ enum_values e /\ ev_name ev = v.

(** The foo/bar workspace of the disambiguation test, [foo] indexed first. *)
Definition foo_bar_index : SymbolIndex :=
  Samples.index_source "/b.iop" Samples.bar_common_src
    (Samples.index_source "/a.iop" Samples.foo_common_src empty_index).

(** What the two files of that workspace declare. *)
Definition common_of (pkg filepath : string) : Symbol :=
  {| name := "Common"; qualified_name := pkg +:+ ".Common"; kind := STRUCT;
     file := filepath; range := mkRange 1 7 1 13; doc := None;
     package := pkg; parent_class := None; fields := []; enum_values := [];
     rpcs := []; typedef_source := None; ctype := None |}.

(** Two enums that both declare [X]; the one of [pkgB] is indexed first. *)
Definition two_enums_index : SymbolIndex :=
  Samples.index_source "/a.iop" Samples.pkgA_enum_src
    (Samples.index_source "/b.iop" Samples.pkgB_enum_src empty_index).


(** What the two files of that workspace declare. *)
Definition x_value : EnumValueSymbol :=
  {| ev_name := "X"; ev_value := None; ev_range := mkRange 1 4 1 5;
     ev_doc := None |}.

Definition enum_of (pkg name filepath : string) : Symbol :=
  {| name := name; qualified_name := pkg +:+ "." +:+ name; kind := ENUM;
     file := filepath; range := mkRange 1 5 1 (5 + String.length name);
     doc := None; package := pkg; parent_class := None; fields := [];
     enum_values := [x_value]; rpcs := []; typedef_source := None;
     ctype := None |}.

(** [package foo;], the doc comment of the test, [@ctype(documented__t)]
    and [struct Documented {};], the attribute being a sibling between
    the comment and the struct. *)
Definition documented_file : Node :=
  Samples.source_file
    [Samples.package_decl "foo";
     Samples.comment "/** A test struct. */" 1 0;
     Samples.leaf "attribute" "@ctype(documented__t)" 2 0 21;
     Samples.struct_decl 3 "Documented" []].

(** [package foo;] and an enum [Level] whose members [LOW] and [HIGH]
    each have a trailing doc comment on their row. *)
Definition level_file : Node :=
  Samples.source_file
    [Samples.package_decl "foo";
     Samples.enum_decl 1 "Level"
       [Samples.enum_field_decl 2 "LOW"; Samples.tok "," 2 7 8;
        Samples.comment "/**< low level */" 2 9;
        Samples.enum_field_decl 3 "HIGH"; Samples.tok "," 3 8 9;
        Samples.comment "/**< high level */" 3 10]].

(** The struct of [foo_undeclared] among its siblings. *)
Definition undeclared_struct : Focus :=
  mkFocus [Samples.package_decl "foo"]
    (Samples.struct_decl 1 "S"
       [Samples.field_decl 2 "Missing" "m"; Samples.field_decl 3 "int" "n"])
    [].

(** The kinds whose members are read by [_extract_fields]. *)
Definition has_data_fields (k : SymbolKind) : Prop :=
  k = STRUCT \/ k = UNION \/ k = CLASS \/ k = SNMP_OBJ \/ k = SNMP_TBL.


(** The reading of C4 that the code does not follow: every recorded type
    reference names a type declared in the workspace, that is, one that
    [resolve] finds from the package of the declaring symbol. *)
Definition type_refs_name_declared_types (idx : SymbolIndex) : Prop :=
  forall filepath syms sym fld t,
    by_file idx !! filepath = Some syms -> sym ∈ syms ->
    has_data_fields (kind sym) ->
    fld ∈ fields sym -> f_type_ref fld = Some t ->
    is_Some (Index.resolve idx t (Some (package sym))).

(** [foo_undeclared] indexed alone. *)
Definition undeclared_index : SymbolIndex :=
  Samples.index_source "/f.iop" Samples.foo_undeclared_src empty_index.


(** ** Views and the symbol set *)

(** The symbol set is what [by_file] holds: [s] is among the symbols of
    its own file. *)
Definition owned (idx : SymbolIndex) (s : Symbol) : Prop :=
  exists l, by_file idx !! file s = Some l /\ s ∈ l.

(** [s] occurs in a view, under any key. *)
Definition in_by_name (idx : SymbolIndex) (s : Symbol) : Prop :=
  exists n l, (n, l) ∈ by_name idx /\ s ∈ l.
Definition in_by_qualified_name (idx : SymbolIndex) (s : Symbol) : Prop :=
  exists q, by_qualified_name idx !! q = Some s.
Definition in_by_package (idx : SymbolIndex) (s : Symbol) : Prop :=
  exists p l, by_package idx !! p = Some l /\ s ∈ l.
Definition in_by_file (idx : SymbolIndex) (s : Symbol) : Prop :=
  exists f l, by_file idx !! f = Some l /\ s ∈ l.
Definition in_by_c_name (idx : SymbolIndex) (s : Symbol) : Prop :=
  exists k, by_c_name idx !! k = Some s.

Definition in_some_view (idx : SymbolIndex) (s : Symbol) : Prop :=
  in_by_name idx s \/ in_by_qualified_name idx s \/ in_by_package idx s
  \/ in_by_file idx s \/ in_by_c_name idx s.

(** [s] is found in every view under the keys derived from it, the
    override entry of [by_c_name] included when [s] has one. *)
Definition in_all_views (idx : SymbolIndex) (s : Symbol) : Prop :=
  (exists l, OD.get (name s) (by_name idx) = Some l /\ s ∈ l)
  /\ by_qualified_name idx !! qualified_name s = Some s
  /\ (exists l, by_package idx !! package s = Some l /\ s ∈ l)
  /\ (exists l, by_file idx !! file s = Some l /\ s ∈ l)
  /\ by_c_name idx !! CMapping.iop_type_to_c (qualified_name s) = Some s
  /\ (forall base, Index.ctype_base s = Some base ->
                   by_c_name idx !! base = Some s).

(** No view holds a symbol of [filepath], and the file has no bucket and
    no package. *)
Definition file_gone (filepath : string) (idx : SymbolIndex) : Prop :=
  by_file idx !! filepath = None
  /\ package_of_file idx !! filepath = None
  /\ forall s, file s = filepath -> ~ in_some_view idx s.

(** The index states of an indexer whose files all have a package name
    that is not empty: starting empty, a file is removed; the package of
    a file just removed is recorded, a non-empty name; a symbol is added
    to a file whose recorded package is its own.  These are the steps
    [index_source] and [index_file] are made of.  An empty name, the text
    of the identifier that stands for a missing one, is falsy under the
    [if pkg:] of [remove_file]; [indexer_state] below has those runs
    too. *)
Inductive reachable : SymbolIndex -> Prop :=
  | reach_empty : reachable empty_index
  | reach_remove idx filepath :
      reachable idx -> reachable (Index.remove_file filepath idx)
  | reach_package idx filepath p :
      reachable idx -> p <> "" ->
      reachable (Indexer.record_package filepath p
                   (Index.remove_file filepath idx))
  | reach_add idx s :
      reachable idx ->
      package_of_file idx !! file s = Some (package s) ->
      reachable (Index.add_symbol s idx).

(** The parser produced a package identifier that is not empty, or no
    package at all. *)
Definition named_package (root : Node) : Prop :=
  Extract.package_of_root root <> Some "".

(** What holds of every reachable index. *)
Record consistent (idx : SymbolIndex) : Prop := {
  names_nodup : NoDup (OD.keys (by_name idx));
  names_owned : forall n l s,
    (n, l) ∈ by_name idx -> s ∈ l -> name s = n /\ owned idx s;
  names_nonempty : forall n l, (n, l) ∈ by_name idx -> l <> [];
  qnames_owned : forall q s,
    by_qualified_name idx !! q = Some s -> qualified_name s = q /\ owned idx s;
  packages_owned : forall p l s,
    by_package idx !! p = Some l -> s ∈ l -> package s = p /\ owned idx s;
  packages_nonempty : forall p l, by_package idx !! p = Some l -> l <> [];
  files_own : forall f l s,
    by_file idx !! f = Some l -> s ∈ l ->
    file s = f /\ package_of_file idx !! f = Some (package s);
  files_nonempty : forall f l, by_file idx !! f = Some l -> l <> [];
  packages_named : forall f p, package_of_file idx !! f = Some p -> p <> "";
  c_names_owned : forall k s,
    by_c_name idx !! k = Some s ->
    (k = CMapping.iop_type_to_c (qualified_name s)
     \/ Index.ctype_base s = Some k)
    /\ owned idx s;
  owned_named : forall s,
    owned idx s -> exists l, OD.get (name s) (by_name idx) = Some l /\ s ∈ l;
  owned_packaged : forall s,
    owned idx s -> exists l, by_package idx !! package s = Some l /\ s ∈ l }.



(** ** Auxiliary functions of the proofs *)

(** What [remove_file] leaves of one bucket of [by_name]. *)
Definition purge_entry (filepath : string) (e : string * list Symbol)
  : option (string * list Symbol) :=
  let kept := Index.not_from filepath e.2 in
  if Index.is_nil kept then None else Some (e.1, kept).

(** [name_remove] seen entry by entry, for one name and for several. *)
Definition purge_name (filepath n : string) (e : string * list Symbol)
  : option (string * list Symbol) :=
  if decide (e.1 = n) then purge_entry filepath e else Some e.

Definition purge_names (filepath : string) (ns : list string)
  (e : string * list Symbol) : option (string * list Symbol) :=
  if decide (e.1 ∈ ns) then purge_entry filepath e else Some e.

(** The keys written for one symbol in [by_c_name]. *)
Definition c_keys (s : Symbol) : list string :=
  CMapping.iop_type_to_c (qualified_name s)
  :: match Index.ctype_base s with Some base => [base] | None => [] end.


(** What [package_remove] leaves of a bucket. *)
Definition purge_bucket (filepath : string) (l : list Symbol)
  : option (list Symbol) :=
  let kept := Index.not_from filepath l in
  if Index.is_nil kept then None else Some kept.

(** [add_symbol] for each symbol of a list, in order. *)
Definition add_all (syms : list Symbol) (idx : SymbolIndex) : SymbolIndex :=
  foldl (fun idx s => Index.add_symbol s idx) idx syms.


(** ** The claims that the code does not follow, as stated *)

(** C1 as stated: when the read fails, [index_file] returns and leaves
    the index as it was. *)
Definition read_failure_keeps_index (abspath : string -> string)
  (parse : string -> Node) (decodes : Node -> bool)
  (read : string -> option string)
  (filepath : string) (idx : SymbolIndex) : Prop :=
  read (abspath filepath) = None ->
  Indexer.index_file abspath parse decodes read filepath idx
  = Indexer.Returned idx.

(** Sequences of [add_symbol] and [remove_file] on a fresh index. *)
Inductive IndexOp :=
  | AddSymbol (s : Symbol)
  | RemoveFile (filepath : string).

Definition run_op (idx : SymbolIndex) (o : IndexOp) : SymbolIndex :=
  match o with
  | AddSymbol s => Index.add_symbol s idx
  | RemoveFile filepath => Index.remove_file filepath idx
  end.

Definition run (ops : list IndexOp) : SymbolIndex :=
  foldl run_op empty_index ops.

(** C2 as stated, for one sequence: a symbol found in some view is found
    in all of them, and removing a file leaves none of its symbols in any
    view. *)
Definition views_agree_after (ops : list IndexOp) : Prop :=
  (forall s, in_some_view (run ops) s -> in_all_views (run ops) s)
  /\ (forall filepath s,
         file s = filepath ->
         ~ in_some_view (run (ops ++ [RemoveFile filepath])) s).

(** A second declaration of [foo.Common] in the same file, one row down. *)
Definition common_again : Symbol :=
  {| name := "Common"; qualified_name := "foo.Common"; kind := STRUCT;
     file := "/a.iop"; range := mkRange 2 7 2 13; doc := None;
     package := "foo"; parent_class := None; fields := []; enum_values := [];
     rpcs := []; typedef_source := None; ctype := None |}.

(** [foo_common] indexed alone. *)
Definition foo_index : SymbolIndex :=
  Samples.index_source "/a.iop" Samples.foo_common_src empty_index.


(** [package ;] with an identifier node of empty text, then
    [struct Common {};]. *)
Definition unnamed_package_file : Node :=
  Samples.source_file
    [Samples.inner "package_definition" 0 0 9
       [Samples.tok "package" 0 0 7; Samples.leaf "identifier" "" 0 8 8;
        Samples.tok ";" 0 8 9];
     Samples.struct_decl 1 "Common" []].

(** [package ;] with an identifier node of empty text, then
    [enum Mine { X, };]. *)
Definition unnamed_enum_file : Node :=
  Samples.source_file
    [Samples.inner "package_definition" 0 0 9
       [Samples.tok "package" 0 0 7; Samples.leaf "identifier" "" 0 8 8;
        Samples.tok ";" 0 8 9];
     Samples.enum_decl 1 "Mine"
       [Samples.enum_field_decl 1 "X"; Samples.tok "," 1 16 17]].

(** The sources of these two trees, and a parser that recovers from the
    missing package name with an identifier of empty text. *)
Definition unnamed_src : string :=
  "package ;" +:+ Samples.nl +:+ "struct Common {};".
Definition unnamed_enum_src : string :=
  "package ;" +:+ Samples.nl +:+ "enum Mine { X, };".

Definition parse_recovering (source : string) : Node :=
  if bool_decide (source = unnamed_src) then unnamed_package_file
  else if bool_decide (source = unnamed_enum_src) then unnamed_enum_file
  else Samples.parse source.

(** [foo_common] indexed as [/a.iop], then the file without package name
    as [/b.iop]: two candidates for [Common], the second one of the
    package of empty name. *)
Definition foo_unnamed_index : SymbolIndex :=
  Indexer.index_source id parse_recovering "/b.iop" unnamed_src
    (Indexer.index_source id parse_recovering "/a.iop"
       Samples.foo_common_src empty_index).

(** The enum of [pkgB] indexed as [/b.iop], then the enum of the package
    of empty name as [/a.iop]: both declare [X]. *)
Definition enums_unnamed_index : SymbolIndex :=
  Indexer.index_source id parse_recovering "/a.iop" unnamed_enum_src
    (Indexer.index_source id parse_recovering "/b.iop"
       Samples.pkgB_enum_src empty_index).

(** C5 as stated, for a name with candidates in the current package: the
    answer is one of them. *)
Definition prefers_current_package (idx : SymbolIndex) (n p : string)
  : Prop :=
  let candidates := default [] (OD.get n (by_name idx)) in
  (exists c, c ∈ candidates /\ package c = p) ->
  exists c, Index.resolve idx n (Some p) = Some c /\ package c = p.

(** C6 as stated: when an enum of the current package declares the
    value, the answer is an enum of the current package. *)
Definition scans_current_package_first (idx : SymbolIndex) (v p : string)
  : Prop :=
  let own := default [] (by_package idx !! p) in
  (exists e ev, e ∈ own /\ declares v e ev) ->
  exists e ev,
    Index.resolve_enum_value idx v (Some p) = Some (e, ev) /\ e ∈ own.




(** The members of a declaration that [_extract_fields] reads: the
    [field] children of its block that have a [variable]. *)
Definition is_field_member (c : Focus) : bool :=
  has_type "field" (here c)
  && bool_decide (is_Some (_find_child (here c) "variable")).

Definition field_members (node : Node) : list Focus :=
  match _find_child node "data_structure_block" with
  | Some block => filter (fun c => is_field_member c = true) (child_foci block)
  | None => []
  end.

(** A directory [/w/] with three [.iop] files and one other file:
    [a.iop] holds [foo_common]; [b.iop] holds [bar_common], but the
    bytes of its package name are not valid UTF-8 (the tree shows [bar]
    in their place); [c.iop] holds [pkgA_enum]. *)
Definition walk_sample : list (string * list string) :=
  [("/w/", ["a.iop"; "notes.txt"; "b.iop"; "c.iop"])].

Definition read_sample (filepath : string) : option string :=
  if bool_decide (filepath = "/w/a.iop") then Some Samples.foo_common_src
  else if bool_decide (filepath = "/w/b.iop") then Some Samples.bar_common_src
  else if bool_decide (filepath = "/w/c.iop") then Some Samples.pkgA_enum_src
  else None.

Definition decodes_sample (n : Node) : bool :=
  negb (bool_decide (ntext n = "bar")).

(** The paths [index_workspace] hands to [index_file], in order. *)
Definition iop_paths (path_join : string -> string -> string)
  (walk : list (string * list string)) : list string :=
  concat
    (map (fun '(dirpath, filenames) =>
            map (path_join dirpath)
                (filter (fun fname => PyStr.endswith fname ".iop" = true)
                        filenames))
         walk).


(** [index_file] for each path in turn, until one raises. *)
Definition index_files (abspath : string -> string)
  (parse : string -> Node) (decodes : Node -> bool)
  (read : string -> option string) (paths : list string)
  (idx : SymbolIndex) : Indexer.Outcome :=
  foldl (fun o path =>
           Indexer.and_then o
             (Indexer.index_file abspath parse decodes read path))
        (Indexer.Returned idx) paths.

(** ** Nodes of a document as the server meets them *)

(** The [i]-th child of a located node, and the node reached from the
    root by a path of child positions. *)
Definition child_at (l : Server.Located) (i : nat) : option Server.Located :=
  let n := Server.lnode l in
  match children n !! i with
  | Some c =>
      Some (Server.mkLocated c
              (Server.mkFrame (ntype n) (ntext n) (is_named n)
                 (start_point n) (end_point n)
                 (take i (children n)) (drop (S i) (children n))
               :: Server.labove l))
  | None => None
  end.

Definition at_path (root : Node) (path : list nat) : option Server.Located :=
  foldl (fun o i => o ≫= fun l => child_at l i)
        (Some (Server.mkLocated root [])) path.

(** [package foo; struct S { Common c; int n; };], and in it the type and
    the name of the member [c] and the type of the member [n]. *)
Definition user_file : Node :=
  Samples.source_file
    [Samples.package_decl "foo";
     Samples.struct_decl 1 "S"
       [Samples.field_decl 2 "Common" "c"; Samples.field_decl 3 "int" "n"]].

Definition type_of_c : option Server.Located :=
  at_path user_file [1; 2; 1; 0; 0].
Definition name_of_c : option Server.Located :=
  at_path user_file [1; 2; 1; 0; 1].
Definition type_of_n : option Server.Located :=
  at_path user_file [1; 2; 2; 0; 0].

(** The block of [interface I { a in (int x) out void;
    b in Req out Res throw Err; };]. *)
Definition rpc_clause (t keyword : string) (row c1 : nat) (what : Node)
  : Node :=
  Samples.inner t row c1 (snd (end_point what))
    [Samples.tok keyword row c1 (c1 + String.length keyword); what].

Definition rpc_block_sample : Node :=
  Samples.inner "rpc_block" 1 12 2
    [Samples.tok "{" 1 12 13;
     Samples.inner "rpc" 2 4 30
       [Samples.leaf "identifier" "a" 2 4 5;
        rpc_clause "rpc_in" "in" 2 6
          (Samples.inner "argument_list" 2 9 16
             [Samples.tok "(" 2 9 10;
              Samples.inner "variable" 2 10 15
                [Samples.leaf "type" "int" 2 10 13;
                 Samples.leaf "identifier" "x" 2 14 15];
              Samples.tok ")" 2 15 16]);
        rpc_clause "rpc_out" "out" 2 17
          (Samples.leaf "identifier" "void" 2 21 25);
        Samples.tok ";" 2 25 26];
     Samples.inner "rpc" 3 4 34
       [Samples.leaf "identifier" "b" 3 4 5;
        rpc_clause "rpc_in" "in" 3 6 (Samples.leaf "identifier" "Req" 3 9 12);
        rpc_clause "rpc_out" "out" 3 13
          (Samples.leaf "identifier" "Res" 3 17 20);
        rpc_clause "rpc_throw" "throw" 3 21
          (Samples.leaf "identifier" "Err" 3 27 30);
        Samples.tok ";" 3 30 31];
     Samples.tok "}" 4 0 1].

(** ** Regular names

    A regular word is a lowercase letter followed by at least one
    lowercase letter or digit.  [snake_of] joins words with underscores;
    [camel_of] capitalises each word and concatenates them. *)
Definition regular_word (w : list ascii) : Prop :=
  match w with
  | c :: r =>
      PyStr.is_lower c = true /\ r <> []
      /\ Forall (fun x => PyStr.is_lower_or_digit x = true) r
  | [] => False
  end.

Definition cap (w : list ascii) : list ascii :=
  match w with
  | c :: r => PyStr.upper_char c :: r
  | [] => []
  end.

Fixpoint snake_chars (words : list (list ascii)) : list ascii :=
  match words with
  | [] => []
  | [w] => w
  | w :: r => w ++ "_"%char :: snake_chars r
  end.

Definition snake_of (words : list (list ascii)) : string :=
  PyStr.str (snake_chars words).

Definition camel_of (words : list (list ascii)) : string :=
  PyStr.str (concat (map cap words)).

(** No two capitals in a row. *)
Fixpoint no_cap_pair (l : list ascii) : bool :=
  match l with
  | a :: (b :: _) as tl =>
      negb (PyStr.is_upper a && PyStr.is_upper b) && no_cap_pair tl
  | _ => true
  end.

(** * Properties *)

(** ** Name mangler *)

Section mangler.
Import PyStr CMapping.

Lemma break_on_absent sep l : sep ∉ l -> break_on sep l = None.
Proof.
  induction l as [|c r IH]; simpl; [done|].
  intros Hnot. destruct (ascii_dec c sep) as [->|_].
  - exfalso. apply Hnot. left.
  - rewrite IH; [done|]. intros Hin. apply Hnot. by right.
Qed.

Lemma rsplit1_no_sep sep s : contains sep s = false -> rsplit1 sep s = None.
Proof.
  unfold contains, rsplit1. intros Hc.
  apply bool_decide_eq_false in Hc.
  rewrite break_on_absent; [done|].
  intros Hin. apply Hc.
  apply list_elem_of_In, in_rev. by apply list_elem_of_In.
Qed.

(** C8.  The stated vectors of the name mangler, and: a qualified name
    without a package portion (no dot) maps to the snake-cased type name
    alone. *)
Theorem mangler_vectors :
  camelcase_to_c "HTTPCode" = "http_code"
  /\ camelcase_to_c "MyStructA" = "my_struct_a"
  /\ c_to_camelcase "my_struct_a" = "MyStructA"
  /\ iop_type_to_c "tstiop.MyStructA" = "tstiop__my_struct_a"
  /\ iop_type_to_c "test.dso.ClassDso" = "test__dso__class_dso"
  /\ (forall type_name,
        contains "."%char type_name = false ->
        iop_type_to_c type_name = camelcase_to_c type_name).
Proof.
  repeat split; try by vm_compute.
  intros type_name Hdot. unfold iop_type_to_c.
  by rewrite rsplit1_no_sep.
Qed.

Lemma mangler_vectors_witness :
  contains "."%char "ClassDso" = false
  /\ iop_type_to_c "ClassDso" = camelcase_to_c "ClassDso".
Proof.
  split; [reflexivity|].
  apply (proj2 (proj2 (proj2 (proj2 (proj2 mangler_vectors))))).
  reflexivity.
Defined.

End mangler.

(** ** Name resolution *)

Section resolution.
Import PyStr Index.

Lemma truthy_nonempty p : p <> "" -> truthy p = true.
Proof.
  intros Hp. unfold truthy. by rewrite bool_decide_eq_false_2.
Qed.

Lemma find_in_package_first p earlier c later :
  package c = p ->
  Forall (fun x => package x <> p) earlier ->
  find_in_package p (earlier ++ c :: later) = Some c.
Proof.
  intros Hc Hearlier. unfold find_in_package.
  induction Hearlier as [|x l Hx _ IH]; simpl.
  - by rewrite bool_decide_eq_true_2.
  - by rewrite bool_decide_eq_false_2.
Qed.

Lemma find_in_package_none p l :
  (forall c, c ∈ l -> package c <> p) -> find_in_package p l = None.
Proof.
  unfold find_in_package. induction l as [|x l IH]; simpl; [done|].
  intros Hall. rewrite bool_decide_eq_false_2.
  - apply IH. intros c Hc. apply Hall. by right.
  - apply Hall. left.
Qed.

(** C5, as the code has it.  For a name without a dot that is not a
    builtin: no candidate gives absent; one candidate gives that symbol;
    several give the first candidate of the current package when that
    package has a name that is not empty and a candidate, and the first
    candidate in insertion order otherwise, also when the current package
    is absent or is the empty name.  With [foo] and [bar] both declaring
    [Common], [resolve "Common" "bar"] is the definition of [bar]. *)
Theorem resolve_simple_name :
  (forall (idx : SymbolIndex) (n : string) (cp : option string),
      contains "."%char n = false ->
      is_builtin n = false ->
      let candidates := default [] (OD.get n (by_name idx)) in
      (candidates = [] -> resolve idx n cp = None)
      /\ (forall c, candidates = [c] -> resolve idx n cp = Some c)
      /\ (forall c0 c1 more, candidates = c0 :: c1 :: more ->
            (forall p earlier c later,
                cp = Some p -> p <> "" ->
                candidates = earlier ++ c :: later ->
                package c = p ->
                Forall (fun x => package x <> p) earlier ->
                resolve idx n cp = Some c)
            /\ ((forall c, c ∈ candidates -> Some (package c) <> cp) ->
                resolve idx n cp = Some c0)
            /\ (cp = None \/ cp = Some "" -> resolve idx n cp = Some c0)))
  /\ (OD.get "Common" (by_name foo_bar_index)
      = Some [common_of "foo" "/a.iop"; common_of "bar" "/b.iop"]
      /\ resolve foo_bar_index "Common" (Some "bar")
         = Some (common_of "bar" "/b.iop")).
Proof.
  split.
  - intros idx n cp Hdot Hbuiltin candidates.
    unfold resolve. rewrite Hbuiltin, Hdot. fold candidates.
    clearbody candidates.
    split; [by intros ->|].
    split; [by intros c ->|].
    intros c0 c1 more ->. split; [|split].
    + intros p earlier c later -> Hp Hsplit Hc Hearlier.
      rewrite truthy_nonempty by done.
      by rewrite Hsplit, find_in_package_first.
    + intros Hnone. destruct cp as [p|]; [|done].
      destruct (truthy p); [|done].
      rewrite find_in_package_none; [done|].
      intros c Hc Hp. apply (Hnone c Hc). by rewrite Hp.
    + by intros [->| ->].
  - split; by vm_compute.
Qed.

Lemma resolve_simple_name_witness :
  contains "."%char "Common" = false
  /\ is_builtin "Common" = false
  /\ "bar" <> ""
  /\ resolve foo_bar_index "Common" (Some "bar")
     = Some (common_of "bar" "/b.iop").
Proof.
  split; [reflexivity|]. split; [reflexivity|]. split; [discriminate|].
  refine (proj1 (proj2 (proj2 (proj1 resolve_simple_name
            foo_bar_index "Common" (Some "bar") eq_refl eq_refl))
            (common_of "foo" "/a.iop") (common_of "bar" "/b.iop") [] _)
            "bar" [common_of "foo" "/a.iop"] (common_of "bar" "/b.iop") []
            eq_refl _ _ eq_refl _).
  - by vm_compute.
  - discriminate.
  - by vm_compute.
  - constructor; [discriminate|constructor].
Defined.

(** C5, counterexample.  [package foo; struct Common {};] is indexed,
    then a file whose package name is empty and that declares [Common]
    too.  Asked from the package of empty name, [resolve] answers with
    the [Common] of [foo], the first candidate, although the second
    candidate is of the current package: the empty name is falsy under
    [if current_package:]. *)
Lemma resolve_in_unnamed_package :
  ~ prefers_current_package foo_unnamed_index "Common" "".
Proof.
  intros Hclaim. destruct Hclaim as (c & Hc & Hp).
  - exists (common_of "" "/b.iop"). split; [|done].
    vm_compute. right. left.
  - vm_compute in Hc. injection Hc as <-. discriminate Hp.
Qed.

Lemma find_value_declares v e ev :
  kind e = ENUM -> find_value v e = Some ev -> declares v e ev.
Proof.
  intros Hkind Hfind. apply find_some in Hfind as [Hin Hname].
  apply bool_decide_eq_true in Hname.
  split; [done|]. split; [by apply list_elem_of_In|done].
Qed.

Lemma find_value_none v e ev :
  find_value v e = None -> ev ∈ enum_values e -> ev_name ev <> v.
Proof.
  intros Hfind Hin. apply list_elem_of_In in Hin.
  pose proof (find_none _ _ Hfind ev Hin) as Hf.
  by apply bool_decide_eq_false in Hf.
Qed.

Lemma scan_enums_sound v syms e ev :
  scan_enums v syms = Some (e, ev) -> e ∈ syms /\ declares v e ev.
Proof.
  induction syms as [|s r IH]; simpl; [done|].
  case_bool_decide as Hk.
  - destruct (find_value v s) as [ev'|] eqn:Hfind.
    + intros [= -> ->]. split; [left|by apply find_value_declares].
    + intros Hr. destruct (IH Hr). split; [by right|done].
  - intros Hr. destruct (IH Hr). split; [by right|done].
Qed.

Lemma scan_enums_none v syms :
  scan_enums v syms = None <->
  (forall e ev, e ∈ syms -> ~ declares v e ev).
Proof.
  induction syms as [|s r IH]; simpl.
  - split; [|done]. intros _ e ev Hin. by apply not_elem_of_nil in Hin.
  - case_bool_decide as Hk.
    + destruct (find_value v s) as [ev'|] eqn:Hfind.
      * split; [done|]. intros Hall. exfalso.
        apply (Hall s ev'); [left|by apply find_value_declares].
      * rewrite IH. split.
        -- intros Hall e ev [->|Hin]%elem_of_cons; [|by apply Hall].
           intros (_ & Hev & Hname). by eapply find_value_none.
        -- intros Hall e ev Hin. apply Hall. by right.
    + rewrite IH. split.
      * intros Hall e ev [->|Hin]%elem_of_cons; [|by apply Hall].
        by intros (Hkind & _).
      * intros Hall e ev Hin. apply Hall. by right.
Qed.

Lemma scan_buckets_sound v buckets e ev :
  scan_buckets v buckets = Some (e, ev) ->
  (exists syms, syms ∈ buckets /\ e ∈ syms) /\ declares v e ev.
Proof.
  induction buckets as [|b r IH]; simpl; [done|].
  destruct (scan_enums v b) as [[e' ev']|] eqn:Hscan.
  - intros [= -> ->]. apply scan_enums_sound in Hscan as [Hin Hdecl].
    split; [|done]. exists b. split; [left|done].
  - intros Hr. destruct (IH Hr) as [(syms & Hsyms & Hin) Hdecl].
    split; [|done]. exists syms. split; [by right|done].
Qed.

Lemma scan_buckets_none v buckets :
  scan_buckets v buckets = None <->
  (forall syms e ev, syms ∈ buckets -> e ∈ syms -> ~ declares v e ev).
Proof.
  induction buckets as [|b r IH]; simpl.
  - split; [|done]. intros _ syms e ev Hin. by apply not_elem_of_nil in Hin.
  - destruct (scan_enums v b) as [[e' ev']|] eqn:Hscan.
    + split; [done|]. intros Hall. exfalso.
      apply scan_enums_sound in Hscan as [Hin Hdecl].
      apply (Hall b e' ev'); [left|done|done].
    + rewrite IH. split.
      * intros Hall syms e ev [->|Hin]%elem_of_cons; [|by apply Hall].
        by apply scan_enums_none.
      * intros Hall syms e ev Hin. apply Hall. by right.
Qed.

(** C6, as the code has it.  For a current package whose name is not
    empty, [resolve_enum_value] answers from the enums of that package
    whenever one of them declares the value, whatever the order of the
    workspace-wide view; only when none does, it answers from the scan of
    all enums, and is absent exactly when no enum declares the value.
    When the current package is absent or is the empty name, the answer
    is that of the scan of all enums.  A result is always an enum
    together with one of its values of that name.  With two enums
    declaring [X], the one of [pkgB] indexed first,
    [resolve_enum_value "X" "pkgA"] is the enum of [pkgA]. *)
Theorem resolve_enum_value_package_first :
  (forall (idx : SymbolIndex) (v p : string),
      p <> "" ->
      let own := default [] (by_package idx !! p) in
      let everywhere := OD.values (by_name idx) in
      ((exists e ev, e ∈ own /\ declares v e ev) ->
       exists e ev,
         resolve_enum_value idx v (Some p) = Some (e, ev)
         /\ e ∈ own /\ declares v e ev)
      /\ ((forall e ev, e ∈ own -> ~ declares v e ev) ->
          resolve_enum_value idx v (Some p) = scan_buckets v everywhere
          /\ (forall e ev,
                 resolve_enum_value idx v (Some p) = Some (e, ev) ->
                 (exists syms, syms ∈ everywhere /\ e ∈ syms)
                 /\ declares v e ev)
          /\ (resolve_enum_value idx v (Some p) = None <->
              forall syms e ev,
                syms ∈ everywhere -> e ∈ syms -> ~ declares v e ev)))
  /\ (forall (idx : SymbolIndex) (v : string) (cp : option string),
        cp = None \/ cp = Some "" ->
        resolve_enum_value idx v cp
        = scan_buckets v (OD.values (by_name idx)))
  /\ (OD.values (by_name two_enums_index)
      = [[enum_of "pkgB" "Other" "/b.iop"]; [enum_of "pkgA" "Mine" "/a.iop"]]
      /\ resolve_enum_value two_enums_index "X" (Some "pkgA")
         = Some (enum_of "pkgA" "Mine" "/a.iop", x_value)).
Proof.
  split.
  - intros idx v p Hp own everywhere. unfold resolve_enum_value.
    rewrite truthy_nonempty by done. fold own. fold everywhere. split.
    + intros (e & ev & Hin & Hdecl).
      destruct (scan_enums v own) as [[e' ev']|] eqn:Hscan.
      * exists e', ev'. apply scan_enums_sound in Hscan as [? ?]. done.
      * exfalso. by eapply scan_enums_none.
    + intros Hnone. apply scan_enums_none in Hnone. rewrite Hnone.
      split; [done|]. split.
      * intros e ev. apply scan_buckets_sound.
      * apply scan_buckets_none.
  - split; [by intros idx v cp [->| ->]|]. split; by vm_compute.
Qed.

Lemma resolve_enum_value_package_first_witness :
  "pkgA" <> ""
  /\ (exists e ev,
        resolve_enum_value two_enums_index "X" (Some "pkgA") = Some (e, ev)
        /\ e ∈ default [] (by_package two_enums_index !! "pkgA")
        /\ declares "X" e ev)
  /\ resolve_enum_value two_enums_index "X" (Some "")
     = scan_buckets "X" (OD.values (by_name two_enums_index)).
Proof.
  split; [discriminate|]. split.
  - refine (proj1 (proj1 resolve_enum_value_package_first
                     two_enums_index "X" "pkgA" _) _).
    + discriminate.
    + exists (enum_of "pkgA" "Mine" "/a.iop"), x_value.
      split; [vm_compute; left|].
      split; [reflexivity|]. split; [left|reflexivity].
  - exact (proj1 (proj2 resolve_enum_value_package_first)
             two_enums_index "X" (Some "") (or_intror eq_refl)).
Defined.

(** C6, counterexample.  The enum [Other] of [pkgB] is indexed, then an
    enum [Mine] in a file whose package name is empty; both declare [X].
    Asked from the package of empty name, [resolve_enum_value] answers
    with the enum of [pkgB]: the enums of the current package are not
    scanned first, the empty name being falsy under
    [if current_package:]. *)
Lemma resolve_enum_value_in_unnamed_package :
  ~ scans_current_package_first enums_unnamed_index "X" "".
Proof.
  intros Hclaim. destruct Hclaim as (e & ev & He & Hown).
  - exists (enum_of "" "Mine" "/a.iop"), x_value.
    split; [vm_compute; left|].
    split; [reflexivity|]. split; [left|reflexivity].
  - vm_compute in He. injection He as <- <-.
    vm_compute in Hown.
    apply list_elem_of_singleton in Hown. discriminate Hown.
Qed.

End resolution.

(** ** Doc comments *)

Section doc_comments.
Import PyStr DocComments Extract.

Lemma chars_str l : chars (str l) = l.
Proof. apply list_ascii_of_string_of_list_ascii. Qed.

Lemma str_chars s : str (chars s) = s.
Proof. apply string_of_list_ascii_of_string. Qed.

Lemma chars_append a b : chars (a +:+ b) = chars a ++ chars b.
Proof. induction a as [|c a IH]; [done|]. simpl. by rewrite <- IH. Qed.

Lemma length_chars s : length (chars s) = String.length s.
Proof. induction s as [|c s IH]; [done|]. simpl. by rewrite <- IH. Qed.

Lemma endswith_append base suffix p :
  endswith (base +:+ suffix) p
  = list_prefix (rev (chars p)) (rev (chars suffix) ++ rev (chars base)).
Proof. unfold endswith. by rewrite chars_append, rev_app_distr. Qed.

Lemma drop_back_append base suffix :
  drop_back (String.length suffix) (base +:+ suffix) = base.
Proof.
  unfold drop_back. rewrite chars_append, <- !length_chars, chars_append.
  rewrite length_app. replace (_ + _ - _) with (length (chars base)) by lia.
  by rewrite take_app_length, str_chars.
Qed.

Lemma endswith_appended base suffix : endswith (base +:+ suffix) suffix = true.
Proof.
  rewrite endswith_append. induction (rev (chars suffix)) as [|c r IH]; [done|].
  cbn [list_prefix app]. by destruct (ascii_dec c c).
Qed.

Lemma startswith_star_space s :
  startswith s "*" = false -> startswith s "* " = false.
Proof.
  unfold startswith. destruct s as [|c s]; [done|]. cbn [String.prefix].
  destruct (ascii_dec "*" c); [by destruct s|done].
Qed.

Lemma startswith_empty s : startswith s "" = true.
Proof. by destruct s. Qed.

(** The three cases of a line of a doc comment, once trimmed. *)
Lemma clean_line_star_space line rest :
  strip line = "* " +:+ rest -> clean_line line = rest.
Proof.
  intros Hline. unfold clean_line. rewrite Hline.
  change ("* " +:+ rest) with (String "*" (String " " rest)).
  change (startswith (String "*" (String " " rest)) "* ")
    with (startswith rest "").
  rewrite startswith_empty.
  cbn [drop_front chars list_ascii_of_string drop]. apply str_chars.
Qed.

Lemma clean_line_star line rest :
  strip line = "*" +:+ rest -> startswith rest " " = false ->
  clean_line line = rest.
Proof.
  intros Hline Hrest. unfold clean_line. rewrite Hline.
  change ("*" +:+ rest) with (String "*" rest).
  change (startswith (String "*" rest) "* ") with (startswith rest " ").
  rewrite Hrest.
  change (startswith (String "*" rest) "*") with (startswith rest "").
  rewrite startswith_empty.
  cbn [drop_front chars list_ascii_of_string drop]. apply str_chars.
Qed.

Lemma clean_line_plain line :
  startswith (strip line) "*" = false -> clean_line line = strip line.
Proof.
  intros Hline. unfold clean_line.
  by rewrite (startswith_star_space _ Hline), Hline.
Qed.

Lemma clean_doc_comment_lines body :
  _clean_doc_comment ("/**" +:+ body +:+ "*/")
  = strip (join Samples.nl (map clean_line (split "010"%char body))).
Proof.
  unfold _clean_doc_comment.
  change (drop_front 3 ("/**" +:+ body +:+ "*/"))
    with (str (chars (body +:+ "*/"))).
  rewrite str_chars, endswith_appended.
  by rewrite (drop_back_append body "*/" : drop_back 2 _ = _).
Qed.

Lemma lstrip_by_snoc f l c :
  f c = false -> lstrip_by f (l ++ [c]) = lstrip_by f l ++ [c].
Proof.
  intros Hc. induction l as [|x l IH]; simpl; [by rewrite Hc|].
  by destruct (f x).
Qed.

Lemma lstrip_by_idem f l : lstrip_by f (lstrip_by f l) = lstrip_by f l.
Proof.
  induction l as [|x l IH]; simpl; [done|].
  destruct (f x) eqn:Hx; [done|]. simpl. by rewrite Hx.
Qed.

Lemma rstrip_by_cons f c l :
  f c = false -> rstrip_by f (c :: l) = c :: rstrip_by f l.
Proof.
  intros Hc. unfold rstrip_by. simpl.
  rewrite lstrip_by_snoc by done. by rewrite rev_app_distr.
Qed.

Lemma rstrip_by_idem f l : rstrip_by f (rstrip_by f l) = rstrip_by f l.
Proof.
  unfold rstrip_by. by rewrite rev_involutive, lstrip_by_idem.
Qed.

Lemma lstrip_rstrip_stable f l :
  lstrip_by f l = l -> lstrip_by f (rstrip_by f l) = rstrip_by f l.
Proof.
  destruct l as [|c l]; [done|]. simpl.
  destruct (f c) eqn:Hc.
  - intros Hl. exfalso.
    assert (Hlen : length (lstrip_by f l) <= length l).
    { clear. induction l as [|x l IH]; simpl; [lia|].
      destruct (f x); simpl; lia. }
    rewrite Hl in Hlen. simpl in Hlen. lia.
  - intros _. rewrite rstrip_by_cons by done. simpl. by rewrite Hc.
Qed.

Lemma strip_idem s : strip (strip s) = strip s.
Proof.
  unfold strip. rewrite chars_str.
  rewrite lstrip_rstrip_stable by apply lstrip_by_idem.
  by rewrite rstrip_by_idem.
Qed.

Lemma skip_attributes_found nearest c farther :
  Forall (fun n => is_named n = true -> ntype n = "attribute") nearest ->
  is_named c = true -> ntype c <> "attribute" ->
  skip_attributes
    (filter (fun n => is_named n = true) (nearest ++ c :: farther))
  = Some c.
Proof.
  intros Hnearest Hnamed Hc.
  induction Hnearest as [|x l Hx _ IH]; simpl.
  - rewrite filter_cons_True by done. simpl.
    unfold has_type. by rewrite bool_decide_eq_false_2.
  - destruct (is_named x) eqn:Hnx.
    + rewrite filter_cons_True by done. simpl.
      unfold has_type at 1. by rewrite bool_decide_eq_true_2 by auto.
    + by rewrite filter_cons_False by (rewrite Hnx; done).
Qed.

Lemma prev_named_siblings_split earlier c between here_ after_ :
  prev_named_siblings (mkFocus (earlier ++ c :: between) here_ after_)
  = filter (fun n => is_named n = true) (rev between ++ c :: rev earlier).
Proof.
  unfold prev_named_siblings. simpl.
  rewrite rev_app_distr. simpl. by rewrite <- app_assoc.
Qed.

Lemma scan_trailing_found node between c later :
  Forall (fun n => is_trailing_doc_of node n = false
                   /\ fst (start_point n) <= fst (end_point node)) between ->
  is_trailing_doc_of node c = true ->
  scan_trailing node (between ++ c :: later)
  = Some (_clean_trailing_doc_comment (ntext c)).
Proof.
  intros Hbetween Hc. induction Hbetween as [|x l [Hx Hrow] _ IH]; simpl.
  - by rewrite Hc.
  - rewrite Hx. destruct (Nat.ltb_spec (fst (end_point node))
                            (fst (start_point x))); [lia|done].
Qed.

Lemma next_named_sibling_cases node between c later :
  Forall (fun n => is_trailing_doc_of node n = false
                   /\ fst (start_point n) <= fst (end_point node)) between ->
  is_named c = true ->
  find (fun n => is_named n) (between ++ c :: later) = Some c
  \/ exists sibling,
      find (fun n => is_named n) (between ++ c :: later) = Some sibling
      /\ is_trailing_doc_of node sibling = false.
Proof.
  intros Hbetween Hc. induction Hbetween as [|x l [Hx Hrow] _ IH]; simpl.
  - left. by rewrite Hc.
  - destruct (is_named x); [|done]. right. by exists x.
Qed.

(** C9.  A comment that opens with the doc marker and neither with the
    double marker nor with the trailing marker, and is the nearest named
    sibling before a declaration once attributes are skipped, gives the
    declaration its doc: the comment without delimiters and leading stars,
    trimmed.  A comment opening with the double or the trailing marker
    in that place gives no doc.  A trailing-marker comment that starts on
    the row where a member ends, with nothing but same-row siblings in
    between, gives its trimmed text.  The doc of [/** body */] is made
    of the lines of [body], each trimmed and then without its leading
    [* ], or else without its leading [*], joined again and trimmed. *)
Theorem doc_comment_extraction :
  (forall earlier c between here_ after_,
      is_named c = true -> ntype c = "comment" ->
      Forall (fun n => is_named n = true -> ntype n = "attribute") between ->
      let f := mkFocus (earlier ++ c :: between) here_ after_ in
      (startswith (ntext c) "/**" = true ->
       startswith (ntext c) "/***" = false ->
       startswith (ntext c) "/**<" = false ->
       get_doc_comment f = Some (_clean_doc_comment (ntext c)))
      /\ (startswith (ntext c) "/***" = true
          \/ startswith (ntext c) "/**<" = true ->
          get_doc_comment f = None))
  /\ (forall before_ here_ between c later,
        is_named c = true -> ntype c = "comment" ->
        startswith (ntext c) "/**<" = true ->
        fst (start_point c) = fst (end_point here_) ->
        Forall (fun n => is_trailing_doc_of here_ n = false
                         /\ fst (start_point n) <= fst (end_point here_))
               between ->
        get_trailing_doc_comment (mkFocus before_ here_ (between ++ c :: later))
        = Some (_clean_trailing_doc_comment (ntext c)))
  /\ (forall text,
        strip (_clean_doc_comment text) = _clean_doc_comment text
        /\ strip (_clean_trailing_doc_comment text)
           = _clean_trailing_doc_comment text)
  /\ _clean_doc_comment "/** A test struct. */" = "A test struct."
  /\ map doc (symbols_of_root documented_file "/d.iop" "foo")
     = [Some "A test struct."]
  /\ map (fun e => map ev_doc (enum_values e))
         (symbols_of_root level_file "/l.iop" "foo")
     = [[Some "low level"; Some "high level"]]
  /\ (forall body,
        _clean_doc_comment ("/**" +:+ body +:+ "*/")
        = strip (join Samples.nl (map clean_line (split "010"%char body))))
  /\ (forall line rest,
        strip line = "* " +:+ rest -> clean_line line = rest)
  /\ (forall line rest,
        strip line = "*" +:+ rest -> startswith rest " " = false ->
        clean_line line = rest)
  /\ (forall line,
        startswith (strip line) "*" = false -> clean_line line = strip line)
  /\ _clean_doc_comment
       ("/**" +:+ Samples.nl +:+ " * First line." +:+ Samples.nl
        +:+ " *Second line." +:+ Samples.nl +:+ " *" +:+ Samples.nl
        +:+ "   Third line.  " +:+ Samples.nl +:+ " */")
     = "First line." +:+ Samples.nl +:+ "Second line." +:+ Samples.nl
       +:+ Samples.nl +:+ "Third line.".
Proof.
  split; [|split; [|split]].
  - intros earlier c between here_ after_ Hnamed Hcomment Hbetween f.
    assert (Hcand : skip_attributes (prev_named_siblings f) = Some c).
    { unfold f. rewrite prev_named_siblings_split.
      apply skip_attributes_found; [by apply Forall_rev|done|].
      by rewrite Hcomment. }
    unfold get_doc_comment. rewrite Hcand.
    unfold has_type. rewrite (bool_decide_eq_true_2 _ Hcomment). simpl.
    unfold is_doc_text. split.
    + by intros -> -> ->.
    + intros [->| ->]; [|by rewrite andb_false_r].
      by rewrite andb_false_r.
  - intros before_ here_ between c later Hnamed Hcomment Hmark Hrow Hbetween.
    assert (Hc : is_trailing_doc_of here_ c = true).
    { unfold is_trailing_doc_of, has_type.
      rewrite (bool_decide_eq_true_2 _ Hcomment), Hmark. simpl.
      by apply bool_decide_eq_true_2. }
    unfold get_trailing_doc_comment, next_named_sibling. simpl.
    destruct (next_named_sibling_cases here_ between c later Hbetween Hnamed)
      as [-> | (sibling & -> & ->)].
    + by rewrite Hc.
    + by apply scan_trailing_found.
  - intros text. unfold _clean_doc_comment, _clean_trailing_doc_comment.
    split; apply strip_idem.
  - split; [by vm_compute|]. split; [by vm_compute|].
    split; [by vm_compute|].
    split; [apply clean_doc_comment_lines|].
    split; [apply clean_line_star_space|].
    split; [apply clean_line_star|].
    split; [apply clean_line_plain|]. by vm_compute.
Qed.

Lemma doc_comment_extraction_witness :
  get_doc_comment
    (mkFocus ([Samples.package_decl "foo"]
              ++ Samples.comment "/** A test struct. */" 1 0
              :: [Samples.leaf "attribute" "@ctype(documented__t)" 2 0 21])
       (Samples.struct_decl 3 "Documented" []) [])
  = Some "A test struct."
  /\ get_trailing_doc_comment
       (mkFocus [] (Samples.enum_field_decl 2 "LOW")
          ([Samples.tok "," 2 7 8]
           ++ Samples.comment "/**< low level */" 2 9 :: []))
     = Some "low level"
  /\ (strip "   * Second line. " = "* " +:+ "Second line."
      /\ clean_line "   * Second line. " = "Second line.")
  /\ (strip " *Bare. " = "*" +:+ "Bare."
      /\ startswith "Bare." " " = false
      /\ clean_line " *Bare. " = "Bare.")
  /\ (startswith (strip "  No star. ") "*" = false
      /\ clean_line "  No star. " = strip "  No star. ").
Proof.
  split; [|split; [|split; [|split]]].
  - refine (proj1 (proj1 doc_comment_extraction
                     [Samples.package_decl "foo"]
                     (Samples.comment "/** A test struct. */" 1 0)
                     [Samples.leaf "attribute" "@ctype(documented__t)" 2 0 21]
                     (Samples.struct_decl 3 "Documented" []) []
                     eq_refl eq_refl _) eq_refl eq_refl eq_refl).
    constructor; [reflexivity|constructor].
  - refine (proj1 (proj2 doc_comment_extraction)
              [] (Samples.enum_field_decl 2 "LOW") [Samples.tok "," 2 7 8]
              (Samples.comment "/**< low level */" 2 9) []
              eq_refl eq_refl eq_refl eq_refl _).
    constructor; [|constructor]. split; [reflexivity|vm_compute; lia].
  - split; [reflexivity|].
    exact (proj1 (proj2 (proj2 (proj2 (proj2 (proj2 (proj2 (proj2
             doc_comment_extraction)))))))
             "   * Second line. " "Second line." eq_refl).
  - split; [reflexivity|]. split; [reflexivity|].
    exact (proj1 (proj2 (proj2 (proj2 (proj2 (proj2 (proj2 (proj2 (proj2
             doc_comment_extraction))))))))
             " *Bare. " "Bare." eq_refl eq_refl).
  - split; [reflexivity|].
    exact (proj1 (proj2 (proj2 (proj2 (proj2 (proj2 (proj2 (proj2 (proj2
             (proj2 doc_comment_extraction)))))))))
             "  No star. " eq_refl).
Defined.

End doc_comments.

(** ** Field extraction *)

Section fields.
Import PyStr Index Extract.

Lemma type_ref_of_spec o t :
  type_ref_of o = Some t <-> o = Some t /\ t <> "" /\ t ∉ BUILTIN_TYPES.
Proof.
  unfold type_ref_of, truthy, is_builtin.
  destruct o as [t'|]; [|by split; [|intros [? _]]].
  repeat case_bool_decide; simpl; split;
    try done; try (intros [= ->]; done); intros ([= ->] & ? & ?); done.
Qed.

Lemma fields_of_elem fld cs :
  fld ∈ fields_of cs ->
  exists child var,
    child ∈ cs /\ ntype (here child) = "field"
    /\ _find_child (here child) "variable" = Some var
    /\ fld = field_of child var.
Proof.
  induction cs as [|c r IH]; simpl; [by intros ?%not_elem_of_nil|].
  unfold has_type. case_bool_decide as Ht.
  - destruct (_find_child (here c) "variable") as [var|] eqn:Hvar.
    + intros [->|Hin]%elem_of_cons.
      * exists c, var. split; [left|done].
      * destruct (IH Hin) as (child & var' & ? & ?).
        exists child, var'. split; [by right|done].
    + intros Hin. destruct (IH Hin) as (child & var' & ? & ?).
      exists child, var'. split; [by right|done].
  - intros Hin. destruct (IH Hin) as (child & var' & ? & ?).
    exists child, var'. split; [by right|done].
Qed.

Lemma extract_symbol_fields f filepath pkg sym :
  _extract_symbol f filepath pkg = Some sym ->
  has_data_fields (kind sym) ->
  fields sym = block_fields (here f).
Proof.
  unfold _extract_symbol, has_data_fields.
  destruct (node_kind (here f)) as [k|]; [|done].
  destruct (name_node (here f)) as [id_node|]; [|done].
  intros [= <-]. simpl.
  destruct k; try done; intros [?|[?|[?|[?|?]]]]; done.
Qed.

(** The fields, member by member. *)
Lemma fields_of_members cs :
  Forall2 (fun child fld =>
             exists var, _find_child (here child) "variable" = Some var
                         /\ fld = field_of child var)
          (filter (fun c => is_field_member c = true) cs) (fields_of cs).
Proof.
  induction cs as [|c r IH]; [constructor|].
  cbn [fields_of]. destruct (has_type "field" (here c)) eqn:Ht.
  - destruct (_find_child (here c) "variable") as [var|] eqn:Hvar.
    + rewrite filter_cons_True.
      * constructor; [by exists var|done].
      * unfold is_field_member. rewrite Ht, Hvar.
        by rewrite bool_decide_eq_true_2 by done.
    + rewrite filter_cons_False; [done|].
      unfold is_field_member. rewrite Ht, Hvar.
      rewrite bool_decide_eq_false_2; [done|]. by intros [? ?].
  - rewrite filter_cons_False; [done|].
    unfold is_field_member. by rewrite Ht.
Qed.

Lemma type_ref_of_none o :
  type_ref_of o = None <-> forall t, o = Some t -> t = "" \/ t ∈ BUILTIN_TYPES.
Proof.
  split.
  - intros Hnone t Ht.
    destruct (decide (t = "")) as [|Hne]; [by left|right].
    destruct (decide (t ∈ BUILTIN_TYPES)) as [|Hnb]; [done|].
    assert (type_ref_of o = Some t) as Hsome by by apply type_ref_of_spec.
    congruence.
  - intros Hall. destruct (type_ref_of o) as [t|] eqn:Hr; [|done].
    apply type_ref_of_spec in Hr as (Ht & Hne & Hnb).
    destruct (Hall t Ht); done.
Qed.

(** C4, as the code has it.  For a struct, union, class, SNMP object or
    SNMP table, the extracted fields are, in order, one for each [field]
    member of the block that has a [variable], and no other.  The type
    reference of a field is recorded exactly when the variable has a
    [type] whose text is non-empty and not a builtin primitive name; no
    declaration is looked up.  A builtin or missing type leaves the
    reference empty. *)
Theorem field_type_ref_recorded (f : Focus) (filepath pkg : string)
    (sym : Symbol) :
  _extract_symbol f filepath pkg = Some sym ->
  has_data_fields (kind sym) ->
  Forall2 (fun child fld =>
             exists var,
               _find_child (here child) "variable" = Some var
               /\ fld = field_of child var
               /\ (forall t,
                     f_type_ref fld = Some t <->
                     _node_text (_find_child var "type") = Some t
                     /\ t <> "" /\ t ∉ BUILTIN_TYPES)
               /\ (f_type_ref fld = None <->
                   forall t, _node_text (_find_child var "type") = Some t ->
                             t = "" \/ t ∈ BUILTIN_TYPES))
          (field_members (here f)) (fields sym)
  /\ (forall fld, fld ∈ fields sym ->
        exists block child var,
          _find_child (here f) "data_structure_block" = Some block
          /\ child ∈ child_foci block
          /\ ntype (here child) = "field"
          /\ _find_child (here child) "variable" = Some var
          /\ fld = field_of child var
          /\ (forall t,
                f_type_ref fld = Some t <->
                _node_text (_find_child var "type") = Some t
                /\ t <> "" /\ t ∉ BUILTIN_TYPES)
          /\ (f_type_ref fld = None <->
              forall t, _node_text (_find_child var "type") = Some t ->
                        t = "" \/ t ∈ BUILTIN_TYPES)).
Proof.
  intros Hsym Hkind.
  rewrite (extract_symbol_fields _ _ _ _ Hsym Hkind).
  unfold block_fields, field_members. split.
  - destruct (_find_child (here f) "data_structure_block") as [block|];
      [|constructor].
    unfold _extract_fields.
    eapply Forall2_impl; [apply fields_of_members|].
    intros child fld (var & Hvar & ->). exists var.
    split; [done|]. split; [done|]. simpl.
    split; [intros t; apply type_ref_of_spec|apply type_ref_of_none].
  - intros fld Hfld.
    destruct (_find_child (here f) "data_structure_block") as [block|];
      [|by apply not_elem_of_nil in Hfld].
    apply fields_of_elem in Hfld as (child & var & Hchild & Htype & Hvar & ->).
    exists block, child, var.
    do 5 (split; [done|]). simpl.
    split; [intros t; apply type_ref_of_spec|apply type_ref_of_none].
Qed.

Lemma field_type_ref_recorded_witness :
  exists sym,
    _extract_symbol undeclared_struct "/f.iop" "foo" = Some sym
    /\ has_data_fields (kind sym)
    /\ map f_name (fields sym) = ["m"; "n"]
    /\ map f_type_ref (fields sym) = [Some "Missing"; None]
    /\ length (fields sym) = length (field_members (here undeclared_struct)).
Proof.
  eexists. split; [by vm_compute|]. split; [by left|].
  split; [reflexivity|]. split; [reflexivity|].
  symmetry.
  exact (Forall2_length _ _ _
           (proj1 (field_type_ref_recorded undeclared_struct "/f.iop" "foo" _
                     eq_refl (or_introl eq_refl)))).
Defined.

(** C4, counterexample.  In a workspace made of the single file
    [package foo; struct S { Missing m; int n; };] the field [m] has the
    type reference [Missing] although no type of that name is declared:
    the reference is recorded without any declaration being looked up. *)
Lemma type_ref_of_undeclared_type :
  ~ type_refs_name_declared_types undeclared_index.
Proof.
  intros Hclaim.
  destruct (Hclaim "/f.iop"
              (symbols_of_root Samples.foo_undeclared "/f.iop" "foo")
              (default (common_of "" "")
                 (head (symbols_of_root Samples.foo_undeclared "/f.iop" "foo")))
              (field_of
                 (mkFocus [Samples.tok "{" 1 9 10]
                    (Samples.field_decl 2 "Missing" "m")
                    [Samples.field_decl 3 "int" "n"; Samples.tok "}" 1 10 11])
                 (Samples.inner "variable" 2 4 13
                    [Samples.leaf "type" "Missing" 2 4 11;
                     Samples.leaf "identifier" "m" 2 12 13]))
              "Missing")
    as [d Hd].
  - by vm_compute.
  - vm_compute. left.
  - by left.
  - vm_compute. left.
  - by vm_compute.
  - by vm_compute in Hd.
Qed.

End fields.

(** ** The index under [add_symbol] and [remove_file] *)

Section name_view.
Import Index.
Implicit Types (d : list (string * list Symbol)) (e : string * list Symbol).

Lemma omap_cons {A B} (f : A -> option B) x l :
  omap f (x :: l)
  = match f x with Some y => y :: omap f l | None => omap f l end.
Proof. done. Qed.

Lemma od_get_elem d n l :
  NoDup (OD.keys d) -> OD.get n d = Some l <-> (n, l) ∈ d.
Proof.
  induction d as [|[k v] r IH]; simpl.
  - intros _. split; [done|by intros ?%not_elem_of_nil].
  - intros [Hk Hr]%NoDup_cons. rewrite elem_of_cons.
    destruct (decide (k = n)) as [->|Hne].
    + split; [intros [= ->]; by left|].
      intros [[= ->]|Hin]; [done|].
      exfalso. apply Hk. apply list_elem_of_fmap. by exists (n, l).
    + rewrite (IH Hr). split; [by right|].
      intros [[= -> ->]|Hin]; done.
Qed.

Lemma od_del_absent d n : n ∉ OD.keys d -> OD.del n d = d.
Proof.
  unfold OD.del. induction d as [|[k v] r IH]; simpl; [done|].
  intros Hn. rewrite filter_cons_True.
  - rewrite IH; [done|]. intros Hin. apply Hn. by right.
  - simpl. intros ->. apply Hn. left.
Qed.

Lemma purge_name_absent filepath n d :
  n ∉ OD.keys d -> omap (purge_name filepath n) d = d.
Proof.
  induction d as [|[k v] r IH]; [done|].
  intros Hn. rewrite omap_cons. unfold purge_name at 1. cbn [fst snd].
  destruct (decide (k = n)) as [->|_]; [exfalso; apply Hn; left|].
  rewrite IH; [done|]. intros Hin. apply Hn. by right.
Qed.

Lemma name_remove_omap filepath n d :
  NoDup (OD.keys d) ->
  name_remove filepath n d = omap (purge_name filepath n) d.
Proof.
  induction d as [|[k v] r IH].
  - intros _. unfold name_remove, OD.del. simpl.
    by rewrite filter_cons_False by (simpl; auto).
  - change (OD.keys ((k, v) :: r)) with (k :: OD.keys r).
    intros [Hk Hr]%NoDup_cons. specialize (IH Hr).
    unfold name_remove in *. rewrite omap_cons.
    unfold purge_name at 1. cbn [fst snd OD.get OD.set].
    destruct (decide (k = n)) as [->|Hne].
    + unfold purge_entry. cbn [fst snd default from_option id].
      rewrite purge_name_absent by done.
      destruct (not_from filepath v) as [|x kept]; cbn [is_nil]; [|done].
      unfold OD.del. rewrite filter_cons_False by (simpl; auto).
      by apply od_del_absent.
    + destruct (is_nil (not_from filepath (default [] (OD.get n r)))).
      * unfold OD.del in *. rewrite filter_cons_True by done.
        by rewrite IH.
      * by rewrite IH.
Qed.

Lemma keys_omap_sublist
    (f : string * list Symbol -> option (string * list Symbol)) d :
  (forall e e', f e = Some e' -> e'.1 = e.1) ->
  OD.keys (omap f d) `sublist_of` OD.keys d.
Proof.
  intros Hf. induction d as [|e r IH]; [constructor|].
  rewrite omap_cons. cbn [OD.keys map].
  destruct (f e) as [e'|] eqn:He; cbn [OD.keys map].
  - rewrite (Hf _ _ He). by constructor.
  - by constructor.
Qed.

Lemma purge_entry_key filepath e e' :
  purge_entry filepath e = Some e' -> e'.1 = e.1.
Proof.
  unfold purge_entry. destruct (is_nil _); [done|]. by intros [= <-].
Qed.

Lemma purge_name_key filepath n e e' :
  purge_name filepath n e = Some e' -> e'.1 = e.1.
Proof.
  unfold purge_name. destruct (decide _); [apply purge_entry_key|].
  by intros [= <-].
Qed.

Lemma not_from_idem filepath l :
  not_from filepath (not_from filepath l) = not_from filepath l.
Proof.
  unfold not_from. induction l as [|x l IH]; [done|].
  destruct (decide (file x <> filepath)).
  - rewrite !filter_cons_True by done. by rewrite IH.
  - by rewrite filter_cons_False by done.
Qed.

Lemma purge_entry_idem filepath e e' :
  purge_entry filepath e = Some e' -> purge_entry filepath e' = Some e'.
Proof.
  unfold purge_entry.
  destruct (not_from filepath e.2) as [|x kept] eqn:Hkept; simpl; [done|].
  intros [= <-]. simpl. rewrite <- Hkept, not_from_idem, Hkept. done.
Qed.

Lemma purge_names_omap filepath ns d :
  NoDup (OD.keys d) ->
  foldl (fun d n => name_remove filepath n d) d ns
  = omap (purge_names filepath ns) d.
Proof.
  revert d. induction ns as [|n ns IH]; intros d Hd; simpl.
  - clear Hd. unfold purge_names. induction d as [|e r IHr]; [done|].
    rewrite omap_cons.
    destruct (decide (e.1 ∈ [])) as [Hin|_];
      [by apply not_elem_of_nil in Hin|].
    by rewrite <- IHr.
  - rewrite name_remove_omap by done.
    rewrite IH.
    2:{ eapply sublist_NoDup; [exact Hd|].
        apply keys_omap_sublist, purge_name_key. }
    clear. induction d as [|e r IHr]; [done|].
    rewrite !omap_cons.
    unfold purge_name at 1, purge_names at 2.
    destruct (decide (e.1 = n)) as [Hn|Hn].
    + rewrite decide_True by (rewrite Hn; left).
      destruct (purge_entry filepath e) as [e'|] eqn:He; [|done].
      rewrite omap_cons, IHr. unfold purge_names at 1.
      destruct (decide (e'.1 ∈ ns)); [|done].
      by rewrite (purge_entry_idem _ _ _ He).
    + rewrite omap_cons, IHr. unfold purge_names at 1.
      destruct (decide (e.1 ∈ ns)) as [Hin|Hin].
      * by rewrite decide_True by (by right).
      * rewrite decide_False; [done|].
        intros [?|?]%elem_of_cons; done.
Qed.

End name_view.

Section remove_views.
Import Index.
Implicit Types (idx : SymbolIndex) (syms : list Symbol).

(** A view after a fold of [remove_symbol]: one round, then the rest. *)
Ltac fold_projection syms idx :=
  let IH := fresh "IH" in
  revert idx; induction syms as [|? ? IH]; intros idx;
  [done|first [apply IH|simpl; by rewrite IH]].

Lemma remove_fold_by_name filepath pkg syms idx :
  by_name (foldl (remove_symbol filepath pkg) idx syms)
  = foldl (fun d n => name_remove filepath n d) (by_name idx) (map name syms).
Proof. by fold_projection syms idx. Qed.

Lemma remove_fold_by_qualified_name filepath pkg syms idx :
  by_qualified_name (foldl (remove_symbol filepath pkg) idx syms)
  = foldl (fun m s => delete (qualified_name s) m) (by_qualified_name idx) syms.
Proof. by fold_projection syms idx. Qed.

Lemma remove_fold_by_package filepath pkg syms idx :
  by_package (foldl (remove_symbol filepath pkg) idx syms)
  = foldl (fun m _ => package_remove filepath pkg m) (by_package idx) syms.
Proof. by fold_projection syms idx. Qed.

Lemma remove_fold_by_file filepath pkg syms idx :
  by_file (foldl (remove_symbol filepath pkg) idx syms) = by_file idx.
Proof. by fold_projection syms idx. Qed.

Lemma remove_fold_package_of_file filepath pkg syms idx :
  package_of_file (foldl (remove_symbol filepath pkg) idx syms)
  = package_of_file idx.
Proof. by fold_projection syms idx. Qed.

Lemma remove_fold_by_c_name filepath pkg syms idx :
  by_c_name (foldl (remove_symbol filepath pkg) idx syms)
  = foldl (fun m s => c_name_remove s m) (by_c_name idx) syms.
Proof. by fold_projection syms idx. Qed.

Lemma lookup_delete_qnames (m : gmap string Symbol) syms k :
  foldl (fun m s => delete (qualified_name s) m) m syms !! k
  = if decide (k ∈ map qualified_name syms) then None else m !! k.
Proof.
  revert m. induction syms as [|s r IH]; intros m.
  - change (m !! k = if decide (k ∈ []) then None else m !! k).
    by rewrite decide_False by apply not_elem_of_nil.
  - change (foldl (fun m s => delete (qualified_name s) m)
              (delete (qualified_name s) m) r !! k
            = if decide (k ∈ qualified_name s :: map qualified_name r)
              then None else m !! k).
    rewrite IH. destruct (decide (k ∈ map qualified_name r)) as [Hin|Hin].
    + by rewrite decide_True by (by right).
    + destruct (decide (k = qualified_name s)) as [->|Hne].
      * rewrite lookup_delete_eq. by rewrite decide_True by left.
      * rewrite lookup_delete_ne by done.
        rewrite decide_False; [done|]. by intros [?|?]%elem_of_cons.
Qed.

Lemma lookup_c_name_remove s (m : gmap string Symbol) k :
  c_name_remove s m !! k = if decide (k ∈ c_keys s) then None else m !! k.
Proof.
  unfold c_name_remove, c_keys. destruct (ctype_base s) as [base|].
  - destruct (decide (k = base)) as [->|Hb].
    + rewrite lookup_delete_eq. by rewrite decide_True by (right; left).
    + rewrite lookup_delete_ne by done.
      destruct (decide (k = CMapping.iop_type_to_c (qualified_name s)))
        as [->|Hc].
      * rewrite lookup_delete_eq. by rewrite decide_True by left.
      * rewrite lookup_delete_ne by done.
        rewrite decide_False; [done|].
        intros [?|[?|?%not_elem_of_nil]%elem_of_cons]%elem_of_cons; done.
  - destruct (decide (k = CMapping.iop_type_to_c (qualified_name s)))
      as [->|Hc].
    + rewrite lookup_delete_eq. by rewrite decide_True by left.
    + rewrite lookup_delete_ne by done.
      rewrite decide_False; [done|].
      intros [?|?%not_elem_of_nil]%elem_of_cons; done.
Qed.

Lemma lookup_c_name_remove_all (m : gmap string Symbol) syms k :
  foldl (fun m s => c_name_remove s m) m syms !! k
  = if decide (k ∈ concat (map c_keys syms)) then None else m !! k.
Proof.
  revert m. induction syms as [|s r IH]; intros m.
  - change (m !! k = if decide (k ∈ []) then None else m !! k).
    by rewrite decide_False by apply not_elem_of_nil.
  - change (foldl (fun m s => c_name_remove s m) (c_name_remove s m) r !! k
            = if decide (k ∈ c_keys s ++ concat (map c_keys r))
              then None else m !! k).
    rewrite IH, lookup_c_name_remove.
    destruct (decide (k ∈ concat (map c_keys r))) as [Hin|Hin].
    + rewrite decide_True; [done|]. apply elem_of_app. by right.
    + destruct (decide (k ∈ c_keys s)) as [Hs|Hs].
      * rewrite decide_True; [done|]. apply elem_of_app. by left.
      * rewrite decide_False; [done|]. by intros [?|?]%elem_of_app.
Qed.

Lemma purge_bucket_idem filepath l l' :
  purge_bucket filepath l = Some l' -> purge_bucket filepath l' = Some l'.
Proof.
  unfold purge_bucket.
  destruct (not_from filepath l) as [|x kept] eqn:Hkept; simpl; [done|].
  intros [= <-]. by rewrite <- Hkept, not_from_idem, Hkept.
Qed.

Lemma lookup_package_remove filepath p (m : gmap string (list Symbol)) p' :
  p <> "" ->
  package_remove filepath (Some p) m !! p'
  = if decide (p' = p) then m !! p ≫= purge_bucket filepath else m !! p'.
Proof.
  intros Hp. unfold package_remove. rewrite truthy_nonempty by done.
  unfold purge_bucket.
  destruct (decide (p' = p)) as [->|Hne].
  - destruct (m !! p) as [l|] eqn:Hl; simpl.
    + destruct (not_from filepath l) as [|x kept]; simpl.
      * by rewrite lookup_delete_eq.
      * by rewrite lookup_insert_eq.
    + unfold not_from. rewrite filter_nil. simpl. by rewrite lookup_delete_eq.
  - destruct (is_nil _).
    + rewrite lookup_delete_ne by done. by rewrite lookup_insert_ne.
    + by rewrite lookup_insert_ne.
Qed.

Lemma package_remove_idem filepath p (m : gmap string (list Symbol)) :
  p <> "" ->
  package_remove filepath (Some p) (package_remove filepath (Some p) m)
  = package_remove filepath (Some p) m.
Proof.
  intros Hp. apply map_eq. intros p'.
  rewrite !lookup_package_remove by done.
  destruct (decide (p' = p)) as [->|Hne]; [|done].
  rewrite decide_True by done.
  destruct (m !! p) as [l|]; simpl; [|done].
  destruct (purge_bucket filepath l) as [l'|] eqn:Hl'; simpl; [|done].
  by apply purge_bucket_idem in Hl'.
Qed.

Lemma package_remove_fold filepath p (m : gmap string (list Symbol)) syms :
  p <> "" -> syms <> [] ->
  foldl (fun m _ => package_remove filepath (Some p) m) m syms
  = package_remove filepath (Some p) m.
Proof.
  intros Hp Hsyms. destruct syms as [|s r]; [done|]. clear Hsyms.
  change (foldl (fun m _ => package_remove filepath (Some p) m)
            (package_remove filepath (Some p) m) r
          = package_remove filepath (Some p) m).
  induction r as [|s' r IH]; [done|].
  change (foldl (fun m _ => package_remove filepath (Some p) m)
            (package_remove filepath (Some p)
               (package_remove filepath (Some p) m)) r
          = package_remove filepath (Some p) m).
  by rewrite package_remove_idem.
Qed.

End remove_views.

Section remove_file_views.
Import Index.
Implicit Types (idx : SymbolIndex) (syms : list Symbol).

Lemma omap_ext_elem {A B} (f g : A -> option B) (l : list A) :
  (forall x, x ∈ l -> f x = g x) -> omap f l = omap g l.
Proof.
  induction l as [|x l IH]; [done|]. intros Hfg.
  rewrite !omap_cons, (Hfg x) by left.
  rewrite IH; [done|]. intros y Hy. apply Hfg. by right.
Qed.

Lemma not_from_all filepath l :
  (forall s, s ∈ l -> file s <> filepath) -> not_from filepath l = l.
Proof.
  unfold not_from. induction l as [|x l IH]; [done|]. intros Hall.
  rewrite filter_cons_True by (apply Hall; left).
  rewrite IH; [done|]. intros s Hs. apply Hall. by right.
Qed.

Lemma purge_bucket_all filepath l :
  l <> [] -> (forall s, s ∈ l -> file s <> filepath) ->
  purge_bucket filepath l = Some l.
Proof.
  intros Hl Hall. unfold purge_bucket. rewrite not_from_all by done.
  by destruct l.
Qed.

Lemma purge_bucket_elem filepath l l' s :
  purge_bucket filepath l = Some l' ->
  s ∈ l' <-> s ∈ l /\ file s <> filepath.
Proof.
  unfold purge_bucket. destruct (is_nil _); [done|]. intros [= <-].
  unfold not_from. rewrite list_elem_of_filter. tauto.
Qed.

Lemma purge_bucket_nonempty filepath l l' :
  purge_bucket filepath l = Some l' -> l' <> [].
Proof.
  unfold purge_bucket.
  destruct (not_from filepath l); simpl; [done|]. by intros [= <-].
Qed.

Lemma purge_bucket_keeps filepath l s :
  s ∈ l -> file s <> filepath ->
  exists l', purge_bucket filepath l = Some l' /\ s ∈ l'.
Proof.
  intros Hs Hfile. unfold purge_bucket.
  assert (Hin : s ∈ not_from filepath l)
    by (unfold not_from; by apply list_elem_of_filter).
  destruct (not_from filepath l) as [|x kept]; simpl.
  - by apply not_elem_of_nil in Hin.
  - by eexists.
Qed.

Lemma purge_entry_bucket filepath n l :
  purge_entry filepath (n, l) = pair n <$> purge_bucket filepath l.
Proof. unfold purge_entry, purge_bucket. simpl. by destruct (is_nil _). Qed.

(** The symbols of a file, as [remove_file] reads them. *)
Lemma file_symbols idx filepath s :
  consistent idx ->
  s ∈ default [] (by_file idx !! filepath) ->
  file s = filepath
  /\ package_of_file idx !! filepath = Some (package s)
  /\ package s <> "".
Proof.
  intros Hc Hs. destruct (by_file idx !! filepath) as [l|] eqn:Hl;
    [|by apply not_elem_of_nil in Hs].
  destruct (files_own idx Hc _ _ _ Hl Hs) as [Hf Hp].
  split; [done|]. split; [done|]. by eapply packages_named.
Qed.

Lemma owned_file_symbols idx filepath s :
  consistent idx -> owned idx s -> file s = filepath ->
  s ∈ default [] (by_file idx !! filepath).
Proof. intros Hc (l & Hl & Hs) <-. by rewrite Hl. Qed.

Lemma remove_file_by_file filepath idx :
  by_file (remove_file filepath idx) = delete filepath (by_file idx).
Proof. unfold remove_file. by rewrite remove_fold_by_file. Qed.

Lemma remove_file_package_of_file filepath idx :
  package_of_file (remove_file filepath idx)
  = delete filepath (package_of_file idx).
Proof. unfold remove_file. by rewrite remove_fold_package_of_file. Qed.

Lemma remove_file_by_name filepath idx :
  consistent idx ->
  by_name (remove_file filepath idx)
  = omap (purge_entry filepath) (by_name idx).
Proof.
  intros Hc. unfold remove_file. rewrite remove_fold_by_name. simpl.
  rewrite purge_names_omap by apply Hc.
  apply omap_ext_elem. intros [n l] He. unfold purge_names. simpl.
  destruct (decide _) as [|Hn]; [done|].
  rewrite purge_entry_bucket, purge_bucket_all; [done| |].
  - by eapply names_nonempty.
  - intros s Hs Hfile. apply Hn.
    destruct (names_owned idx Hc _ _ _ He Hs) as [<- Ho].
    apply list_elem_of_fmap. exists s. split; [done|].
    by apply owned_file_symbols.
Qed.

Lemma remove_file_by_qualified_name filepath idx q :
  by_qualified_name (remove_file filepath idx) !! q
  = if decide (q ∈ map qualified_name (default [] (by_file idx !! filepath)))
    then None else by_qualified_name idx !! q.
Proof.
  unfold remove_file. rewrite remove_fold_by_qualified_name.
  apply lookup_delete_qnames.
Qed.

Lemma remove_file_by_c_name filepath idx k :
  by_c_name (remove_file filepath idx) !! k
  = if decide (k ∈ concat (map c_keys (default [] (by_file idx !! filepath))))
    then None else by_c_name idx !! k.
Proof.
  unfold remove_file. rewrite remove_fold_by_c_name.
  apply lookup_c_name_remove_all.
Qed.

Lemma remove_file_by_package filepath idx p :
  consistent idx ->
  by_package (remove_file filepath idx) !! p
  = by_package idx !! p ≫= purge_bucket filepath.
Proof.
  intros Hc. unfold remove_file. rewrite remove_fold_by_package. simpl.
  assert (Hfree : forall p' l,
             package_of_file idx !! filepath <> Some p' ->
             by_package idx !! p' = Some l ->
             purge_bucket filepath l = Some l).
  { intros p' l Hp' Hl. apply purge_bucket_all; [by eapply packages_nonempty|].
    intros s Hs Hfile.
    destruct (packages_owned idx Hc _ _ _ Hl Hs) as [<- Ho].
    pose proof (owned_file_symbols _ _ _ Hc Ho Hfile) as Hin.
    by apply (file_symbols _ _ _ Hc) in Hin as (_ & ? & _). }
  destruct (default [] (by_file idx !! filepath)) as [|s0 r] eqn:Hsyms.
  - simpl. destruct (by_package idx !! p) as [l|] eqn:Hl; [|done]. simpl.
    symmetry. apply purge_bucket_all; [by eapply packages_nonempty|].
    intros s Hs Hfile.
    destruct (packages_owned idx Hc _ _ _ Hl Hs) as [_ Ho].
    pose proof (owned_file_symbols _ _ _ Hc Ho Hfile) as Hin.
    rewrite Hsyms in Hin. by apply not_elem_of_nil in Hin.
  - assert (Hs0 : s0 ∈ default [] (by_file idx !! filepath))
      by (rewrite Hsyms; left).
    apply (file_symbols _ _ _ Hc) in Hs0 as (_ & Hpkg & Hne).
    rewrite Hpkg, package_remove_fold by done.
    rewrite lookup_package_remove by done.
    destruct (decide (p = package s0)) as [->|Hp]; [done|].
    destruct (by_package idx !! p) as [l|] eqn:Hl; [|done]. simpl.
    symmetry. apply (Hfree p); [|done]. rewrite Hpkg. congruence.
Qed.

End remove_file_views.

Section preservation.
Import Index Indexer.
Implicit Types (idx : SymbolIndex) (syms : list Symbol).

Lemma elem_of_c_keys k syms s :
  s ∈ syms -> k ∈ c_keys s -> k ∈ concat (map c_keys syms).
Proof.
  intros Hs Hk. induction syms as [|x r IH]; [by apply not_elem_of_nil in Hs|].
  change (k ∈ c_keys x ++ concat (map c_keys r)).
  apply elem_of_app. apply elem_of_cons in Hs as [->|Hs]; auto.
Qed.

Lemma owned_remove_file filepath idx s :
  owned (remove_file filepath idx) s <-> owned idx s /\ file s <> filepath.
Proof.
  unfold owned. rewrite remove_file_by_file. split.
  - intros (l & Hl & Hs). apply lookup_delete_Some in Hl as [Hne Hl].
    split; [by exists l|done].
  - intros [(l & Hl & Hs) Hne]. exists l. split; [|done].
    by rewrite lookup_delete_ne.
Qed.

Lemma by_name_remove_file_elem filepath idx n l' :
  consistent idx ->
  (n, l') ∈ by_name (remove_file filepath idx) <->
  exists l, (n, l) ∈ by_name idx /\ purge_bucket filepath l = Some l'.
Proof.
  intros Hc. rewrite remove_file_by_name by done.
  rewrite list_elem_of_omap. split.
  - intros ([n0 l] & He & Hp). rewrite purge_entry_bucket in Hp.
    destruct (purge_bucket filepath l) as [l0|] eqn:Hl0; [|done].
    simpl in Hp. injection Hp as -> ->. by exists l.
  - intros (l & He & Hp). exists (n, l). split; [done|].
    by rewrite purge_entry_bucket, Hp.
Qed.

Lemma remove_file_consistent filepath idx :
  consistent idx -> consistent (remove_file filepath idx).
Proof.
  intros Hc.
  assert (Hnodup : NoDup (OD.keys (by_name (remove_file filepath idx)))).
  { rewrite remove_file_by_name by done.
    eapply sublist_NoDup; [apply Hc|].
    apply keys_omap_sublist, purge_entry_key. }
  split.
  - done.
  - intros n l' s (l & He & Hp)%by_name_remove_file_elem Hs; [|done].
    apply (purge_bucket_elem _ _ _ _ Hp) in Hs as [Hs Hfile].
    destruct (names_owned idx Hc _ _ _ He Hs) as [Hn Ho].
    split; [done|]. by apply owned_remove_file.
  - intros n l' (l & He & Hp)%by_name_remove_file_elem; [|done].
    by eapply purge_bucket_nonempty.
  - intros q s. rewrite remove_file_by_qualified_name.
    destruct (decide _) as [|Hq]; [done|]. intros Hs.
    destruct (qnames_owned idx Hc _ _ Hs) as [Hqn Ho].
    split; [done|]. apply owned_remove_file. split; [done|].
    intros Hfile. apply Hq. rewrite <- Hqn.
    apply list_elem_of_fmap. exists s. split; [done|].
    by apply owned_file_symbols.
  - intros p l' s. rewrite remove_file_by_package by done.
    destruct (by_package idx !! p) as [l|] eqn:Hl; [|done]. simpl.
    intros Hp Hs. apply (purge_bucket_elem _ _ _ _ Hp) in Hs as [Hs Hfile].
    destruct (packages_owned idx Hc _ _ _ Hl Hs) as [Hpk Ho].
    split; [done|]. by apply owned_remove_file.
  - intros p l'. rewrite remove_file_by_package by done.
    destruct (by_package idx !! p) as [l|]; [|done]. simpl.
    apply purge_bucket_nonempty.
  - intros f l s. rewrite remove_file_by_file, remove_file_package_of_file.
    intros [Hne Hl]%lookup_delete_Some Hs.
    rewrite lookup_delete_ne by done. by eapply files_own.
  - intros f l. rewrite remove_file_by_file.
    intros [Hne Hl]%lookup_delete_Some. by eapply files_nonempty.
  - intros f p. rewrite remove_file_package_of_file.
    intros [Hne Hl]%lookup_delete_Some. by eapply packages_named.
  - intros k s. rewrite remove_file_by_c_name.
    destruct (decide _) as [|Hk]; [done|]. intros Hs.
    destruct (c_names_owned idx Hc _ _ Hs) as [Hkey Ho].
    split; [done|]. apply owned_remove_file. split; [done|].
    intros Hfile. apply Hk. apply (elem_of_c_keys _ _ s).
    + by apply owned_file_symbols.
    + unfold c_keys. destruct Hkey as [->| ->]; [left|right; left].
  - intros s [Ho Hfile]%owned_remove_file.
    destruct (owned_named idx Hc s Ho) as (l & Hl & Hs).
    destruct (purge_bucket_keeps filepath l s Hs Hfile) as (l' & Hp & Hs').
    exists l'. split; [|done]. apply od_get_elem; [done|].
    apply by_name_remove_file_elem; [done|]. exists l. split; [|done].
    apply od_get_elem; [apply Hc|done].
  - intros s [Ho Hfile]%owned_remove_file.
    destruct (owned_packaged idx Hc s Ho) as (l & Hl & Hs).
    destruct (purge_bucket_keeps filepath l s Hs Hfile) as (l' & Hp & Hs').
    exists l'. split; [|done]. rewrite remove_file_by_package by done.
    by rewrite Hl.
Qed.

(** In a consistent index a file without bucket has left every view. *)
Lemma consistent_file_gone filepath idx :
  consistent idx ->
  by_file idx !! filepath = None ->
  package_of_file idx !! filepath = None ->
  file_gone filepath idx.
Proof.
  intros Hc Hfile Hpkg. split; [done|]. split; [done|].
  intros s Hs Hview.
  assert (Ho : owned idx s -> False).
  { intros (l & Hl & _). rewrite Hs in Hl. congruence. }
  destruct Hview as [(n & l & He & Hin)|[(q & Hq)|[(p & l & Hp & Hin)
                    |[(f & l & Hf & Hin)|(k & Hk)]]]].
  - apply Ho. by eapply names_owned.
  - apply Ho. by eapply qnames_owned.
  - apply Ho. by eapply packages_owned.
  - destruct (files_own idx Hc _ _ _ Hf Hin) as [Hfs _].
    apply Ho. exists l. by rewrite Hfs.
  - apply Ho. by eapply c_names_owned.
Qed.

Lemma remove_file_gone filepath idx :
  consistent idx -> file_gone filepath (remove_file filepath idx).
Proof.
  intros Hc. apply consistent_file_gone.
  - by apply remove_file_consistent.
  - rewrite remove_file_by_file. apply lookup_delete_eq.
  - rewrite remove_file_package_of_file. apply lookup_delete_eq.
Qed.

Lemma record_package_consistent filepath p idx :
  consistent idx -> by_file idx !! filepath = None -> p <> "" ->
  consistent (record_package filepath p idx).
Proof.
  intros Hc Hfile Hp. split; try apply Hc.
  - intros f l s Hl Hs. simpl in *.
    destruct (files_own idx Hc _ _ _ Hl Hs) as [Hf Hpk].
    split; [done|]. rewrite lookup_insert_ne; [done|]. congruence.
  - intros f p'. simpl. intros [[_ <-]|[_ Hl]]%lookup_insert_Some; [done|].
    by eapply packages_named.
Qed.

Lemma od_get_set {V} n n' (v : V) d :
  OD.get n' (OD.set n v d) = if decide (n' = n) then Some v else OD.get n' d.
Proof.
  induction d as [|[k w] r IH]; simpl.
  - destruct (decide (n = n')), (decide (n' = n)); congruence.
  - destruct (decide (k = n)) as [->|Hk]; simpl.
    + destruct (decide (n = n')), (decide (n' = n)); congruence.
    + rewrite IH. destruct (decide (k = n')) as [->|]; [|done].
      by rewrite decide_False.
Qed.

Lemma od_keys_set {V} n (v : V) d :
  OD.keys (OD.set n v d)
  = if decide (n ∈ OD.keys d) then OD.keys d else OD.keys d ++ [n].
Proof.
  induction d as [|[k w] r IH].
  - done.
  - change (OD.keys ((k, w) :: r)) with (k :: OD.keys r).
    simpl. destruct (decide (k = n)) as [->|Hk].
    + by rewrite decide_True by left.
    + change (OD.keys ((k, w) :: OD.set n v r))
        with (k :: OD.keys (OD.set n v r)).
      rewrite IH. destruct (decide (n ∈ OD.keys r)) as [Hin|Hin].
      * by rewrite decide_True by (by right).
      * rewrite decide_False; [done|]. by intros [?|?]%elem_of_cons.
Qed.

Lemma od_set_nodup {V} n (v : V) d :
  NoDup (OD.keys d) -> NoDup (OD.keys (OD.set n v d)).
Proof.
  intros Hd. rewrite od_keys_set. destruct (decide _) as [|Hn]; [done|].
  apply NoDup_app. split; [done|]. split; [|apply NoDup_singleton].
  by intros x Hx ->%list_elem_of_singleton.
Qed.

Lemma lookup_bucket_add key s (m : gmap string (list Symbol)) key' :
  bucket_add key s m !! key'
  = if decide (key' = key) then Some (default [] (m !! key) ++ [s])
    else m !! key'.
Proof.
  unfold bucket_add. destruct (decide (key' = key)) as [->|Hne].
  - by rewrite lookup_insert_eq.
  - by rewrite lookup_insert_ne.
Qed.

Lemma lookup_c_name_add s (m : gmap string Symbol) k :
  c_name_add s m !! k = if decide (k ∈ c_keys s) then Some s else m !! k.
Proof.
  unfold c_name_add, c_keys. destruct (ctype_base s) as [base|].
  - destruct (decide (k = base)) as [->|Hb].
    + rewrite lookup_insert_eq. by rewrite decide_True by (right; left).
    + rewrite lookup_insert_ne by done.
      destruct (decide (k = CMapping.iop_type_to_c (qualified_name s)))
        as [->|Hc].
      * rewrite lookup_insert_eq. by rewrite decide_True by left.
      * rewrite lookup_insert_ne by done.
        rewrite decide_False; [done|].
        intros [?|[?|?%not_elem_of_nil]%elem_of_cons]%elem_of_cons; done.
  - destruct (decide (k = CMapping.iop_type_to_c (qualified_name s)))
      as [->|Hc].
    + rewrite lookup_insert_eq. by rewrite decide_True by left.
    + rewrite lookup_insert_ne by done.
      rewrite decide_False; [done|].
      intros [?|?%not_elem_of_nil]%elem_of_cons; done.
Qed.

Lemma elem_default_snoc (o : option (list Symbol)) s x :
  x ∈ default [] o ++ [s] <-> (exists l, o = Some l /\ x ∈ l) \/ x = s.
Proof.
  rewrite elem_of_app, list_elem_of_singleton. split.
  - intros [Hx|?]; [left|by right].
    destruct o as [l|]; [by exists l|by apply not_elem_of_nil in Hx].
  - intros [(l & -> & Hx)|?]; [by left|by right].
Qed.

Lemma owned_add_symbol s idx x :
  owned (add_symbol s idx) x <-> owned idx x \/ x = s.
Proof.
  unfold owned. simpl. rewrite lookup_bucket_add. split.
  - intros (l & Hl & Hx). destruct (decide _) as [Hf|Hf].
    + injection Hl as <-. apply elem_default_snoc in Hx as [(l & Hl & Hx)| ->];
        [left|by right].
      exists l. by rewrite Hf.
    + left. by exists l.
  - intros [(l & Hl & Hx)| ->].
    + destruct (decide _) as [Hf|Hf]; [|by exists l].
      eexists. split; [done|]. apply elem_default_snoc. left.
      exists l. by rewrite <- Hf.
    + rewrite decide_True by done. eexists. split; [done|].
      apply elem_default_snoc. by right.
Qed.

Lemma add_symbol_consistent s idx :
  consistent idx ->
  package_of_file idx !! file s = Some (package s) ->
  consistent (add_symbol s idx).
Proof.
  intros Hc Hpkg.
  assert (Hnodup : NoDup (OD.keys (by_name (add_symbol s idx))))
    by (apply od_set_nodup, Hc).
  assert (Hmono : forall x, owned idx x -> owned (add_symbol s idx) x)
    by (intros x Hx; apply owned_add_symbol; by left).
  assert (Hnew : owned (add_symbol s idx) s)
    by (apply owned_add_symbol; by right).
  split.
  - done.
  - intros n l x He Hx. apply od_get_elem in He; [|done].
    simpl in He. unfold name_add in He. rewrite od_get_set in He.
    destruct (decide (n = name s)) as [->|Hn].
    + injection He as <-.
      apply elem_default_snoc in Hx as [(l0 & Hl & Hx)| ->]; [|done].
      apply od_get_elem in Hl; [|apply Hc].
      destruct (names_owned idx Hc _ _ _ Hl Hx). auto.
    + apply od_get_elem in He; [|apply Hc].
      destruct (names_owned idx Hc _ _ _ He Hx). auto.
  - intros n l He. apply od_get_elem in He; [|done].
    simpl in He. unfold name_add in He. rewrite od_get_set in He.
    destruct (decide (n = name s)) as [->|Hn].
    + injection He as <-. by destruct (default [] _).
    + apply od_get_elem in He; [|apply Hc]. by eapply names_nonempty.
  - intros q x. simpl.
    intros [[<- <-]|[_ Hx]]%lookup_insert_Some; [done|].
    destruct (qnames_owned idx Hc _ _ Hx). auto.
  - intros p l x. simpl. rewrite lookup_bucket_add.
    destruct (decide (p = package s)) as [->|Hp].
    + intros [= <-] [(l0 & Hl & Hx)| ->]%elem_default_snoc; [|done].
      destruct (packages_owned idx Hc _ _ _ Hl Hx). auto.
    + intros Hl Hx. destruct (packages_owned idx Hc _ _ _ Hl Hx). auto.
  - intros p l. simpl. rewrite lookup_bucket_add.
    destruct (decide (p = package s)) as [->|Hp].
    + intros [= <-]. by destruct (default [] _).
    + by eapply packages_nonempty.
  - intros f l x. simpl. rewrite lookup_bucket_add.
    destruct (decide (f = file s)) as [->|Hf].
    + intros [= <-] [(l0 & Hl & Hx)| ->]%elem_default_snoc; [|done].
      by eapply files_own.
    + by eapply files_own.
  - intros f l. simpl. rewrite lookup_bucket_add.
    destruct (decide (f = file s)) as [->|Hf].
    + intros [= <-]. by destruct (default [] _).
    + by eapply files_nonempty.
  - intros f p. simpl. by eapply packages_named.
  - intros k x. simpl. rewrite lookup_c_name_add.
    destruct (decide (k ∈ c_keys s)) as [Hk|Hk].
    + intros [= <-]. split; [|done]. unfold c_keys in Hk.
      apply elem_of_cons in Hk as [->|Hk]; [by left|right].
      destruct (ctype_base s) as [base|]; [|by apply not_elem_of_nil in Hk].
      by apply list_elem_of_singleton in Hk as ->.
    + intros Hx. destruct (c_names_owned idx Hc _ _ Hx). auto.
  - intros x Hx. simpl. unfold name_add. rewrite od_get_set.
    apply owned_add_symbol in Hx as [Hx| ->].
    + destruct (owned_named idx Hc x Hx) as (l & Hl & Hin).
      destruct (decide (name x = name s)) as [Hn|Hn]; [|by exists l].
      eexists. split; [done|]. apply elem_default_snoc. left.
      exists l. by rewrite <- Hn.
    + rewrite decide_True by done. eexists. split; [done|].
      apply elem_default_snoc. by right.
  - intros x Hx. simpl. rewrite lookup_bucket_add.
    apply owned_add_symbol in Hx as [Hx| ->].
    + destruct (owned_packaged idx Hc x Hx) as (l & Hl & Hin).
      destruct (decide (package x = package s)) as [Hn|Hn]; [|by exists l].
      eexists. split; [done|]. apply elem_default_snoc. left.
      exists l. by rewrite <- Hn.
    + rewrite decide_True by done. eexists. split; [done|].
      apply elem_default_snoc. by right.
Qed.

Lemma empty_consistent : consistent empty_index.
Proof.
  split; simpl; try done.
  - constructor.
  - by intros ??? ?%not_elem_of_nil.
  - by intros ?? ?%not_elem_of_nil.
Qed.

Lemma reachable_consistent idx : reachable idx -> consistent idx.
Proof.
  induction 1 as [|idx filepath _ IH|idx filepath p _ IH Hp|idx s _ IH Hs].
  - apply empty_consistent.
  - by apply remove_file_consistent.
  - apply record_package_consistent; [by apply remove_file_consistent| |done].
    rewrite remove_file_by_file. apply lookup_delete_eq.
  - by apply add_symbol_consistent.
Qed.

End preservation.

(** ** The indexer *)

Section indexer_steps.
Import Index Extract Indexer.
Implicit Types (idx : SymbolIndex) (syms : list Symbol).

Lemma add_extracted_add_all filepath p (cs : list Focus) idx :
  foldl (add_extracted filepath p) idx cs
  = add_all (omap (fun child => _extract_symbol child filepath p) cs) idx.
Proof.
  revert idx. induction cs as [|c r IH]; intros idx; [done|].
  rewrite omap_cons. cbn [foldl]. rewrite IH. unfold add_extracted.
  by destruct (_extract_symbol c filepath p).
Qed.

Lemma index_source_add_all filepath root idx :
  _index_source filepath root idx
  = match package_of_root root with
    | None => idx
    | Some p =>
        add_all (symbols_of_root root filepath p)
                (record_package filepath p idx)
    end.
Proof.
  unfold _index_source. destruct (package_of_root root); [|done].
  apply add_extracted_add_all.
Qed.

Lemma extract_symbol_file f filepath p s :
  _extract_symbol f filepath p = Some s -> file s = filepath /\ package s = p.
Proof.
  unfold _extract_symbol. destruct (node_kind _); [|done].
  destruct (name_node _); [|done]. by intros [= <-].
Qed.

Lemma symbols_of_root_file root filepath p s :
  s ∈ symbols_of_root root filepath p -> file s = filepath /\ package s = p.
Proof.
  unfold symbols_of_root. intros (c & _ & Hs)%list_elem_of_omap.
  by eapply extract_symbol_file.
Qed.

Lemma add_all_package_of_file syms idx :
  package_of_file (add_all syms idx) = package_of_file idx.
Proof.
  revert idx. induction syms as [|s r IH]; intros idx; [done|].
  unfold add_all in *. cbn [foldl]. by rewrite IH.
Qed.

Lemma add_all_reachable filepath p syms idx :
  reachable idx ->
  package_of_file idx !! filepath = Some p ->
  (forall s, s ∈ syms -> file s = filepath /\ package s = p) ->
  reachable (add_all syms idx).
Proof.
  revert idx. induction syms as [|s r IH]; intros idx Hr Hp Hsyms; [done|].
  unfold add_all in *. cbn [foldl]. apply IH.
  - apply reach_add; [done|].
    destruct (Hsyms s) as [-> ->]; [left|done].
  - done.
  - intros x Hx. apply Hsyms. by right.
Qed.

Lemma index_source_steps_reachable filepath root idx :
  reachable idx -> named_package root ->
  reachable (_index_source filepath root (remove_file filepath idx)).
Proof.
  intros Hr Hnamed. rewrite index_source_add_all.
  destruct (package_of_root root) as [p|] eqn:Hp; [|by apply reach_remove].
  apply (add_all_reachable filepath p).
  - apply reach_package; [done|]. intros ->. by apply Hnamed.
  - simpl. apply lookup_insert_eq.
  - apply symbols_of_root_file.
Qed.

Lemma remove_file_absent filepath idx :
  by_file idx !! filepath = None ->
  package_of_file idx !! filepath = None ->
  remove_file filepath idx = idx.
Proof.
  intros Hf Hp. unfold remove_file. rewrite Hf. simpl.
  rewrite !delete_id by done. by destruct idx.
Qed.

Lemma od_get_Some_elem {V} n (v : V) d : OD.get n d = Some v -> (n, v) ∈ d.
Proof.
  induction d as [|[k w] r IH]; simpl; [done|].
  destruct (decide (k = n)) as [->|_].
  - intros [= ->]. left.
  - intros Hr. right. by apply IH.
Qed.



Lemma in_all_views_add s idx : in_all_views (add_symbol s idx) s.
Proof.
  unfold in_all_views. simpl. split; [|split; [|split; [|split; [|split]]]].
  - unfold name_add. rewrite od_get_set, decide_True by done.
    eexists. split; [done|]. apply elem_default_snoc. by right.
  - apply lookup_insert_eq.
  - rewrite lookup_bucket_add, decide_True by done.
    eexists. split; [done|]. apply elem_default_snoc. by right.
  - rewrite lookup_bucket_add, decide_True by done.
    eexists. split; [done|]. apply elem_default_snoc. by right.
  - rewrite lookup_c_name_add, decide_True; [done|]. left.
  - intros base Hbase. rewrite lookup_c_name_add, decide_True; [done|].
    unfold c_keys. rewrite Hbase. right. left.
Qed.

Lemma in_some_view_record_package filepath p idx x :
  in_some_view (record_package filepath p idx) x <-> in_some_view idx x.
Proof. done. Qed.

Lemma owned_add_all syms idx s : s ∈ syms -> owned (add_all syms idx) s.
Proof.
  revert idx. induction syms as [|x r IH] using rev_ind; intros idx Hs;
    [by apply not_elem_of_nil in Hs|].
  unfold add_all in *. rewrite foldl_app. cbn [foldl].
  apply owned_add_symbol. apply elem_of_app in Hs as [Hs|Hs].
  - left. by apply IH.
  - right. by apply list_elem_of_singleton in Hs.
Qed.

End indexer_steps.

(** ** Every state of the indexer *)

Section coherence.
Import Index Extract Indexer.
Implicit Types (idx : SymbolIndex) (syms : list Symbol).


















(** When every text decodes, nothing raises: the run is the one of
    [_index_source]. *)
Lemma raises_decodes decodes (reads : list Node) :
  (forall n, decodes n = true) -> raises decodes reads = false.
Proof.
  intros Hd. unfold raises. induction reads as [|n r IH]; [done|].
  cbn [forallb]. by rewrite Hd.
Qed.

Lemma add_extracted_or_raise_decodes decodes filepath p
    (cs : list Focus) idx :
  (forall n, decodes n = true) ->
  add_extracted_or_raise decodes filepath p idx cs
  = Returned (foldl (add_extracted filepath p) idx cs).
Proof.
  intros Hd. revert idx. induction cs as [|c r IH]; intros idx; [done|].
  cbn [add_extracted_or_raise foldl].
  by rewrite raises_decodes.
Qed.

Lemma index_file_decodes abspath parse decodes read filepath source idx :
  (forall n, decodes n = true) ->
  read (abspath filepath) = Some source ->
  index_file abspath parse decodes read filepath idx
  = Returned (index_source abspath parse filepath source idx).
Proof.
  intros Hd Hread. unfold index_file, index_source, _index_source_or_raise,
    _index_source. rewrite Hread, raises_decodes by done.
  destruct (package_of_root (parse source)); [|done].
  by apply add_extracted_or_raise_decodes.
Qed.




End coherence.

Section indexer_claims.
Import Index Extract Indexer.
Variable abspath : string -> string.
Variable path_join : string -> string -> string.
Variable parse : string -> Node.

Lemma index_source_reachable filepath source idx :
  reachable idx -> named_package (parse source) ->
  reachable (index_source abspath parse filepath source idx).
Proof. apply index_source_steps_reachable. Qed.



End indexer_claims.

Section reindex_same.
Import Index Extract Indexer.
Implicit Types (idx : SymbolIndex) (syms : list Symbol).

Lemma add_all_cons s syms idx :
  add_all (s :: syms) idx = add_all syms (add_symbol s idx).
Proof. done. Qed.

Lemma not_from_snoc filepath l s :
  file s = filepath -> not_from filepath (l ++ [s]) = not_from filepath l.
Proof.
  intros Hs. unfold not_from. rewrite filter_app.
  rewrite (filter_cons_False _ s) by auto. by rewrite filter_nil, app_nil_r.
Qed.

Lemma purge_bucket_snoc filepath o s :
  file s = filepath ->
  purge_bucket filepath (default [] o ++ [s]) = o ≫= purge_bucket filepath.
Proof.
  intros Hs. unfold purge_bucket at 1. rewrite not_from_snoc by done.
  by destruct o as [l|].
Qed.

Lemma name_add_cons s k w r :
  name_add s ((k, w) :: r)
  = if decide (k = name s) then (k, w ++ [s]) :: r else (k, w) :: name_add s r.
Proof.
  unfold name_add. simpl. by destruct (decide (k = name s)) as [->|].
Qed.

Lemma purge_name_add filepath s d :
  file s = filepath ->
  omap (purge_entry filepath) (name_add s d) = omap (purge_entry filepath) d.
Proof.
  intros Hs. induction d as [|[k w] r IH].
  - unfold name_add. cbn [OD.get OD.set default from_option app].
    rewrite omap_cons, purge_entry_bucket.
    change [s] with (default [] None ++ [s]).
    by rewrite purge_bucket_snoc.
  - rewrite name_add_cons. destruct (decide (k = name s)) as [->|Hk].
    + rewrite !omap_cons, !purge_entry_bucket.
      change (w ++ [s]) with (default [] (Some w) ++ [s]).
      by rewrite purge_bucket_snoc.
    + by rewrite !omap_cons, IH.
Qed.

Lemma purge_idem filepath (d : list (string * list Symbol)) :
  omap (purge_entry filepath) (omap (purge_entry filepath) d)
  = omap (purge_entry filepath) d.
Proof.
  induction d as [|e r IH]; [done|]. rewrite omap_cons.
  destruct (purge_entry filepath e) as [e'|] eqn:He; [|done].
  by rewrite omap_cons, (purge_entry_idem _ _ _ He), IH.
Qed.

Section same_file.
Variable filepath p : string.
Variable syms : list Symbol.
Hypothesis syms_file :
  forall s, s ∈ syms -> file s = filepath /\ package s = p.

Lemma add_all_by_name_purged idx :
  omap (purge_entry filepath) (by_name (add_all syms idx))
  = omap (purge_entry filepath) (by_name idx).
Proof using syms_file.
  revert idx. induction syms as [|s r IH]; intros idx; [done|].
  rewrite add_all_cons, IH by (intros; apply syms_file; by right).
  simpl. apply purge_name_add. apply syms_file. left.
Qed.

Lemma add_all_by_package_purged idx q :
  by_package (add_all syms idx) !! q ≫= purge_bucket filepath
  = by_package idx !! q ≫= purge_bucket filepath.
Proof using syms_file.
  revert idx. induction syms as [|s r IH]; intros idx; [done|].
  rewrite add_all_cons, IH by (intros; apply syms_file; by right).
  simpl. rewrite lookup_bucket_add. destruct (decide _) as [->|]; [|done].
  simpl. apply purge_bucket_snoc. apply syms_file. left.
Qed.

Lemma add_all_by_file_deleted idx :
  delete filepath (by_file (add_all syms idx)) = delete filepath (by_file idx).
Proof using syms_file.
  revert idx. induction syms as [|s r IH]; intros idx; [done|].
  rewrite add_all_cons, IH by (intros; apply syms_file; by right).
  simpl. unfold bucket_add. destruct (syms_file s) as [-> _]; [left|].
  apply delete_insert_eq.
Qed.

Lemma add_all_file_symbols idx :
  default [] (by_file (add_all syms idx) !! filepath)
  = default [] (by_file idx !! filepath) ++ syms.
Proof using syms_file.
  revert idx. induction syms as [|s r IH]; intros idx;
    [by rewrite app_nil_r|].
  rewrite add_all_cons, IH by (intros; apply syms_file; by right).
  simpl. rewrite lookup_bucket_add.
  destruct (syms_file s) as [-> _]; [left|].
  rewrite decide_True by done. simpl. by rewrite <- app_assoc.
Qed.

Lemma add_all_by_qualified_name_other idx k :
  k ∉ map qualified_name syms ->
  by_qualified_name (add_all syms idx) !! k = by_qualified_name idx !! k.
Proof.
  clear syms_file.
  revert idx. induction syms as [|s r IH]; intros idx Hk; [done|].
  rewrite add_all_cons, IH by (intros ?; apply Hk; by right).
  simpl. apply lookup_insert_ne. intros <-. apply Hk. left.
Qed.

Lemma add_all_by_c_name_other idx k :
  k ∉ concat (map c_keys syms) ->
  by_c_name (add_all syms idx) !! k = by_c_name idx !! k.
Proof.
  clear syms_file.
  revert idx. induction syms as [|s r IH]; intros idx Hk; [done|].
  change (concat (map c_keys (s :: r)))
    with (c_keys s ++ concat (map c_keys r)) in Hk.
  rewrite add_all_cons, IH by (intros ?; apply Hk, elem_of_app; by right).
  simpl. rewrite lookup_c_name_add, decide_False; [done|].
  intros ?. apply Hk, elem_of_app. by left.
Qed.




End same_file.

Variable abspath : string -> string.
Variable parse : string -> Node.


End reindex_same.

Section view_claims.
Import Index Extract Indexer.

(** C2, as the code has it.  In every index built by the steps of the
    indexer, where the package of a file is recorded before its symbols
    are added: whatever a view holds is a symbol of the symbol set,
    stored under the key derived from it; every symbol of the symbol set
    is in the views by name, by package and by file; a symbol is in every
    view right after it is added; and after [remove_file] no symbol of
    the file is left in any view, the canonical-name entry and the entry
    of its override included. *)
Theorem index_views_consistent (idx : SymbolIndex) :
  reachable idx ->
  (forall s, in_some_view idx s -> owned idx s)
  /\ (forall s, owned idx s ->
        (exists l, OD.get (name s) (by_name idx) = Some l /\ s ∈ l)
        /\ (exists l, by_package idx !! package s = Some l /\ s ∈ l)
        /\ package_of_file idx !! file s = Some (package s))
  /\ (forall n l s, (n, l) ∈ by_name idx -> s ∈ l -> name s = n)
  /\ (forall q s, by_qualified_name idx !! q = Some s -> qualified_name s = q)
  /\ (forall p l s, by_package idx !! p = Some l -> s ∈ l -> package s = p)
  /\ (forall f l s, by_file idx !! f = Some l -> s ∈ l -> file s = f)
  /\ (forall k s, by_c_name idx !! k = Some s -> k ∈ c_keys s)
  /\ (forall s, package_of_file idx !! file s = Some (package s) ->
                in_all_views (add_symbol s idx) s
                /\ reachable (add_symbol s idx))
  /\ (forall filepath,
         file_gone filepath (remove_file filepath idx)
         /\ reachable (remove_file filepath idx)).
Proof.
  intros Hr. pose proof (reachable_consistent _ Hr) as Hc.
  split; [|split; [|split; [|split; [|split; [|split; [|split; [|split]]]]]]].
  - intros s [(n & l & He & Hin)|[(q & Hq)|[(p & l & Hp & Hin)
                |[(f & l & Hf & Hin)|(k & Hk)]]]].
    + by eapply names_owned.
    + by eapply qnames_owned.
    + by eapply packages_owned.
    + destruct (files_own idx Hc _ _ _ Hf Hin) as [Hfs _].
      exists l. by rewrite Hfs.
    + by eapply c_names_owned.
  - intros s Ho. split; [by apply owned_named|].
    split; [by apply owned_packaged|].
    destruct Ho as (l & Hl & Hs). by eapply files_own.
  - intros n l s He Hs. by eapply names_owned.
  - intros q s Hq. by eapply qnames_owned.
  - intros p l s Hp Hs. by eapply packages_owned.
  - intros f l s Hf Hs. by eapply files_own.
  - intros k s Hk. unfold c_keys.
    destruct (c_names_owned idx Hc _ _ Hk) as [[->| ->] _];
      [left|right; left].
  - intros s Hs. split; [apply in_all_views_add|by apply reach_add].
  - intros filepath. split; [by apply remove_file_gone|by apply reach_remove].
Qed.

Lemma foo_index_reachable : reachable foo_index.
Proof.
  apply (index_source_reachable id Samples.parse "/a.iop"
           Samples.foo_common_src empty_index reach_empty).
  by vm_compute.
Qed.

Lemma index_views_consistent_witness :
  reachable foo_index
  /\ file_gone "/a.iop" (remove_file "/a.iop" foo_index).
Proof.
  split; [exact foo_index_reachable|].
  apply (proj2 (proj2 (proj2 (proj2 (proj2 (proj2 (proj2 (proj2
           (index_views_consistent foo_index foo_index_reachable))))))))
           "/a.iop").
Defined.

(** C2, counterexample.  Two declarations of [foo.Common] added to a
    fresh index: the first is in the view by name but the view by
    qualified name holds the second; and since [add_symbol] records no
    package for the file, [remove_file] leaves both in the view by
    package. *)
Lemma views_disagree :
  ~ (forall s,
        in_some_view
          (run [AddSymbol (common_of "foo" "/a.iop"); AddSymbol common_again])
          s ->
        in_all_views
          (run [AddSymbol (common_of "foo" "/a.iop"); AddSymbol common_again])
          s)
  /\ ~ views_agree_after
         [AddSymbol (common_of "foo" "/a.iop"); AddSymbol common_again].
Proof.
  split.
  - intros Hall.
    destruct (Hall (common_of "foo" "/a.iop")) as (_ & Hq & _).
    + left. exists "Common", [common_of "foo" "/a.iop"; common_again].
      split; [vm_compute; left|left].
    + by vm_compute in Hq.
  - intros [_ Hgone].
    apply (Hgone "/a.iop" (common_of "foo" "/a.iop") eq_refl).
    right. right. left.
    exists "foo", [common_of "foo" "/a.iop"; common_again].
    split; [by vm_compute|left].
Qed.

(** C1.  [/a.iop], indexed from [package foo; struct Common {};], can no
    longer be read when [index_file] is called for it, alone or from the
    workspace scan.  The call returns, and the index it leaves is empty:
    the bucket of the file, its package mapping and its symbol in every
    view are gone, where the claim has them kept. *)
Theorem read_failure_loses_entries :
  let unreadable := fun _ : string => @None string in
  let decodes := fun _ : Node => true in
  by_file foo_index !! "/a.iop" = Some [common_of "foo" "/a.iop"]
  /\ package_of_file foo_index !! "/a.iop" = Some "foo"
  /\ in_all_views foo_index (common_of "foo" "/a.iop")
  /\ index_file id Samples.parse decodes unreadable "/a.iop" foo_index
     = Returned empty_index
  /\ index_workspace id String.append Samples.parse decodes unreadable
       [("/", ["a.iop"])] foo_index
     = Returned empty_index
  /\ ~ read_failure_keeps_index id Samples.parse decodes unreadable
        "/a.iop" foo_index.
Proof.
  intros unreadable decodes.
  assert (Hrun : index_file id Samples.parse decodes unreadable "/a.iop"
                   foo_index = Returned empty_index) by reflexivity.
  split; [reflexivity|]. split; [reflexivity|]. split.
  { unfold in_all_views.
    split; [exists [common_of "foo" "/a.iop"]; split; [reflexivity|left]|].
    split; [reflexivity|].
    split; [exists [common_of "foo" "/a.iop"]; split; [reflexivity|left]|].
    split; [exists [common_of "foo" "/a.iop"]; split; [reflexivity|left]|].
    split; [reflexivity|]. intros base Hbase. by vm_compute in Hbase. }
  split; [exact Hrun|]. split; [reflexivity|].
  intros Hkeep. specialize (Hkeep eq_refl). rewrite Hrun in Hkeep.
  apply (f_equal (fun o => by_file (index_of o) !! "/a.iop")) in Hkeep.
  by vm_compute in Hkeep.
Qed.








End view_claims.

(** ** More on the name mangler *)

Section mangler_laws.
Import PyStr CMapping.

Lemma lower_char_idem c : lower_char (lower_char c) = lower_char c.
Proof. destruct c as [[] [] [] [] [] [] [] []]; reflexivity. Qed.

Lemma lower_char_not_upper c : is_upper (lower_char c) = false.
Proof. destruct c as [[] [] [] [] [] [] [] []]; reflexivity. Qed.

Lemma lower_char_fixed_not_upper c : lower_char c = c -> is_upper c = false.
Proof. intros <-. apply lower_char_not_upper. Qed.

Lemma lower_char_underscore c : lower_char c = "_"%char <-> c = "_"%char.
Proof.
  split; [|by intros ->].
  destruct c as [[] [] [] [] [] [] [] []]; by vm_compute.
Qed.

Lemma lower_char_dot c : lower_char c = "."%char -> c = "."%char.
Proof. destruct c as [[] [] [] [] [] [] [] []]; by vm_compute. Qed.

Lemma sub_lower_upper_no_upper l :
  Forall (fun c => is_upper c = false) l -> sub_lower_upper l = l.
Proof.
  induction l as [|a l IH]; [done|]. intros [Ha Hl]%Forall_cons.
  destruct l as [|b r]; [done|].
  cbn [sub_lower_upper]. rewrite (Forall_inv Hl), andb_false_r.
  f_equal. by apply IH.
Qed.

Lemma sub_acronym_no_upper fuel l :
  Forall (fun c => is_upper c = false) l -> sub_acronym fuel l = l.
Proof.
  revert l. induction fuel as [|fuel IH]; intros l Hl; [done|].
  destruct l as [|c r]; [done|].
  apply Forall_cons in Hl as [Hc Hr].
  cbn [sub_acronym span_upper]. rewrite Hc. cbn [length Nat.leb andb].
  f_equal. by apply IH.
Qed.

Lemma map_lower_char_fixed l :
  Forall (fun c => lower_char c = c) l -> map lower_char l = l.
Proof. induction 1 as [|c l Hc _ IH]; [done|]. simpl. by rewrite Hc, IH. Qed.

Lemma camelcase_to_c_fixed name :
  Forall (fun c => lower_char c = c) (chars name) ->
  camelcase_to_c name = name.
Proof.
  intros Hl. unfold camelcase_to_c, lower.
  assert (Hup : Forall (fun c => is_upper c = false) (chars name)).
  { eapply Forall_impl; [exact Hl|]. apply lower_char_fixed_not_upper. }
  rewrite sub_lower_upper_no_upper, sub_acronym_no_upper by done.
  by rewrite chars_str, map_lower_char_fixed, str_chars.
Qed.

Lemma camelcase_to_c_lowered name :
  Forall (fun c => lower_char c = c) (chars (camelcase_to_c name)).
Proof.
  unfold camelcase_to_c, lower. rewrite chars_str.
  apply Forall_forall. intros c (c' & -> & _)%list_elem_of_fmap.
  apply lower_char_idem.
Qed.

(** X1.  The generated name has no capital letter, and converting a name
    that is already generated changes nothing. *)
Theorem camelcase_to_c_lowercase_idempotent (name : string) :
  (forall c, c ∈ chars (camelcase_to_c name) -> is_upper c = false)
  /\ camelcase_to_c (camelcase_to_c name) = camelcase_to_c name.
Proof.
  split.
  - intros c Hc. apply lower_char_fixed_not_upper.
    by apply (proj1 (Forall_forall _ _) (camelcase_to_c_lowered name)).
  - apply camelcase_to_c_fixed, camelcase_to_c_lowered.
Qed.

Lemma sub_lower_upper_cons a b r :
  sub_lower_upper (a :: b :: r)
  = if is_lower_or_digit a && is_upper b
    then a :: "_"%char :: b :: sub_lower_upper r
    else a :: sub_lower_upper (b :: r).
Proof. done. Qed.

Lemma filter_cons_congr {A} (P : A -> Prop) `{forall x, Decision (P x)}
    x l1 l2 :
  filter P l1 = filter P l2 -> filter P (x :: l1) = filter P (x :: l2).
Proof. intros Hl. rewrite !filter_cons. by rewrite Hl. Qed.

Lemma filter_underscore l :
  filter (fun c => c <> "_"%char) ("_"%char :: l)
  = filter (fun c => c <> "_"%char) l.
Proof. by rewrite filter_cons_False by (intros H; by apply H). Qed.

(** The characters of a name other than the inserted separator. *)
Lemma filter_sub_lower_upper l :
  filter (fun c => c <> "_"%char) (sub_lower_upper l)
  = filter (fun c => c <> "_"%char) l.
Proof.
  remember (length l) as n eqn:Hn. revert l Hn.
  induction n as [n IH] using lt_wf_ind. intros l ->.
  destruct l as [|a [|b r]]; [done|done|].
  rewrite sub_lower_upper_cons.
  destruct (is_lower_or_digit a && is_upper b).
  - apply filter_cons_congr. rewrite filter_underscore.
    apply filter_cons_congr. apply (IH (length r)); [simpl; lia|done].
  - apply filter_cons_congr. apply (IH (length (b :: r))); [simpl; lia|done].
Qed.

Lemma length_sub_lower_upper l : length l <= length (sub_lower_upper l).
Proof.
  remember (length l) as n eqn:Hn. revert l Hn.
  induction n as [n IH] using lt_wf_ind. intros l ->.
  destruct l as [|a [|b r]]; [done|done|].
  rewrite sub_lower_upper_cons.
  destruct (is_lower_or_digit a && is_upper b).
  - pose proof (IH (length r) ltac:(simpl; lia) r eq_refl). simpl. lia.
  - pose proof (IH (length (b :: r)) ltac:(simpl; lia) (b :: r) eq_refl).
    simpl in *. lia.
Qed.

Lemma span_upper_app l run rest :
  span_upper l = (run, rest) -> l = run ++ rest.
Proof.
  revert run rest. induction l as [|c r IH]; intros run rest.
  - by intros [= <- <-].
  - cbn [span_upper]. destruct (is_upper c); [|by intros [= <- <-]].
    destruct (span_upper r) as [u rest'] eqn:Hr.
    intros [= <- <-]. simpl. f_equal. by apply IH.
Qed.

Lemma filter_sub_acronym fuel l :
  filter (fun c => c <> "_"%char) (sub_acronym fuel l)
  = filter (fun c => c <> "_"%char) l.
Proof.
  revert l. induction fuel as [|fuel IH]; intros l; [done|].
  destruct l as [|c r]; [done|].
  cbn [sub_acronym].
  destruct (span_upper (c :: r)) as [run rest] eqn:Hspan.
  apply span_upper_app in Hspan.
  destruct rest as [|d rest'].
  - by apply filter_cons_congr.
  - destruct ((2 <=? length run)%nat && is_lower d).
    + rewrite Hspan.
      replace (run ++ d :: rest')
        with (take (length run - 1) run
              ++ drop (length run - 1) run ++ d :: rest')
        by (by rewrite app_assoc, take_drop).
      rewrite !filter_app. f_equal.
      rewrite filter_underscore, !filter_app. f_equal.
      by apply filter_cons_congr.
    + by apply filter_cons_congr.
Qed.

Lemma length_sub_acronym fuel l : length l <= length (sub_acronym fuel l).
Proof.
  revert l. induction fuel as [|fuel IH]; intros l; [done|].
  destruct l as [|c r]; [done|].
  cbn [sub_acronym].
  destruct (span_upper (c :: r)) as [run rest] eqn:Hspan.
  apply span_upper_app in Hspan.
  destruct rest as [|d rest'].
  - specialize (IH r). simpl. lia.
  - destruct ((2 <=? length run)%nat && is_lower d).
    + rewrite Hspan. specialize (IH rest').
      pose proof (f_equal length (take_drop (length run - 1) run)) as Hrun.
      rewrite length_app in Hrun.
      rewrite !length_app. simpl. rewrite !length_app. simpl. lia.
    + specialize (IH r). simpl. lia.
Qed.

Lemma filter_map_lower_char l :
  filter (fun c => c <> "_"%char) (map lower_char l)
  = map lower_char (filter (fun c => c <> "_"%char) l).
Proof.
  induction l as [|c l IH]; [done|]. cbn [map].
  rewrite !filter_cons.
  destruct (decide (c <> "_"%char)) as [Hc|Hc].
  - rewrite decide_True by (by rewrite lower_char_underscore).
    cbn [map]. by rewrite IH.
  - rewrite decide_False by (by rewrite lower_char_underscore). done.
Qed.

Lemma filter_camelcase_to_c name :
  filter (fun c => c <> "_"%char) (chars (camelcase_to_c name))
  = map lower_char (filter (fun c => c <> "_"%char) (chars name)).
Proof.
  unfold camelcase_to_c, lower. cbv zeta.
  rewrite chars_str, filter_map_lower_char, chars_str.
  by rewrite filter_sub_acronym, filter_sub_lower_upper.
Qed.

(** X2.  The conversion only inserts separators and lowers letters:
    without its underscores, the generated name is the lowered name
    without its underscores, and it is never shorter than the name. *)
Theorem camelcase_to_c_inserts_underscores (name : string) :
  filter (fun c => c <> "_"%char) (chars (camelcase_to_c name))
  = map lower_char (filter (fun c => c <> "_"%char) (chars name))
  /\ String.length name <= String.length (camelcase_to_c name).
Proof.
  split; [apply filter_camelcase_to_c|].
  rewrite <- !length_chars. unfold camelcase_to_c, lower. cbv zeta.
  rewrite chars_str, length_map, chars_str.
  etrans; [apply length_sub_lower_upper|apply length_sub_acronym].
Qed.

Lemma break_on_app sep l1 l2 :
  sep ∉ l1 -> break_on sep (l1 ++ sep :: l2) = Some (l1, l2).
Proof.
  induction l1 as [|c r IH]; intros Hsep.
  - simpl. by destruct (ascii_dec sep sep).
  - simpl. destruct (ascii_dec c sep) as [->|_].
    + exfalso. apply Hsep. left.
    + rewrite IH; [done|]. intros ?. apply Hsep. by right.
Qed.

Lemma break_on_Some sep l a b :
  break_on sep l = Some (a, b) -> (sep ∉ a) /\ l = a ++ sep :: b.
Proof.
  revert a. induction l as [|c r IH]; intros a; [done|]. simpl.
  destruct (ascii_dec c sep) as [->|Hne].
  - intros [= <- <-]. split; [apply not_elem_of_nil|done].
  - destruct (break_on sep r) as [[a' b']|]; [|done].
    intros [= <- <-]. destruct (IH a' eq_refl) as [Ha ->].
    split; [|done]. by intros [?|?]%elem_of_cons.
Qed.

Lemma break_on_None sep l : break_on sep l = None -> sep ∉ l.
Proof.
  induction l as [|c r IH]; [intros _; apply not_elem_of_nil|]. simpl.
  destruct (ascii_dec c sep) as [->|Hne]; [done|].
  destruct (break_on sep r) as [[a' b']|]; [done|].
  intros _ [?|?]%elem_of_cons; [done|]. by apply IH.
Qed.

Lemma elem_of_rev {A} (x : A) l : x ∈ rev l <-> x ∈ l.
Proof. rewrite !list_elem_of_In. symmetry. apply in_rev. Qed.

Lemma str_app x y : str (x ++ y) = str x +:+ str y.
Proof.
  induction x as [|c x IH]; [done|].
  change (String c (str (x ++ y)) = String c (str x +:+ str y)).
  by rewrite IH.
Qed.

Lemma rsplit1_join sep a b :
  sep ∉ chars b ->
  rsplit1 sep (a +:+ String sep "" +:+ b) = Some (a, b).
Proof.
  intros Hb. unfold rsplit1.
  rewrite !chars_append. cbn [chars list_ascii_of_string].
  rewrite !rev_app_distr. cbn [rev app]. rewrite <- app_assoc. cbn [app].
  rewrite break_on_app by (by rewrite elem_of_rev).
  by rewrite !rev_involutive, !str_chars.
Qed.

Lemma rsplit1_Some sep s a b :
  rsplit1 sep s = Some (a, b) ->
  (sep ∉ chars b) /\ s = a +:+ String sep "" +:+ b.
Proof.
  unfold rsplit1.
  destruct (break_on sep (rev (chars s))) as [[after_rev before_rev]|] eqn:Hb;
    [|done].
  intros [= <- <-]. apply break_on_Some in Hb as [Hsep Hrev].
  split.
  - by rewrite chars_str, elem_of_rev.
  - rewrite <- (str_chars s), <- (rev_involutive (chars s)), Hrev.
    rewrite rev_app_distr. cbn [rev]. rewrite <- app_assoc. cbn [app].
    by rewrite !str_app.
Qed.

Lemma rsplit1_None sep s : rsplit1 sep s = None -> sep ∉ chars s.
Proof.
  unfold rsplit1.
  destruct (break_on sep (rev (chars s))) as [[? ?]|] eqn:Hb; [done|].
  intros _. apply break_on_None in Hb. by rewrite elem_of_rev in Hb.
Qed.

Lemma camelcase_to_c_no_dot name :
  "."%char ∉ chars name -> "."%char ∉ chars (camelcase_to_c name).
Proof.
  intros Hname Hdot.
  assert (Hin : "."%char
                ∈ filter (fun c => c <> "_"%char) (chars (camelcase_to_c name)))
    by (by apply list_elem_of_filter).
  rewrite (filter_camelcase_to_c name) in Hin.
  apply list_elem_of_fmap in Hin as (c & Hc & Hin).
  symmetry in Hc. apply lower_char_dot in Hc as ->.
  by apply list_elem_of_filter in Hin as [_ Hin].
Qed.

Lemma replace_no_dot s :
  "."%char ∉ chars (replace "."%char "__" s).
Proof.
  unfold replace. rewrite chars_str.
  induction (chars s) as [|c r IH]; [apply not_elem_of_nil|].
  cbn [map mjoin]. intros [Hin|Hin]%elem_of_app; [|done].
  destruct (ascii_dec c "."%char) as [->|Hne].
  - by repeat (apply elem_of_cons in Hin as [Hin|Hin]; [done|]);
      apply not_elem_of_nil in Hin.
  - by apply list_elem_of_singleton in Hin as <-.
Qed.

(** X3.  The canonical name of [package.Type], whatever the dots of the
    package, is the package with its dots doubled into separators, a
    double separator, and the snake-cased type; and a canonical name
    never contains a dot. *)
Theorem iop_type_to_c_qualified :
  (forall pkg type_name,
      "."%char ∉ chars type_name ->
      iop_type_to_c (pkg +:+ "." +:+ type_name)
      = replace "."%char "__" pkg +:+ "__" +:+ camelcase_to_c type_name)
  /\ (forall qualified_name,
        "."%char ∉ chars (iop_type_to_c qualified_name)).
Proof.
  split.
  - intros pkg type_name Hdot. unfold iop_type_to_c.
    by rewrite (rsplit1_join "."%char pkg type_name Hdot).
  - intros q. unfold iop_type_to_c.
    destruct (rsplit1 "."%char q) as [[pkg t]|] eqn:Hq.
    + apply rsplit1_Some in Hq as [Ht _].
      rewrite !chars_append.
      intros [Hin|[Hin|Hin]%elem_of_app]%elem_of_app.
      * by apply replace_no_dot in Hin.
      * by repeat (apply elem_of_cons in Hin as [Hin|Hin]; [done|]);
          apply not_elem_of_nil in Hin.
      * by apply camelcase_to_c_no_dot in Hin.
    + apply camelcase_to_c_no_dot. by apply rsplit1_None.
Qed.

Lemma iop_type_to_c_qualified_witness :
  ("."%char ∉ chars "ClassDso")
  /\ iop_type_to_c ("test.dso" +:+ "." +:+ "ClassDso")
     = replace "."%char "__" "test.dso" +:+ "__" +:+ camelcase_to_c "ClassDso".
Proof.
  assert (Hdot : "."%char ∉ chars "ClassDso")
    by (apply (bool_decide_unpack _); reflexivity).
  split; [exact Hdot|].
  exact (proj1 iop_type_to_c_qualified "test.dso" "ClassDso" Hdot).
Defined.

End mangler_laws.

(** ** Generated identifiers *)

Section generated_names.
Import PyStr CMapping Index.

Lemma strip_suffix_append base suffix :
  suffix ∈ C_TYPE_SUFFIXES ->
  strip_suffix C_TYPE_SUFFIXES (base +:+ suffix) = base.
Proof.
  intros Hs. unfold C_TYPE_SUFFIXES in *.
  repeat (apply elem_of_cons in Hs as [->|Hs]);
    [..|by apply not_elem_of_nil in Hs];
    cbn [strip_suffix]; rewrite ?endswith_append; cbn;
    apply drop_back_append.
Qed.

(** X4.  Cutting the suffix undoes appending it: for every suffix of the
    table and every base, the base with the suffix appended strips back to
    the base.  An identifier that ends with none of the suffixes is left
    as it is. *)
Theorem strip_suffix_appended :
  (forall base suffix,
      suffix ∈ C_TYPE_SUFFIXES ->
      strip_suffix C_TYPE_SUFFIXES (base +:+ suffix) = base)
  /\ (forall c_ident,
        (forall suffix, suffix ∈ C_TYPE_SUFFIXES ->
                        endswith c_ident suffix = false) ->
        strip_suffix C_TYPE_SUFFIXES c_ident = c_ident).
Proof.
  split; [apply strip_suffix_append|].
  intros c_ident Hnone. unfold C_TYPE_SUFFIXES in *.
  cbn [strip_suffix].
  rewrite !Hnone; [done|..]; repeat first [left|right].
Qed.

Lemma strip_suffix_appended_witness :
  "__opt_t" ∈ C_TYPE_SUFFIXES
  /\ strip_suffix C_TYPE_SUFFIXES ("tstiop__my_struct_a" +:+ "__opt_t")
     = "tstiop__my_struct_a".
Proof.
  assert (Hin : "__opt_t" ∈ C_TYPE_SUFFIXES) by (right; left).
  split; [exact Hin|].
  exact (proj1 strip_suffix_appended "tstiop__my_struct_a" "__opt_t" Hin).
Defined.

(** X5.  A symbol just added is found again from each of its generated
    identifiers: its canonical name followed by any suffix of the table,
    and its [@ctype] override when it has one. *)
Theorem resolve_c_identifier_added (s : Symbol) (idx : SymbolIndex) :
  (forall suffix,
      suffix ∈ C_TYPE_SUFFIXES ->
      resolve_c_identifier (add_symbol s idx)
        (iop_type_to_c (qualified_name s) +:+ suffix) = Some s)
  /\ (forall c, ctype s = Some c -> c <> "" ->
                resolve_c_identifier (add_symbol s idx) c = Some s).
Proof.
  split.
  - intros suffix Hs. unfold resolve_c_identifier.
    rewrite strip_suffix_append by done. simpl.
    rewrite lookup_c_name_add, decide_True; [done|]. left.
  - intros c Hc Hne. unfold resolve_c_identifier. simpl.
    rewrite lookup_c_name_add, decide_True; [done|].
    unfold c_keys, ctype_base. rewrite Hc, truthy_nonempty by done.
    right. left.
Qed.

Lemma resolve_c_identifier_added_witness :
  "__t" ∈ C_TYPE_SUFFIXES
  /\ resolve_c_identifier (add_symbol (common_of "foo" "/a.iop") empty_index)
       ("foo__common" +:+ "__t")
     = Some (common_of "foo" "/a.iop").
Proof.
  assert (Hin : "__t" ∈ C_TYPE_SUFFIXES) by (do 4 right; left).
  split; [exact Hin|].
  exact (proj1 (resolve_c_identifier_added (common_of "foo" "/a.iop")
                  empty_index) "__t" Hin).
Defined.

End generated_names.

(** ** More on name resolution *)

Section resolve_laws.
Import PyStr CMapping Index.

Lemma builtin_no_dot n : is_builtin n = true -> contains "."%char n = false.
Proof.
  unfold is_builtin, BUILTIN_TYPES. intros Hn%bool_decide_eq_true.
  repeat (apply elem_of_cons in Hn as [->|Hn]; [reflexivity|]).
  by apply not_elem_of_nil in Hn.
Qed.

Lemma contains_join a b : contains "."%char (a +:+ "." +:+ b) = true.
Proof.
  unfold contains. apply bool_decide_eq_true.
  rewrite !chars_append. apply elem_of_app. right. left.
Qed.


Lemma find_in_package_sound p syms s :
  find_in_package p syms = Some s -> s ∈ syms /\ package s = p.
Proof.
  intros [Hin Hn]%find_some. apply bool_decide_eq_true in Hn.
  by rewrite list_elem_of_In.
Qed.





(** X7.  A symbol just added is found by its qualified name whenever that
    name has a dot, as every extracted symbol's has.  By its simple name,
    asked from its own package, a declaration of that package is found:
    the symbol itself unless an older one of that name and package is
    still indexed. *)
Theorem resolve_added (s : Symbol) (idx : SymbolIndex)
    (cp : option string) :
  (contains "."%char (qualified_name s) = true ->
   resolve (add_symbol s idx) (qualified_name s) cp = Some s)
  /\ (contains "."%char (name s) = false ->
      is_builtin (name s) = false ->
      package s <> "" ->
      let older := default [] (OD.get (name s) (by_name idx)) in
      (exists c, resolve (add_symbol s idx) (name s) (Some (package s))
                 = Some c
                 /\ package c = package s /\ c ∈ older ++ [s])
      /\ ((forall c, c ∈ older -> package c <> package s) ->
          resolve (add_symbol s idx) (name s) (Some (package s)) = Some s)).
Proof.
  split.
  - intros Hdot. unfold resolve.
    destruct (is_builtin (qualified_name s)) eqn:Hb.
    { apply builtin_no_dot in Hb. congruence. }
    rewrite Hdot. simpl. by rewrite lookup_insert_eq.
  - intros Hdot Hb Hp older.
    assert (Hres : resolve (add_symbol s idx) (name s) (Some (package s))
                   = match older ++ [s] with
                     | [] => None
                     | [c] => Some c
                     | c0 :: _ =>
                         match find_in_package (package s) (older ++ [s]) with
                         | Some c => Some c
                         | None => Some c0
                         end
                     end).
    { unfold resolve. rewrite Hb, Hdot. simpl. unfold name_add.
      rewrite od_get_set, decide_True by done. simpl. fold older.
      by rewrite truthy_nonempty. }
    assert (Hfind : exists c, find_in_package (package s) (older ++ [s])
                              = Some c).
    { destruct (find_in_package (package s) (older ++ [s])) as [c|] eqn:Hf;
        [by exists c|].
      exfalso.
      assert (In s (older ++ [s])) as Hin
        by (apply in_or_app; right; left; done).
      pose proof (find_none _ _ Hf s Hin) as Hs. simpl in Hs.
      by apply bool_decide_eq_false in Hs. }
    destruct Hfind as (c & Hfind).
    assert (Hc : resolve (add_symbol s idx) (name s) (Some (package s))
                 = Some c).
    { rewrite Hres, Hfind. destruct older as [|c0 [|c1 more]]; simpl.
      - simpl in Hfind. rewrite bool_decide_eq_true_2 in Hfind by done.
        done.
      - done.
      - done. }
    split.
    + exists c. split; [done|].
      apply find_in_package_sound in Hfind as [? ?]. done.
    + intros Hnone. rewrite Hc. f_equal.
      apply find_in_package_sound in Hfind as [Hin Hpc].
      apply elem_of_app in Hin as [Hin|Hin].
      * by destruct (Hnone c Hin).
      * by apply list_elem_of_singleton in Hin.
Qed.

Lemma resolve_added_witness :
  contains "."%char (qualified_name (common_of "foo" "/a.iop")) = true
  /\ resolve (add_symbol (common_of "foo" "/a.iop") empty_index)
       "foo.Common" None
     = Some (common_of "foo" "/a.iop").
Proof.
  split; [reflexivity|].
  exact (proj1 (resolve_added (common_of "foo" "/a.iop") empty_index None)
           eq_refl).
Defined.

End resolve_laws.

(** ** More on removal and indexing *)

Section index_laws.
Import PyStr CMapping Index Extract Indexer.
Implicit Types (idx : SymbolIndex).

Lemma index_eq idx1 idx2 :
  by_name idx1 = by_name idx2 ->
  by_qualified_name idx1 = by_qualified_name idx2 ->
  by_package idx1 = by_package idx2 ->
  by_file idx1 = by_file idx2 ->
  package_of_file idx1 = package_of_file idx2 ->
  by_c_name idx1 = by_c_name idx2 ->
  idx1 = idx2.
Proof. destruct idx1, idx2. simpl. by intros -> -> -> -> -> ->. Qed.

Lemma not_from_comm f g l :
  not_from f (not_from g l) = not_from g (not_from f l).
Proof.
  unfold not_from. induction l as [|x l IH]; [done|].
  rewrite !(filter_cons _ x l).
  destruct (decide (file x <> g)), (decide (file x <> f));
    rewrite ?filter_cons_True, ?filter_cons_False by done; by rewrite IH.
Qed.

Lemma purge_bucket_comm f g (o : option (list Symbol)) :
  (o ≫= purge_bucket f) ≫= purge_bucket g
  = (o ≫= purge_bucket g) ≫= purge_bucket f.
Proof.
  destruct o as [l|]; [|done]. simpl. unfold purge_bucket.
  destruct (not_from f l) as [|x kf] eqn:Hf;
    destruct (not_from g l) as [|y kg] eqn:Hg; simpl; try done.
  - rewrite <- Hg, not_from_comm, Hf. done.
  - rewrite <- Hf, not_from_comm, Hg. done.
  - rewrite <- Hf, <- Hg, (not_from_comm g f). done.
Qed.

Lemma omap_purge_cons f n l (r : list (string * list Symbol)) :
  omap (purge_entry f) ((n, l) :: r)
  = match purge_bucket f l with
    | Some kept => (n, kept) :: omap (purge_entry f) r
    | None => omap (purge_entry f) r
    end.
Proof.
  rewrite omap_cons, purge_entry_bucket. by destruct (purge_bucket f l).
Qed.

Lemma purge_entry_comm f g (d : list (string * list Symbol)) :
  omap (purge_entry f) (omap (purge_entry g) d)
  = omap (purge_entry g) (omap (purge_entry f) d).
Proof.
  induction d as [|[n l] r IH]; [done|].
  rewrite !(omap_purge_cons _ n l).
  pose proof (purge_bucket_comm f g (Some l)) as Hcomm.
  cbn [mbind option_bind] in Hcomm.
  destruct (purge_bucket g l) as [lg|] eqn:Hg;
    destruct (purge_bucket f l) as [lf|] eqn:Hf;
    cbn [mbind option_bind] in Hcomm;
    rewrite ?omap_purge_cons, ?IH.
  - by rewrite Hcomm.
  - by rewrite <- Hcomm.
  - by rewrite Hcomm.
  - done.
Qed.



(** X8.  Removing a file twice is removing it once, and removing a file
    that has no entries changes nothing; in an index built by the
    indexer, two files can be removed in either order. *)
Theorem remove_file_twice_and_order :
  (forall filepath idx,
      remove_file filepath (remove_file filepath idx)
      = remove_file filepath idx)
  /\ (forall filepath idx,
        by_file idx !! filepath = None ->
        package_of_file idx !! filepath = None ->
        remove_file filepath idx = idx)
  /\ (forall f g idx,
        reachable idx ->
        remove_file f (remove_file g idx) = remove_file g (remove_file f idx)).
Proof.
  split; [|split].
  - intros filepath idx. apply remove_file_absent.
    + rewrite remove_file_by_file. apply lookup_delete_eq.
    + rewrite remove_file_package_of_file. apply lookup_delete_eq.
  - apply remove_file_absent.
  - intros f g idx Hr. destruct (decide (f = g)) as [->|Hne]; [done|].
    pose proof (reachable_consistent _ Hr) as Hc.
    pose proof (remove_file_consistent f idx Hc) as Hcf.
    pose proof (remove_file_consistent g idx Hc) as Hcg.
    apply index_eq.
    + rewrite !remove_file_by_name by done. apply purge_entry_comm.
    + apply map_eq. intros q.
      rewrite !remove_file_by_qualified_name, !remove_file_by_file.
      rewrite !lookup_delete_ne by done.
      by repeat destruct (decide _).
    + apply map_eq. intros p.
      rewrite !remove_file_by_package by done.
      symmetry. apply purge_bucket_comm.
    + rewrite !remove_file_by_file. apply delete_delete.
    + rewrite !remove_file_package_of_file. apply delete_delete.
    + apply map_eq. intros k.
      rewrite !remove_file_by_c_name, !remove_file_by_file.
      rewrite !lookup_delete_ne by done.
      by repeat destruct (decide _).
Qed.

Lemma remove_file_twice_and_order_witness :
  reachable foo_bar_index
  /\ remove_file "/a.iop" (remove_file "/b.iop" foo_bar_index)
     = remove_file "/b.iop" (remove_file "/a.iop" foo_bar_index).
Proof.
  assert (Hr : reachable foo_bar_index).
  { apply (index_source_reachable id Samples.parse "/b.iop"
             Samples.bar_common_src foo_index foo_index_reachable).
    by vm_compute. }
  split; [exact Hr|].
  exact (proj2 (proj2 remove_file_twice_and_order) "/a.iop" "/b.iop"
           foo_bar_index Hr).
Defined.



Lemma add_all_app l1 l2 idx :
  add_all (l1 ++ l2) idx = add_all l2 (add_all l1 idx).
Proof. unfold add_all. apply foldl_app. Qed.

Lemma named_add_symbol y idx s :
  (exists l, OD.get (name s) (by_name idx) = Some l /\ s ∈ l) ->
  exists l, OD.get (name s) (by_name (add_symbol y idx)) = Some l /\ s ∈ l.
Proof.
  intros (l & Hl & Hs). simpl. unfold name_add. rewrite od_get_set.
  destruct (decide (name s = name y)) as [Hn|_]; [|by exists l].
  eexists. split; [done|]. rewrite <- Hn, Hl. apply elem_of_app. by left.
Qed.

Lemma packaged_add_symbol y idx s :
  (exists l, by_package idx !! package s = Some l /\ s ∈ l) ->
  exists l, by_package (add_symbol y idx) !! package s = Some l /\ s ∈ l.
Proof.
  intros (l & Hl & Hs). simpl. rewrite lookup_bucket_add.
  destruct (decide (package s = package y)) as [Hn|_]; [|by exists l].
  eexists. split; [done|]. rewrite <- Hn, Hl. apply elem_of_app. by left.
Qed.

Lemma named_add_all syms idx s :
  (exists l, OD.get (name s) (by_name idx) = Some l /\ s ∈ l) ->
  exists l, OD.get (name s) (by_name (add_all syms idx)) = Some l /\ s ∈ l.
Proof.
  revert idx. induction syms as [|y r IH]; intros idx Hs; [done|].
  rewrite add_all_cons. by apply IH, named_add_symbol.
Qed.

Lemma packaged_add_all syms idx s :
  (exists l, by_package idx !! package s = Some l /\ s ∈ l) ->
  exists l, by_package (add_all syms idx) !! package s = Some l /\ s ∈ l.
Proof.
  revert idx. induction syms as [|y r IH]; intros idx Hs; [done|].
  rewrite add_all_cons. by apply IH, packaged_add_symbol.
Qed.

Lemma extracted_qualified_name f filepath p s :
  _extract_symbol f filepath p = Some s ->
  qualified_name s = p +:+ "." +:+ name s.
Proof.
  unfold _extract_symbol. destruct (node_kind _); [|done].
  destruct (name_node _); [|done]. by intros [= <-].
Qed.

Section one_file.
Variable abspath : string -> string.
Variable path_join : string -> string -> string.
Variable parse : string -> Node.

(** X10.  After [index_source] the file's package is the one its content
    declares (none when it declares none) and its bucket holds exactly
    the extracted symbols in declaration order.  A declared symbol is
    found by its qualified name, through the view and through [resolve],
    unless a later declaration of the file has the same qualified name;
    and it is found in the views by name and by package. *)
Theorem index_source_post (filepath source : string) (idx : SymbolIndex) :
  let path := abspath filepath in
  let idx' := index_source abspath parse filepath source idx in
  package_of_file idx' !! path = package_of_root (parse source)
  /\ default [] (by_file idx' !! path)
     = match package_of_root (parse source) with
       | Some p => symbols_of_root (parse source) path p
       | None => []
       end
  /\ (forall p earlier s later cp,
         package_of_root (parse source) = Some p ->
         symbols_of_root (parse source) path p = earlier ++ s :: later ->
         (qualified_name s ∉ map qualified_name later ->
          by_qualified_name idx' !! qualified_name s = Some s
          /\ resolve idx' (qualified_name s) cp = Some s)
         /\ (exists l, OD.get (name s) (by_name idx') = Some l /\ s ∈ l)
         /\ (exists l, by_package idx' !! p = Some l /\ s ∈ l)).
Proof.
  intros path idx'. unfold idx', index_source. fold path.
  rewrite index_source_add_all.
  destruct (package_of_root (parse source)) as [p|] eqn:Hp.
  - pose proof (symbols_of_root_file (parse source) path p) as Hsyms.
    split; [|split].
    + rewrite add_all_package_of_file. simpl. apply lookup_insert_eq.
    + rewrite (add_all_file_symbols path p) by done. simpl.
      by rewrite remove_file_by_file, lookup_delete_eq.
    + intros p' earlier s later cp [= <-] Hsplit.
      assert (Hs : file s = path /\ package s = p)
        by (apply Hsyms; rewrite Hsplit; apply elem_of_app; right; left).
      rewrite Hsplit, add_all_app, add_all_cons.
      set (before_s := add_all earlier _).
      destruct (in_all_views_add s before_s) as (Hn & _ & Hpk & _).
      split; [|split].
      * intros Hlater.
        assert (Hq : by_qualified_name
                       (add_all later (add_symbol s before_s))
                     !! qualified_name s = Some s).
        { rewrite add_all_by_qualified_name_other by done.
          simpl. apply lookup_insert_eq. }
        split; [done|]. unfold resolve.
        assert (Hdot : contains "."%char (qualified_name s) = true).
        { assert (Hin : s ∈ symbols_of_root (parse source) path p)
            by (rewrite Hsplit; apply elem_of_app; right; left).
          unfold symbols_of_root in Hin.
          apply list_elem_of_omap in Hin as (c & _ & Hc).
          rewrite (extracted_qualified_name _ _ _ _ Hc).
          apply contains_join. }
        destruct (is_builtin (qualified_name s)) eqn:Hb.
        { apply builtin_no_dot in Hb. congruence. }
        by rewrite Hdot, Hq.
      * by apply named_add_all.
      * destruct Hs as [_ <-]. by apply packaged_add_all.
  - split; [|split].
    + rewrite remove_file_package_of_file. apply lookup_delete_eq.
    + by rewrite remove_file_by_file, lookup_delete_eq.
    + by intros p' earlier s later cp.
Qed.

(** X11.  Indexing a file and removing it again gives, in the views by
    name, by package and by file and in the package mapping, what
    removing it alone gives; the one-to-one views agree outside the keys
    the file's symbols wrote. *)
Theorem index_then_remove (filepath source : string) (idx : SymbolIndex) :
  reachable idx ->
  named_package (parse source) ->
  let path := abspath filepath in
  let indexed := index_source abspath parse filepath source idx in
  let syms := default [] (by_file indexed !! path) in
  by_name (remove_file path indexed) = by_name (remove_file path idx)
  /\ by_package (remove_file path indexed) = by_package (remove_file path idx)
  /\ by_file (remove_file path indexed) = by_file (remove_file path idx)
  /\ package_of_file (remove_file path indexed)
     = package_of_file (remove_file path idx)
  /\ (forall q, q ∉ map qualified_name syms ->
                by_qualified_name (remove_file path indexed) !! q
                = by_qualified_name (remove_file path idx) !! q)
  /\ (forall k, k ∉ concat (map c_keys syms) ->
                by_c_name (remove_file path indexed) !! k
                = by_c_name (remove_file path idx) !! k).
Proof.
  intros Hr Hnamed path indexed syms.
  pose proof (index_source_reachable abspath parse filepath source idx
                Hr Hnamed) as Hri.
  pose proof (reachable_consistent _ Hr) as Hc.
  pose proof (reachable_consistent _ Hri) as Hci.
  pose proof (remove_file_consistent path idx Hc) as Hcr.
  fold indexed in Hci. unfold syms. clear syms.
  unfold indexed, index_source in *. fold path in Hci |- *.
  rewrite index_source_add_all in *.
  destruct (package_of_root (parse source)) as [p|] eqn:Hp.
  - pose proof (symbols_of_root_file (parse source) path p) as Hsyms.
    set (syms := symbols_of_root (parse source) path p) in *.
    set (removed := remove_file path idx) in *.
    set (recorded := record_package path p removed) in *.
    assert (Hsymbols : default [] (by_file (add_all syms recorded) !! path)
                       = syms).
    { rewrite (add_all_file_symbols path p) by done. simpl.
      unfold removed. by rewrite remove_file_by_file, lookup_delete_eq. }
    rewrite Hsymbols.
    split; [|split; [|split; [|split; [|split]]]].
    + rewrite remove_file_by_name by done.
      rewrite (add_all_by_name_purged path p) by done. simpl.
      unfold removed. rewrite remove_file_by_name by done. apply purge_idem.
    + apply map_eq. intros q. rewrite remove_file_by_package by done.
      rewrite (add_all_by_package_purged path p) by done. simpl.
      unfold removed. rewrite remove_file_by_package by done.
      destruct (by_package idx !! q) as [l|]; [|done]. simpl.
      destruct (purge_bucket path l) as [l'|] eqn:Hl'; [|done]. simpl.
      by apply purge_bucket_idem in Hl'.
    + rewrite remove_file_by_file.
      rewrite (add_all_by_file_deleted path p) by done. simpl.
      unfold removed. rewrite remove_file_by_file. apply delete_delete_eq.
    + rewrite remove_file_package_of_file, add_all_package_of_file. simpl.
      rewrite delete_insert_eq. unfold removed.
      rewrite remove_file_package_of_file. apply delete_delete_eq.
    + intros q Hq. rewrite remove_file_by_qualified_name, Hsymbols.
      rewrite decide_False by done.
      by rewrite add_all_by_qualified_name_other.
    + intros k Hk. rewrite remove_file_by_c_name, Hsymbols.
      rewrite decide_False by done.
      by rewrite add_all_by_c_name_other.
  - rewrite remove_file_absent.
    + done.
    + rewrite remove_file_by_file. apply lookup_delete_eq.
    + rewrite remove_file_package_of_file. apply lookup_delete_eq.
Qed.

(** One directory of the walk, then the walk, as a run over paths. *)
Lemma index_workspace_dir decodes read (filenames : list string) dirpath o :
  foldl (fun o fname =>
           and_then o (fun index =>
             if endswith fname ".iop"
             then index_file abspath parse decodes read
                    (path_join dirpath fname) index
             else Returned index))
        o filenames
  = foldl (fun o path =>
             and_then o (index_file abspath parse decodes read path))
      o (map (path_join dirpath)
             (filter (fun fname => endswith fname ".iop" = true) filenames)).
Proof.
  revert o. induction filenames as [|fname r IH]; intros o; [done|].
  cbn [foldl]. rewrite IH, filter_cons.
  destruct (endswith fname ".iop") eqn:Hiop.
  - by rewrite decide_True.
  - rewrite decide_False by done. by destruct o.
Qed.

Lemma index_workspace_paths decodes read walk idx :
  index_workspace abspath path_join parse decodes read walk idx
  = index_files abspath parse decodes read (iop_paths path_join walk) idx.
Proof.
  unfold index_workspace, index_files, iop_paths.
  generalize (Returned idx) as o.
  induction walk as [|[dirpath filenames] more IH]; intros o; [done|].
  cbn [foldl map concat]. rewrite foldl_app, <- IH.
  by rewrite index_workspace_dir.
Qed.

(** Once a call has raised, no later path is visited. *)
Lemma index_files_raised decodes read paths idx :
  foldl (fun o path =>
           and_then o (index_file abspath parse decodes read path))
        (Raised idx) paths
  = Raised idx.
Proof. induction paths as [|path r IH]; [done|]. exact IH. Qed.

Lemma index_files_snoc decodes read before path idx :
  index_files abspath parse decodes read (before ++ [path]) idx
  = and_then (index_files abspath parse decodes read before idx)
      (index_file abspath parse decodes read path).
Proof. unfold index_files. by rewrite foldl_app. Qed.

(** [index_file] writes under its own path only. *)
Lemma add_extracted_or_raise_frame decodes filepath p (cs : list Focus)
    idx f :
  f <> filepath ->
  by_file (index_of (add_extracted_or_raise decodes filepath p idx cs)) !! f
  = by_file idx !! f
  /\ package_of_file
       (index_of (add_extracted_or_raise decodes filepath p idx cs))
     = package_of_file idx.
Proof.
  intros Hf. revert idx. induction cs as [|c r IH]; intros idx; [done|].
  cbn [add_extracted_or_raise].
  destruct (raises decodes (extract_symbol_reads c)); [done|].
  destruct (IH (add_extracted filepath p idx c)) as [-> ->].
  unfold add_extracted.
  destruct (_extract_symbol c filepath p) as [s|] eqn:Hs; [|done].
  simpl. rewrite lookup_bucket_add.
  destruct (extract_symbol_file _ _ _ _ Hs) as [-> _].
  by rewrite decide_False.
Qed.

Lemma index_file_frame decodes read filepath idx f :
  f <> abspath filepath ->
  let idx' := index_of (index_file abspath parse decodes read filepath idx) in
  by_file idx' !! f = by_file idx !! f
  /\ package_of_file idx' !! f = package_of_file idx !! f.
Proof.
  intros Hf idx'.
  assert (Hremoved :
            by_file (remove_file (abspath filepath) idx) !! f
            = by_file idx !! f
            /\ package_of_file (remove_file (abspath filepath) idx) !! f
               = package_of_file idx !! f).
  { rewrite remove_file_by_file, remove_file_package_of_file.
    by rewrite !lookup_delete_ne. }
  unfold idx', index_file, _index_source_or_raise.
  destruct (read (abspath filepath)) as [source|]; [|done].
  destruct (raises decodes (package_reads (parse source))); [done|].
  destruct (package_of_root (parse source)) as [p|]; [|done].
  destruct (add_extracted_or_raise_frame decodes (abspath filepath) p
              (child_foci (parse source))
              (record_package (abspath filepath) p
                 (remove_file (abspath filepath) idx)) f Hf) as [-> ->].
  simpl. by rewrite lookup_insert_ne.
Qed.

Lemma index_files_frame decodes read paths idx f :
  f ∉ map abspath paths ->
  let idx' := index_of (index_files abspath parse decodes read paths idx) in
  by_file idx' !! f = by_file idx !! f
  /\ package_of_file idx' !! f = package_of_file idx !! f.
Proof.
  induction paths as [|path r IH] using rev_ind; intros Hf idx'; [done|].
  unfold idx'. rewrite index_files_snoc.
  rewrite map_app in Hf. apply not_elem_of_app in Hf as [Hr Hpath].
  destruct (IH Hr) as [Hby Hpkg].
  destruct (index_files abspath parse decodes read r idx) as [idx1|idx1];
    [|done].
  cbn [and_then]. simpl in Hby, Hpkg. rewrite <- Hby, <- Hpkg.
  apply index_file_frame. intros ->. apply Hpath. left.
Qed.

(** X12.  The workspace scan is [index_file] applied, in the order of the
    walk, to the files whose name ends in [.iop] and to no other.  The
    first call that raises ends the scan with the index as that call
    left it, the files after it not being visited; when every text
    decodes the scan returns.  A walk without such a file leaves the
    index as it was, and whatever the outcome, the bucket and the package
    of a path that is not among those files are as before the scan. *)
Theorem index_workspace_files (decodes : Node -> bool)
    (read : string -> option string)
    (walk : list (string * list string)) (idx : SymbolIndex) :
  let paths := iop_paths path_join walk in
  let scan := index_workspace abspath path_join parse decodes read walk idx in
  scan = index_files abspath parse decodes read paths idx
  /\ (forall before path after idx1 idx2,
        paths = before ++ path :: after ->
        index_files abspath parse decodes read before idx = Returned idx1 ->
        index_file abspath parse decodes read path idx1 = Raised idx2 ->
        scan = Raised idx2)
  /\ ((forall n, decodes n = true) -> exists idx', scan = Returned idx')
  /\ (Forall (fun '(_, filenames) =>
                Forall (fun fname => endswith fname ".iop" = false) filenames)
             walk ->
      scan = Returned idx)
  /\ (forall f, f ∉ map abspath paths ->
                by_file (index_of scan) !! f = by_file idx !! f
                /\ package_of_file (index_of scan) !! f
                   = package_of_file idx !! f).
Proof.
  intros paths scan.
  assert (Hscan : scan = index_files abspath parse decodes read paths idx)
    by apply index_workspace_paths.
  split; [done|]. split; [|split; [|split]].
  - intros before path after idx1 idx2 Hpaths Hbefore Hraise.
    rewrite Hscan, Hpaths. unfold index_files in *.
    rewrite foldl_app, Hbefore. cbn [foldl and_then]. rewrite Hraise.
    apply index_files_raised.
  - intros Hd. rewrite Hscan. clear Hscan scan.
    induction paths as [|path r IH] using rev_ind; [by exists idx|].
    destruct IH as [idx1 Hidx1]. rewrite index_files_snoc, Hidx1.
    cbn [and_then]. unfold index_file.
    destruct (read (abspath path)) as [source|] eqn:Hread;
      [|by eexists].
    pose proof (index_file_decodes abspath parse decodes read path source
                  idx1 Hd Hread) as Hrun.
    unfold index_file in Hrun. rewrite Hread in Hrun. by eexists.
  - intros Hnone. rewrite Hscan.
    replace paths with (@nil string); [done|].
    unfold paths, iop_paths. clear Hscan scan paths.
    induction Hnone as [|[dirpath filenames] more Hdir _ IH]; [done|].
    cbn [map concat]. rewrite <- IH, app_nil_r.
    induction Hdir as [|fname r Hf _ IHr]; [done|].
    rewrite filter_cons_False by (rewrite Hf; done). exact IHr.
  - intros f Hf. rewrite Hscan. by apply index_files_frame.
Qed.

Lemma owned_add_all_kept syms idx s : owned idx s -> owned (add_all syms idx) s.
Proof.
  revert idx. induction syms as [|x r IH]; intros idx Ho; [done|].
  rewrite add_all_cons. apply IH, owned_add_symbol. by left.
Qed.

(** X13.  In an index built by the indexer, indexing a file leaves the
    other files alone: every other file keeps its bucket and its package,
    and a symbol of another file stays in the symbol set and in the views
    by name and by package. *)
Theorem index_source_frame (filepath source : string) (idx : SymbolIndex) :
  reachable idx ->
  named_package (parse source) ->
  let idx' := index_source abspath parse filepath source idx in
  (forall f, f <> abspath filepath ->
             by_file idx' !! f = by_file idx !! f
             /\ package_of_file idx' !! f = package_of_file idx !! f)
  /\ (forall s, owned idx s -> file s <> abspath filepath ->
                owned idx' s
                /\ (exists l, OD.get (name s) (by_name idx') = Some l
                              /\ s ∈ l)
                /\ (exists l, by_package idx' !! package s = Some l
                              /\ s ∈ l)).
Proof.
  intros Hr Hnamed idx'.
  pose proof (index_source_reachable abspath parse filepath source idx
                Hr Hnamed) as Hr'.
  pose proof (reachable_consistent _ Hr') as Hc'. fold idx' in Hc'.
  assert (Hidx' : idx' = match package_of_root (parse source) with
                         | Some p =>
                             add_all
                               (symbols_of_root (parse source)
                                  (abspath filepath) p)
                               (record_package (abspath filepath) p
                                  (remove_file (abspath filepath) idx))
                         | None => remove_file (abspath filepath) idx
                         end).
  { unfold idx', index_source. by rewrite index_source_add_all. }
  split.
  - intros f Hf. rewrite Hidx'.
    destruct (package_of_root (parse source)) as [p|].
    + pose proof (symbols_of_root_file (parse source) (abspath filepath) p)
        as Hsyms.
      split.
      * rewrite <- (lookup_delete_ne (by_file (add_all _ _))
                      (abspath filepath) f) by done.
        rewrite (add_all_by_file_deleted (abspath filepath) p) by done.
        simpl. rewrite remove_file_by_file.
        by rewrite !lookup_delete_ne by done.
      * rewrite add_all_package_of_file. simpl.
        rewrite lookup_insert_ne by done.
        rewrite remove_file_package_of_file. by apply lookup_delete_ne.
    + rewrite remove_file_by_file, remove_file_package_of_file.
      by rewrite !lookup_delete_ne.
  - intros s Ho Hfile.
    assert (Ho' : owned idx' s).
    { rewrite Hidx'.
      assert (Hrem : owned (remove_file (abspath filepath) idx) s)
        by (by apply owned_remove_file).
      destruct (package_of_root (parse source)) as [p|]; [|done].
      by apply owned_add_all_kept. }
    split; [done|]. split; [by apply owned_named|by apply owned_packaged].
Qed.

(** X14.  What a file declares is found from its own package once the
    file is indexed: the simple name of a declared symbol resolves, from
    the package of the file, to a symbol of that name and package; and
    the name of a value of a declared enum resolves, from that package,
    to an enum of the package that declares a value of that name. *)
Theorem declared_found_from_own_package (filepath source : string)
    (idx : SymbolIndex) (p : string) (s : Symbol) :
  reachable idx ->
  package_of_root (parse source) = Some p -> p <> "" ->
  s ∈ symbols_of_root (parse source) (abspath filepath) p ->
  let idx' := index_source abspath parse filepath source idx in
  (contains "."%char (name s) = false -> is_builtin (name s) = false ->
   exists c, resolve idx' (name s) (Some p) = Some c
             /\ name c = name s /\ package c = p)
  /\ (forall ev, kind s = ENUM -> ev ∈ enum_values s ->
        exists e ev',
          resolve_enum_value idx' (ev_name ev) (Some p) = Some (e, ev')
          /\ package e = p /\ declares (ev_name ev) e ev').
Proof.
  intros Hr Hp Hne Hs idx'.
  assert (Hnamed : named_package (parse source)).
  { unfold named_package. rewrite Hp. by intros [= ->]. }
  pose proof (index_source_reachable abspath parse filepath source idx
                Hr Hnamed) as Hr'.
  pose proof (reachable_consistent _ Hr') as Hc'. fold idx' in Hc'.
  assert (Ho : owned idx' s).
  { unfold idx', index_source. rewrite index_source_add_all, Hp.
    by apply owned_add_all. }
  destruct (symbols_of_root_file _ _ _ _ Hs) as [_ Hpkg].
  destruct (owned_named idx' Hc' s Ho) as (ln & Hln & Hsn).
  destruct (owned_packaged idx' Hc' s Ho) as (lp & Hlp & Hsp).
  rewrite Hpkg in Hlp. split.
  - intros Hdot Hb. unfold resolve. rewrite Hb, Hdot, Hln. cbn [default id].
    assert (Hsame : forall c, c ∈ ln -> name c = name s).
    { intros c Hc. apply od_get_Some_elem in Hln.
      by destruct (names_owned idx' Hc' _ _ _ Hln Hc). }
    destruct ln as [|c0 [|c1 more]].
    + by apply not_elem_of_nil in Hsn.
    + apply list_elem_of_singleton in Hsn as <-. by exists s.
    + rewrite truthy_nonempty by done.
      destruct (find_in_package p (c0 :: c1 :: more)) as [c|] eqn:Hfind.
      * apply find_in_package_sound in Hfind as [Hin Hcp].
        exists c. split; [done|]. split; [by apply Hsame|done].
      * exfalso. apply list_elem_of_In in Hsn.
        pose proof (find_none _ _ Hfind s Hsn) as Hfalse. simpl in Hfalse.
        by apply bool_decide_eq_false in Hfalse.
  - intros ev Hkind Hev. unfold resolve_enum_value.
    rewrite truthy_nonempty, Hlp by done. cbn [default id].
    destruct (scan_enums (ev_name ev) lp) as [[e ev']|] eqn:Hscan.
    + apply scan_enums_sound in Hscan as [Hin Hd].
      exists e, ev'. split; [done|]. split; [|done].
      by destruct (packages_owned idx' Hc' _ _ _ Hlp Hin).
    + exfalso. apply (proj1 (scan_enums_none _ _) Hscan s ev Hsp).
      by repeat split.
Qed.

End one_file.

Lemma declared_found_from_own_package_witness :
  reachable empty_index
  /\ package_of_root (Samples.parse Samples.pkgA_enum_src) = Some "pkgA"
  /\ "pkgA" <> ""
  /\ enum_of "pkgA" "Mine" "/a.iop"
      ∈ symbols_of_root (Samples.parse Samples.pkgA_enum_src) (id "/a.iop")
          "pkgA"
  /\ exists e ev',
       resolve_enum_value
         (index_source id Samples.parse "/a.iop" Samples.pkgA_enum_src
            empty_index)
         (ev_name x_value) (Some "pkgA")
       = Some (e, ev')
       /\ package e = "pkgA" /\ declares (ev_name x_value) e ev'.
Proof.
  assert (Hp : package_of_root (Samples.parse Samples.pkgA_enum_src)
               = Some "pkgA") by reflexivity.
  assert (Hne : "pkgA" <> "") by done.
  assert (Hs : enum_of "pkgA" "Mine" "/a.iop"
               ∈ symbols_of_root (Samples.parse Samples.pkgA_enum_src)
                   (id "/a.iop") "pkgA") by (vm_compute; left).
  split; [exact reach_empty|]. split; [exact Hp|]. split; [exact Hne|].
  split; [exact Hs|].
  apply (proj2 (declared_found_from_own_package id Samples.parse "/a.iop"
                  Samples.pkgA_enum_src empty_index "pkgA"
                  (enum_of "pkgA" "Mine" "/a.iop") reach_empty Hp Hne Hs)
           x_value); [reflexivity|left].
Defined.

Lemma index_source_frame_witness :
  reachable foo_index
  /\ named_package (Samples.parse Samples.bar_common_src)
  /\ owned foo_index (common_of "foo" "/a.iop")
  /\ file (common_of "foo" "/a.iop") <> id "/b.iop"
  /\ owned foo_bar_index (common_of "foo" "/a.iop").
Proof.
  assert (Hnamed : named_package (Samples.parse Samples.bar_common_src))
    by (by vm_compute).
  assert (Ho : owned foo_index (common_of "foo" "/a.iop")).
  { exists [common_of "foo" "/a.iop"]. split; [by vm_compute|left]. }
  assert (Hfile : file (common_of "foo" "/a.iop") <> id "/b.iop") by done.
  split; [exact foo_index_reachable|]. split; [exact Hnamed|].
  split; [exact Ho|]. split; [exact Hfile|].
  exact (proj1 (proj2 (index_source_frame id Samples.parse "/b.iop"
                         Samples.bar_common_src foo_index
                         foo_index_reachable Hnamed)
                  (common_of "foo" "/a.iop") Ho Hfile)).
Defined.

Lemma index_source_post_witness :
  package_of_root (Samples.parse Samples.foo_common_src) = Some "foo"
  /\ symbols_of_root (Samples.parse Samples.foo_common_src) "/a.iop" "foo"
     = [] ++ common_of "foo" "/a.iop" :: []
  /\ (qualified_name (common_of "foo" "/a.iop") ∉ map qualified_name [])
  /\ resolve foo_index "foo.Common" None = Some (common_of "foo" "/a.iop").
Proof.
  assert (Hnone : qualified_name (common_of "foo" "/a.iop")
                  ∉ map qualified_name []) by apply not_elem_of_nil.
  split; [reflexivity|]. split; [reflexivity|]. split; [exact Hnone|].
  exact (proj2 (proj1 (proj2 (proj2
           (index_source_post id Samples.parse "/a.iop"
              Samples.foo_common_src empty_index))
           "foo" [] (common_of "foo" "/a.iop") [] None eq_refl eq_refl)
           Hnone)).
Defined.

Lemma index_then_remove_witness :
  reachable empty_index
  /\ named_package (Samples.parse Samples.foo_common_src)
  /\ by_name (remove_file "/a.iop" foo_index)
     = by_name (remove_file "/a.iop" empty_index).
Proof.
  assert (Hnamed : named_package (Samples.parse Samples.foo_common_src))
    by (by vm_compute).
  split; [exact reach_empty|]. split; [exact Hnamed|].
  exact (proj1 (index_then_remove id Samples.parse "/a.iop"
                  Samples.foo_common_src empty_index reach_empty Hnamed)).
Defined.

Lemma index_workspace_files_witness :
  let idx1 := Samples.index_source "/w/a.iop" Samples.foo_common_src
                empty_index in
  iop_paths String.append walk_sample
  = ["/w/a.iop"] ++ "/w/b.iop" :: ["/w/c.iop"]
  /\ index_files id Samples.parse decodes_sample read_sample ["/w/a.iop"]
       empty_index
     = Returned idx1
  /\ index_file id Samples.parse decodes_sample read_sample "/w/b.iop" idx1
     = Raised idx1
  /\ index_workspace id String.append Samples.parse decodes_sample
       read_sample walk_sample empty_index
     = Raised idx1
  /\ by_file idx1 !! "/w/c.iop" = None.
Proof.
  intros idx1.
  assert (Hpaths : iop_paths String.append walk_sample
                   = ["/w/a.iop"] ++ "/w/b.iop" :: ["/w/c.iop"])
    by reflexivity.
  assert (Hbefore : index_files id Samples.parse decodes_sample read_sample
                      ["/w/a.iop"] empty_index = Returned idx1)
    by reflexivity.
  assert (Hraise : index_file id Samples.parse decodes_sample read_sample
                     "/w/b.iop" idx1 = Raised idx1)
    by reflexivity.
  split; [exact Hpaths|]. split; [exact Hbefore|]. split; [exact Hraise|].
  split; [|reflexivity].
  exact (proj1 (proj2 (index_workspace_files id String.append Samples.parse
                         decodes_sample read_sample walk_sample empty_index))
           ["/w/a.iop"] "/w/b.iop" ["/w/c.iop"] idx1 idx1
           Hpaths Hbefore Hraise).
Defined.

End index_laws.

(** ** More on extraction *)

Section extraction_laws.
Import PyStr Extract.

Lemma node_kind_class node :
  node_kind node = Some CLASS <-> ntype node = "class_definition".
Proof.
  unfold node_kind. split.
  - repeat case_bool_decide; try done.
    destruct (_find_child node "data_structure_type"); [|done].
    by case_bool_decide.
  - intros ->. done.
Qed.

(** X15.  Every symbol extracted from a file comes from a child of the
    root that has a kind and a name identifier; it carries the file, the
    package, the qualified name [package.name] and the range of that
    identifier, and only the members of its kind: enum values for an
    enum alone, RPCs for an interface alone, a typedef source for a
    typedef alone, a parent class for a class alone, and no fields for an
    enum, an interface, a typedef or an SNMP interface. *)
Theorem extracted_symbol_members (root : Node) (filepath p : string)
    (s : Symbol) :
  s ∈ symbols_of_root root filepath p ->
  exists child id_node,
    child ∈ child_foci root
    /\ node_kind (here child) = Some (kind s)
    /\ name_node (here child) = Some id_node
    /\ name s = ntext id_node
    /\ range s = _node_range id_node
    /\ qualified_name s = p +:+ "." +:+ name s
    /\ file s = filepath /\ package s = p
    /\ (kind s <> ENUM -> enum_values s = [])
    /\ (kind s <> INTERFACE -> rpcs s = [])
    /\ (kind s <> TYPEDEF -> typedef_source s = None)
    /\ (kind s <> CLASS -> parent_class s = None)
    /\ (kind s ∈ [ENUM; INTERFACE; TYPEDEF; SNMP_IFACE] -> fields s = []).
Proof.
  unfold symbols_of_root. intros (child & Hchild & Hs)%list_elem_of_omap.
  revert Hs. unfold _extract_symbol.
  destruct (node_kind (here child)) as [k|] eqn:Hk; [|done].
  destruct (name_node (here child)) as [id_node|] eqn:Hid; [|done].
  intros [= <-]. exists child, id_node. cbn [name range qualified_name file
    package kind enum_values rpcs typedef_source parent_class fields].
  repeat (split; [done|]).
  split; [by destruct k|]. split; [by destruct k|].
  split; [by destruct k|]. split.
  - intros Hclass. unfold parent_class_of. case_bool_decide as Ht; [|done].
    apply node_kind_class in Ht. congruence.
  - intros Hin. repeat (apply elem_of_cons in Hin as [->|Hin]; [done|]).
    by apply not_elem_of_nil in Hin.
Qed.

Lemma extracted_symbol_members_witness :
  common_of "foo" "/a.iop"
    ∈ symbols_of_root (Samples.parse Samples.foo_common_src) "/a.iop" "foo"
  /\ exists child id_node,
       child ∈ child_foci (Samples.parse Samples.foo_common_src)
       /\ node_kind (here child) = Some STRUCT
       /\ name_node (here child) = Some id_node
       /\ "Common" = ntext id_node.
Proof.
  assert (Hin : common_of "foo" "/a.iop"
                  ∈ symbols_of_root (Samples.parse Samples.foo_common_src)
                      "/a.iop" "foo") by (vm_compute; left).
  split; [exact Hin|].
  destruct (extracted_symbol_members _ _ _ _ Hin)
    as (child & id_node & H1 & H2 & H3 & H4 & _).
  by exists child, id_node.
Defined.

Lemma rpc_type_ref_some clause x :
  _extract_rpc_type_ref clause = Some x <->
  exists c id_node,
    clause = Some c
    /\ _find_child c "argument_list" = None
    /\ _find_identifier c = Some id_node
    /\ ntext id_node = x
    /\ x <> "" /\ (x ∉ BUILTIN_TYPES) /\ x <> "null".
Proof.
  unfold _extract_rpc_type_ref, truthy, is_builtin. split.
  - destruct clause as [c|]; [|done].
    destruct (_find_child c "argument_list") eqn:Hargs; [done|].
    destruct (_find_identifier c) as [id_node|] eqn:Hid; [|done].
    repeat case_bool_decide; simpl; try done. intros [= <-].
    exists c, id_node. repeat (split; [done|]).
    intros Hnull. rewrite Hnull in *. set_solver.
  - intros (c & id_node & -> & -> & -> & <- & Hne & Hb & Hnull).
    rewrite !bool_decide_eq_false_2; [done| |done|done].
    intros [Hx|[Hx|Hx%elem_of_nil]%elem_of_cons]%elem_of_cons; [done| |done].
    apply Hb. rewrite Hx. unfold BUILTIN_TYPES. set_solver.
Qed.

(** X16.  Every RPC extracted from a block comes from one of its [rpc]
    children, and each of its three type references is recorded exactly
    when the clause of that keyword exists, has no inline argument list,
    and its first identifier is not empty, not a builtin name and not
    [null]; the reference is then the text of that identifier.  ([void]
    is a builtin name already.) *)
Theorem rpc_type_refs (block : Node) (r : RpcSymbol) :
  r ∈ _extract_rpcs block ->
  exists child,
    child ∈ child_foci block /\ ntype (here child) = "rpc"
    /\ r_name r = default "" (_node_text (_find_identifier (here child)))
    /\ forall clause_type recorded x,
         (clause_type, recorded)
           ∈ [("rpc_in", r_in_type r); ("rpc_out", r_out_type r);
              ("rpc_throw", r_throw_type r)] ->
         recorded = Some x <->
         exists clause id_node,
           _find_child (here child) clause_type = Some clause
           /\ _find_child clause "argument_list" = None
           /\ _find_identifier clause = Some id_node
           /\ ntext id_node = x
           /\ x <> "" /\ (x ∉ BUILTIN_TYPES) /\ x <> "null" /\ x <> "void".
Proof.
  unfold _extract_rpcs. rewrite list_elem_of_In, in_map_iff.
  intros (child & <- & Hchild). apply list_elem_of_In in Hchild.
  apply list_elem_of_filter in Hchild as [Htype Hchild].
  exists child. split; [done|]. split; [done|]. split; [done|].
  assert (Hvoid : forall x, x ∉ BUILTIN_TYPES -> x <> "void").
  { intros x Hb ->. apply Hb. unfold BUILTIN_TYPES. set_solver. }
  intros clause_type recorded x Hin.
  assert (Hrec : recorded
                 = _extract_rpc_type_ref
                     (_find_child (here child) clause_type)).
  { repeat (apply elem_of_cons in Hin as [[= -> ->]|Hin]; [done|]).
    by apply not_elem_of_nil in Hin. }
  rewrite Hrec, rpc_type_ref_some. split.
  - intros (c & id_node & Hc & Hargs & Hid & Hx & Hne & Hb & Hnull).
    exists c, id_node. repeat (split; [done|]). by apply Hvoid.
  - intros (c & id_node & Hc & Hargs & Hid & Hx & Hne & Hb & Hnull & _).
    by exists c, id_node.
Qed.

Lemma rpc_type_refs_witness :
  {| r_name := "b"; r_in_type := Some "Req"; r_out_type := Some "Res";
     r_throw_type := Some "Err"; r_range := mkRange 3 4 3 5; r_doc := None |}
    ∈ _extract_rpcs rpc_block_sample
  /\ exists child,
       child ∈ child_foci rpc_block_sample /\ ntype (here child) = "rpc".
Proof.
  assert (Hin :
    {| r_name := "b"; r_in_type := Some "Req"; r_out_type := Some "Res";
       r_throw_type := Some "Err"; r_range := mkRange 3 4 3 5;
       r_doc := None |} ∈ _extract_rpcs rpc_block_sample)
    by (vm_compute; right; left).
  split; [exact Hin|].
  destruct (rpc_type_refs _ _ Hin) as (child & H1 & H2 & _).
  by exists child.
Defined.

End extraction_laws.

(** ** More on generated identifiers and doc comments *)

Section lookup_laws.
Import PyStr CMapping Index DocComments.

(** X17.  In an index built by the indexer, whatever
    [resolve_c_identifier] answers is a symbol of the symbol set, and the
    identifier without its suffix is the canonical C name of that symbol
    or the base of its [ctype] override. *)
Theorem resolve_c_identifier_sound (idx : SymbolIndex) (c_ident : string)
    (s : Symbol) :
  reachable idx ->
  resolve_c_identifier idx c_ident = Some s ->
  owned idx s
  /\ (strip_suffix C_TYPE_SUFFIXES c_ident = iop_type_to_c (qualified_name s)
      \/ ctype_base s = Some (strip_suffix C_TYPE_SUFFIXES c_ident)).
Proof.
  intros Hr Hres. pose proof (reachable_consistent _ Hr) as Hc.
  unfold resolve_c_identifier in Hres.
  destruct (c_names_owned idx Hc _ _ Hres) as [Hkey Ho]. by split.
Qed.

Lemma resolve_c_identifier_sound_witness :
  reachable foo_index
  /\ resolve_c_identifier foo_index "foo__common__array_t"
     = Some (common_of "foo" "/a.iop")
  /\ owned foo_index (common_of "foo" "/a.iop").
Proof.
  assert (Hres : resolve_c_identifier foo_index "foo__common__array_t"
                 = Some (common_of "foo" "/a.iop")) by (by vm_compute).
  split; [exact foo_index_reachable|]. split; [exact Hres|].
  exact (proj1 (resolve_c_identifier_sound foo_index "foo__common__array_t"
                  (common_of "foo" "/a.iop") foo_index_reachable Hres)).
Defined.

Lemma split_on_absent sep l : sep ∉ l -> split_on sep l = [l].
Proof.
  induction l as [|c r IH]; [done|]. intros Hsep.
  apply not_elem_of_cons in Hsep as [Hc Hr]. cbn [split_on].
  destruct (ascii_dec c sep) as [->|_]; [done|]. by rewrite IH.
Qed.

(** X18.  A trailing doc comment [/**< body */] cleans to its body
    without the surrounding white space, whatever the body.  A doc comment
    [/** body */] on a single line whose body, trimmed, does not start
    with a star cleans to its trimmed body as well. *)
Theorem doc_comment_delimiters_removed (body : string) :
  _clean_trailing_doc_comment ("/**<" +:+ body +:+ "*/") = strip body
  /\ ("010"%char ∉ chars body ->
      startswith (strip body) "*" = false ->
      _clean_doc_comment ("/**" +:+ body +:+ "*/") = strip body).
Proof.
  split.
  - unfold _clean_trailing_doc_comment.
    change (drop_front 4 ("/**<" +:+ body +:+ "*/"))
      with (str (chars (body +:+ "*/"))).
    rewrite str_chars, endswith_appended.
    by rewrite (drop_back_append body "*/" : drop_back 2 _ = _).
  - intros Hline Hstar. unfold _clean_doc_comment.
    change (drop_front 3 ("/**" +:+ body +:+ "*/"))
      with (str (chars (body +:+ "*/"))).
    rewrite str_chars, endswith_appended.
    rewrite (drop_back_append body "*/" : drop_back 2 _ = _).
    unfold split. rewrite split_on_absent by done.
    cbn [map join]. rewrite str_chars. unfold clean_line.
    rewrite Hstar, (startswith_star_space _ Hstar).
    apply strip_idem.
Qed.

Lemma doc_comment_delimiters_removed_witness :
  ("010"%char ∉ chars " A test struct. ")
  /\ startswith (strip " A test struct. ") "*" = false
  /\ _clean_doc_comment ("/**" +:+ " A test struct. " +:+ "*/")
     = strip " A test struct. ".
Proof.
  assert (Hline : "010"%char ∉ chars " A test struct. ")
    by (apply (bool_decide_unpack _); reflexivity).
  assert (Hstar : startswith (strip " A test struct. ") "*" = false)
    by reflexivity.
  split; [exact Hline|]. split; [exact Hstar|].
  exact (proj2 (doc_comment_delimiters_removed " A test struct. ")
           Hline Hstar).
Defined.

End lookup_laws.

(** ** The server: position resolver, definition and hover *)

Section server_laws.
Import PyStr Index Extract Indexer Server.




(** X19.  The two position resolvers agree: [_get_type_ref_at_position]
    answers the text of the node exactly when that text is not empty and
    the node is a type reference or is classified as an enum value by
    [_get_node_context_at_position]. *)
Theorem type_ref_at_position_contexts (l : Located) (t : string) :
  _get_type_ref_at_position (Some l) = Some t <->
  ntext (lnode l) = t /\ t <> ""
  /\ (_is_type_reference_context l = true
      \/ (_get_node_context_at_position (Some l)).2 = enum_value).
Proof.
  unfold _get_type_ref_at_position, _get_node_context_at_position,
    context_of, text_of, truthy.
  cbn [snd].
  case_bool_decide as Htext; cbn [negb].
  { split; [done|]. by intros (<- & Hne & _). }
  destruct (_is_type_reference_context l).
  { split; [intros [= <-]; auto|]. by intros (<- & _). }
  destruct (has_type "identifier" (lnode l)).
  - destruct (parent_node l) as [parent|].
    + destruct (has_type "value" parent); cbn [orb].
      { split; [intros [= <-]; auto|]. by intros (<- & _). }
      destruct (in_default_value l).
      { split; [intros [= <-]; auto|]. by intros (<- & _). }
      split; [done|]. intros (_ & _ & [?|Hctx]); [done|].
      revert Hctx. repeat case_match; done.
    + split; [done|]. intros (_ & _ & [?|Hctx]); [done|].
      revert Hctx. by case_match.
  - split; [done|]. intros (_ & _ & [?|Hctx]); [done|].
    revert Hctx. by case_match.
Qed.

Lemma type_ref_at_position_contexts_witness :
  exists l,
    type_of_c = Some l
    /\ ntext (lnode l) = "Common" /\ "Common" <> ""
    /\ _is_type_reference_context l = true
    /\ _get_type_ref_at_position (Some l) = Some "Common".
Proof.
  eexists. split; [reflexivity|].
  split; [reflexivity|]. split; [done|]. split; [reflexivity|].
  apply (proj2 (type_ref_at_position_contexts _ "Common")).
  split; [reflexivity|]. split; [done|]. left. reflexivity.
Defined.



Lemma truthy_append_l a b : truthy a = true -> truthy (a +:+ b) = true.
Proof. by destruct a. Qed.

Lemma field_hover_shown l parent :
  parent_node l = Some parent ->
  has_type "variable" parent = true ->
  is_Some (shown (_format_field_hover_from_node l)).
Proof.
  unfold parent_node, _format_field_hover_from_node.
  destruct (lparent l) as [var|]; [|done]. intros [= <-] ->. cbn [negb].
  assert (Hshown : forall t, truthy t = true -> is_Some (shown (Some t))).
  { intros t Ht. unfold shown. rewrite Ht. by eexists. }
  apply Hshown. cbv zeta.
  repeat case_match; cbn [join];
    repeat first [reflexivity | apply truthy_append_l].
Qed.

(** X21.  Wherever [goto_definition] finds a location, [hover] has a
    text to show. *)
Theorem goto_definition_has_hover (idx : SymbolIndex) (uri : string)
    (node : option Located) :
  is_Some (goto_definition idx uri node) -> is_Some (hover idx uri node).
Proof.
  unfold goto_definition, hover.
  destruct node as [l|]; cbn [_get_node_context_at_position];
    [|by intros [? ?]].
  destruct (text_of (lnode l)) as [text|]; [|by intros [? ?]]. cbv zeta.
  destruct (context_of l); try by intros [? ?].
  - destruct (resolve idx _ _) as [s|]; [|by intros [? ?]]. intros _.
    destruct (is_builtin _); by eexists.
  - destruct (resolve_enum_value idx _ _) as [[e ev]|];
      [intros _; by eexists|by intros [? ?]].
  - destruct (parent_node l) as [parent|] eqn:Hparent; [|by intros [? ?]].
    destruct (has_type "variable" parent) eqn:Hvar; [|by intros [? ?]].
    intros _. by eapply field_hover_shown.
Qed.

Lemma goto_definition_has_hover_witness :
  is_Some (goto_definition foo_index "file:///u.iop" type_of_c)
  /\ is_Some (hover foo_index "file:///u.iop" type_of_c).
Proof.
  assert (Hgoto : is_Some (goto_definition foo_index "file:///u.iop"
                             type_of_c)) by (vm_compute; by eexists).
  split; [exact Hgoto|].
  exact (goto_definition_has_hover foo_index "file:///u.iop" type_of_c Hgoto).
Defined.

(** X22.  On a type reference whose text is a builtin name, [hover]
    shows the built-in note and [goto_definition] finds nothing, whatever
    the index holds. *)
Theorem builtin_hover_no_definition (idx : SymbolIndex) (uri : string)
    (l : Located) (text : string) :
  (_get_node_context_at_position (Some l)).2 = type_ref ->
  text_of (lnode l) = Some text ->
  is_builtin (lookup_text (lnode l) text) = true ->
  hover idx uri (Some l)
  = Some ("**" +:+ lookup_text (lnode l) text +:+ "** (built-in type)")
  /\ goto_definition idx uri (Some l) = None.
Proof.
  cbn [_get_node_context_at_position snd]. intros Hctx Htext Hb.
  unfold hover, goto_definition. cbn [_get_node_context_at_position].
  rewrite Hctx, Htext. cbv zeta. rewrite Hb. split; [done|].
  unfold resolve. by rewrite Hb.
Qed.

Lemma builtin_hover_no_definition_witness :
  exists l,
    type_of_n = Some l
    /\ (_get_node_context_at_position (Some l)).2 = type_ref
    /\ text_of (lnode l) = Some "int"
    /\ is_builtin (lookup_text (lnode l) "int") = true
    /\ hover foo_index "file:///u.iop" (Some l)
       = Some ("**" +:+ lookup_text (lnode l) "int" +:+ "** (built-in type)")
    /\ goto_definition foo_index "file:///u.iop" (Some l) = None.
Proof.
  eexists. split; [reflexivity|].
  split; [reflexivity|]. split; [reflexivity|]. split; [reflexivity|].
  apply (builtin_hover_no_definition foo_index "file:///u.iop" _ "int");
    reflexivity.
Defined.



(** X24.  The name of a field is classified as [field_name] exactly when
    it is an identifier under a [variable] that has a type, outside a
    default value; the test of the node against the type node never
    excludes it.  From there [goto_definition] leads to what the text of
    the type of the field resolves to. *)
Theorem field_name_goes_to_type (idx : SymbolIndex) (uri : string)
    (l : Located) :
  ((_get_node_context_at_position (Some l)).2 = field_name <->
   has_type "identifier" (lnode l) = true
   /\ in_default_value l = false
   /\ exists parent,
        parent_node l = Some parent
        /\ has_type "variable" parent = true
        /\ is_Some (_find_child parent "type"))
  /\ ((_get_node_context_at_position (Some l)).2 = field_name ->
      ntext (lnode l) <> "" ->
      exists parent type_node,
        parent_node l = Some parent
        /\ _find_child parent "type" = Some type_node
        /\ goto_definition idx uri (Some l)
           = _symbol_to_location
             <$> resolve idx (ntext type_node)
                   (_get_package_for_uri idx uri)).
Proof.
  cbn [_get_node_context_at_position snd].
  assert (Hiff : context_of l = field_name <->
            has_type "identifier" (lnode l) = true
            /\ in_default_value l = false
            /\ exists parent,
                 parent_node l = Some parent
                 /\ has_type "variable" parent = true
                 /\ is_Some (_find_child parent "type")).
  { unfold context_of, _is_type_reference_context, is_first_of_type.
    destruct (has_type "identifier" (lnode l)) eqn:Hid; cbn [negb andb].
    - assert (Htype : has_type "type" (lnode l) = false).
      { unfold has_type in *. apply bool_decide_eq_true in Hid.
        apply bool_decide_eq_false. by rewrite Hid. }
      rewrite Htype.
      assert (Hfirst :
        match labove l with
        | [] => false
        | fr :: _ => negb (existsb (has_type "type") (fr_before fr)) && false
        end = false).
      { destruct (labove l); [done|]. apply andb_false_r. }
      rewrite Hfirst. cbn [negb andb].
      destruct (parent_node l) as [parent|].
      + destruct (has_type "variable" parent) eqn:Hvar.
        * assert (Hother : forall t, t <> "variable" ->
                                     has_type t parent = false).
          { intros t Ht. unfold has_type in *.
            apply bool_decide_eq_true in Hvar.
            apply bool_decide_eq_false. by rewrite Hvar. }
          rewrite !Hother by done.
          rewrite bool_decide_eq_false_2.
          2:{ unfold has_type in Hvar. apply bool_decide_eq_true in Hvar.
              rewrite Hvar. apply (bool_decide_unpack _). reflexivity. }
          cbn [andb orb]. destruct (in_default_value l).
          -- split; [done|]. by intros (_ & ? & _).
          -- case_bool_decide as Hty; cbn [andb].
             ++ split; [|done]. intros _. repeat (split; [done|]).
                by exists parent.
             ++ split.
                ** rewrite bool_decide_eq_false_2; [done|].
                   unfold has_type in Hvar.
                   apply bool_decide_eq_true in Hvar. rewrite Hvar.
                   apply (bool_decide_unpack _). reflexivity.
                ** intros (_ & _ & p & [= <-] & _ & Hsome). done.
        * split.
          -- repeat case_match; done.
          -- intros (_ & _ & p & [= <-] & Hv & _). congruence.
      + split; [done|]. by intros (_ & _ & p & ? & _).
    - split; [|by intros (? & _)].
      repeat case_match; done. }
  split; [exact Hiff|].
  intros Hctx Htext. pose proof (proj1 Hiff Hctx)
    as (_ & _ & parent & Hparent & Hvar & [type_node Htype]).
  exists parent, type_node. split; [done|]. split; [done|].
  unfold goto_definition. cbn [_get_node_context_at_position].
  unfold text_of. rewrite truthy_nonempty by done. cbv zeta.
  by rewrite Hctx, Hparent, Hvar, Htype.
Qed.

Lemma field_name_goes_to_type_witness :
  exists l,
    name_of_c = Some l
    /\ (_get_node_context_at_position (Some l)).2 = field_name
    /\ ntext (lnode l) <> ""
    /\ exists parent type_node,
         parent_node l = Some parent
         /\ _find_child parent "type" = Some type_node
         /\ goto_definition foo_index "file:///u.iop" (Some l)
            = _symbol_to_location
              <$> resolve foo_index (ntext type_node)
                    (_get_package_for_uri foo_index "file:///u.iop").
Proof.
  eexists. split; [reflexivity|].
  split; [reflexivity|]. split; [done|].
  apply (proj2 (field_name_goes_to_type foo_index "file:///u.iop" _));
    [reflexivity|done].
Defined.

Section notified.
Variable abspath : string -> string.
Variable parse : string -> Node.

(** X25.  After [did_open] the package known for the document is the one
    its text declares, provided the path of the URI is already absolute;
    for a path that [abspath] changes, [did_open] records the package
    under the changed path and what is known for the URI stays as it
    was. *)
Theorem did_open_package (uri text : string) (idx : SymbolIndex) :
  (abspath (_uri_to_path uri) = _uri_to_path uri ->
   _get_package_for_uri (did_open abspath parse uri text idx) uri
   = package_of_root (parse text))
  /\ (abspath (_uri_to_path uri) <> _uri_to_path uri ->
      _get_package_for_uri (did_open abspath parse uri text idx) uri
      = _get_package_for_uri idx uri).
Proof.
  unfold _get_package_for_uri, did_open, index_source.
  rewrite index_source_add_all.
  split; intros Habs.
  - rewrite Habs.
    destruct (package_of_root (parse text)) as [p|].
    + rewrite add_all_package_of_file. simpl. apply lookup_insert_eq.
    + rewrite remove_file_package_of_file. apply lookup_delete_eq.
  - destruct (package_of_root (parse text)) as [p|].
    + rewrite add_all_package_of_file. simpl.
      rewrite lookup_insert_ne by done.
      rewrite remove_file_package_of_file. by apply lookup_delete_ne.
    + rewrite remove_file_package_of_file. by apply lookup_delete_ne.
Qed.

End notified.

Lemma did_open_package_witness :
  id (_uri_to_path "file:///a.iop") = _uri_to_path "file:///a.iop"
  /\ _get_package_for_uri
       (did_open id Samples.parse "file:///a.iop" Samples.foo_common_src
          empty_index)
       "file:///a.iop"
     = Some "foo".
Proof.
  assert (Habs : id (_uri_to_path "file:///a.iop")
                 = _uri_to_path "file:///a.iop") by reflexivity.
  split; [exact Habs|].
  exact (proj1 (did_open_package id Samples.parse "file:///a.iop"
                  Samples.foo_common_src empty_index) Habs).
Defined.

End server_laws.

(** ** Round trip of the name mangler on regular names *)

Section mangler_round_trip.
Import PyStr CMapping DocComments.

Lemma lower_or_digit_facts c :
  is_lower_or_digit c = true ->
  is_upper c = false /\ c <> "_"%char /\ lower_char c = c.
Proof. destruct c as [[] [] [] [] [] [] [] []]; by vm_compute. Qed.

Lemma lower_facts c :
  is_lower c = true ->
  is_upper c = false /\ c <> "_"%char /\ lower_char c = c
  /\ is_upper (upper_char c) = true
  /\ is_lower_or_digit (upper_char c) = false
  /\ lower_char (upper_char c) = c.
Proof. destruct c as [[] [] [] [] [] [] [] []]; by vm_compute. Qed.

Lemma regular_body_facts r :
  Forall (fun x => is_lower_or_digit x = true) r ->
  Forall (fun x => is_upper x = false) r
  /\ ("_"%char ∉ r) /\ map lower_char r = r.
Proof.
  induction 1 as [|x r Hx _ (IH1 & IH2 & IH3)].
  - split; [done|]. split; [apply not_elem_of_nil|done].
  - destruct (lower_or_digit_facts x Hx) as (Hu & Hs & Hl).
    split; [by constructor|]. split.
    + intros [Heq|Hin]%elem_of_cons; [by apply Hs|by apply IH2].
    + simpl. by rewrite Hl, IH3.
Qed.

Lemma regular_word_sep w : regular_word w -> "_"%char ∉ w.
Proof.
  destruct w as [|c r]; [done|]. intros (Hc & _ & Hr).
  destruct (lower_facts c Hc) as (_ & Hs & _).
  destruct (regular_body_facts r Hr) as (_ & Hin & _).
  intros [Heq|Hr']%elem_of_cons; [by apply Hs|by apply Hin].
Qed.

Lemma chars_join_snake words :
  chars (join "_" (map str words)) = snake_chars words.
Proof.
  induction words as [|w r IH]; [done|]. destruct r as [|w' r].
  - apply chars_str.
  - change (chars (str w +:+ "_" +:+ join "_" (map str (w' :: r)))
            = w ++ "_"%char :: snake_chars (w' :: r)).
    by rewrite !chars_append, chars_str, IH.
Qed.

Lemma split_on_app_sep sep w rest :
  sep ∉ w -> split_on sep (w ++ sep :: rest) = w :: split_on sep rest.
Proof.
  induction w as [|c w IH]; intros Hsep.
  - cbn [app split_on]. by destruct (ascii_dec sep sep).
  - apply not_elem_of_cons in Hsep as [Hc Hw]. cbn [app split_on].
    destruct (ascii_dec c sep) as [->|_]; [done|]. by rewrite IH.
Qed.

Lemma split_on_snake words :
  words <> [] -> Forall (fun w => "_"%char ∉ w) words ->
  split_on "_"%char (snake_chars words) = words.
Proof.
  induction words as [|w r IH]; [done|]. intros _ [Hw Hr]%Forall_cons.
  destruct r as [|w' r]; [by apply split_on_absent|].
  change (split_on "_"%char (w ++ "_"%char :: snake_chars (w' :: r))
          = w :: w' :: r).
  rewrite split_on_app_sep by done. f_equal. by apply IH.
Qed.

Lemma join_empty (parts : list (list ascii)) :
  join "" (map str parts) = str (concat parts).
Proof.
  induction parts as [|p r IH]; [done|]. destruct r as [|p' r].
  - simpl. by rewrite app_nil_r.
  - change (str p +:+ "" +:+ join "" (map str (p' :: r))
            = str (p ++ concat (p' :: r))).
    rewrite IH, str_app. done.
Qed.

Lemma capitalize_regular w :
  regular_word w -> capitalize (str w) = str (cap w).
Proof.
  destruct w as [|c r]; [done|]. intros (_ & _ & Hr).
  unfold capitalize. rewrite chars_str. cbn [cap].
  destruct (regular_body_facts r Hr) as (_ & _ & ->). done.
Qed.

Lemma sub_lower_upper_skip u tl :
  is_lower_or_digit u = false ->
  sub_lower_upper (u :: tl) = u :: sub_lower_upper tl.
Proof.
  intros Hu. destruct tl as [|b r]; [done|].
  by rewrite sub_lower_upper_cons, Hu.
Qed.

Lemma sub_lower_upper_boundary r u rest :
  r <> [] -> Forall (fun x => is_lower_or_digit x = true) r ->
  is_upper u = true ->
  sub_lower_upper (r ++ u :: rest)
  = r ++ "_"%char :: u :: sub_lower_upper rest.
Proof.
  intros Hne Hr Hu. induction Hr as [|a r Ha Hr IH]; [done|].
  destruct r as [|a' r].
  - cbn [app]. by rewrite sub_lower_upper_cons, Ha, Hu.
  - cbn [app]. rewrite sub_lower_upper_cons.
    destruct (lower_or_digit_facts a' (Forall_inv Hr)) as (Hup & _).
    rewrite Hup, andb_false_r. f_equal. by apply IH.
Qed.

Lemma sub_lower_upper_words r words :
  r <> [] -> Forall (fun x => is_lower_or_digit x = true) r ->
  Forall regular_word words ->
  sub_lower_upper (r ++ concat (map cap words))
  = r ++ match words with
         | [] => []
         | _ => "_"%char :: snake_chars (map cap words)
         end.
Proof.
  intros Hne Hr Hwords. revert r Hne Hr.
  induction Hwords as [|w words Hw Hwords IH]; intros r Hne Hr.
  - cbn [map concat]. rewrite app_nil_r.
    apply sub_lower_upper_no_upper. by apply regular_body_facts.
  - destruct w as [|c body]; [done|]. destruct Hw as (Hc & Hbody & Hall).
    destruct (lower_facts c Hc) as (_ & _ & _ & Hup & _).
    cbn [map concat cap app].
    rewrite sub_lower_upper_boundary by done.
    rewrite IH by done. destruct words as [|w' words]; [|done].
    cbn [map snake_chars]. by rewrite app_nil_r.
Qed.

Lemma sub_lower_upper_camel words :
  Forall regular_word words ->
  sub_lower_upper (concat (map cap words)) = snake_chars (map cap words).
Proof.
  intros Hwords. destruct Hwords as [|w words Hw Hwords]; [done|].
  destruct w as [|c body]; [done|]. destruct Hw as (Hc & Hbody & Hall).
  destruct (lower_facts c Hc) as (_ & _ & _ & _ & Hnl & _).
  cbn [map concat cap app]. rewrite sub_lower_upper_skip by done.
  rewrite sub_lower_upper_words by done.
  destruct words as [|w' words]; [|done].
  cbn [map snake_chars]. by rewrite app_nil_r.
Qed.

Lemma sub_acronym_no_cap_pair fuel l :
  no_cap_pair l = true -> sub_acronym fuel l = l.
Proof.
  revert l. induction fuel as [|fuel IH]; intros l Hl; [done|].
  destruct l as [|c r]; [done|].
  assert (Hr : no_cap_pair r = true).
  { destruct r as [|b r]; [done|]. cbn [no_cap_pair] in Hl.
    by apply andb_true_iff in Hl as [_ Hl]. }
  cbn [sub_acronym span_upper]. destruct (is_upper c) eqn:Hc.
  - destruct r as [|b r]; [cbn; by destruct fuel|].
    cbn [no_cap_pair] in Hl. apply andb_true_iff in Hl as [Hb _].
    rewrite Hc in Hb. cbn [andb] in Hb. apply negb_true_iff in Hb.
    cbn [span_upper]. rewrite Hb. cbn [length Nat.leb andb].
    f_equal. by apply IH.
  - cbn [length Nat.leb andb]. f_equal. by apply IH.
Qed.

Lemma no_cap_pair_cons a l :
  is_upper a = false -> no_cap_pair l = true -> no_cap_pair (a :: l) = true.
Proof.
  intros Ha Hl. destruct l as [|b r]; [done|].
  change (negb (is_upper a && is_upper b) && no_cap_pair (b :: r) = true).
  by rewrite Ha, Hl.
Qed.

Lemma no_cap_pair_app r tail :
  Forall (fun x => is_upper x = false) r ->
  no_cap_pair tail = true -> no_cap_pair (r ++ tail) = true.
Proof.
  intros Hr Htail. induction Hr as [|a r Ha _ IH]; [done|].
  cbn [app]. by apply no_cap_pair_cons.
Qed.

Lemma no_cap_pair_head u a l :
  is_upper a = false -> no_cap_pair (a :: l) = true ->
  no_cap_pair (u :: a :: l) = true.
Proof.
  intros Ha Hl. change (negb (is_upper u && is_upper a)
                        && no_cap_pair (a :: l) = true).
  by rewrite Ha, andb_false_r, Hl.
Qed.

Lemma no_cap_pair_snake words :
  Forall regular_word words ->
  no_cap_pair (snake_chars (map cap words)) = true.
Proof.
  induction 1 as [|w words Hw _ IH]; [done|].
  destruct w as [|c body]; [done|]. destruct Hw as (Hc & Hbody & Hall).
  destruct (regular_body_facts body Hall) as (Hup & _).
  destruct body as [|a body]; [done|].
  assert (Htail : forall tail, no_cap_pair tail = true ->
            no_cap_pair (upper_char c :: (a :: body) ++ tail) = true).
  { intros tail Htail. cbn [app]. apply no_cap_pair_head.
    - exact (Forall_inv Hup).
    - by apply (no_cap_pair_app (a :: body)). }
  destruct words as [|w' words].
  - cbn [map snake_chars cap]. rewrite <- (app_nil_r (a :: body)).
    by apply Htail.
  - change (no_cap_pair (upper_char c :: (a :: body)
                         ++ "_"%char :: snake_chars (map cap (w' :: words)))
            = true).
    apply Htail. by apply no_cap_pair_cons.
Qed.

Lemma map_lower_snake words :
  Forall regular_word words ->
  map lower_char (snake_chars (map cap words)) = snake_chars words.
Proof.
  assert (Hword : forall w, regular_word w -> map lower_char (cap w) = w).
  { intros [|c body]; [done|]. intros (Hc & _ & Hall).
    destruct (lower_facts c Hc) as (_ & _ & _ & _ & _ & Hl).
    destruct (regular_body_facts body Hall) as (_ & _ & Hm).
    cbn [cap map]. by rewrite Hl, Hm. }
  induction 1 as [|w words Hw _ IH]; [done|].
  destruct words as [|w' words].
  - by apply Hword.
  - change (map lower_char (cap w ++ "_"%char
                            :: snake_chars (map cap (w' :: words)))
            = w ++ "_"%char :: snake_chars (w' :: words)).
    rewrite map_app. cbn [map]. rewrite Hword by done.
    f_equal. f_equal. exact IH.
Qed.

Lemma camelcase_to_c_camel words :
  Forall regular_word words -> camelcase_to_c (camel_of words) = snake_of words.
Proof.
  intros Hwords. unfold camelcase_to_c, camel_of, snake_of, lower.
  cbv zeta. rewrite !chars_str, sub_lower_upper_camel by done.
  rewrite sub_acronym_no_cap_pair by (by apply no_cap_pair_snake).
  by rewrite map_lower_snake.
Qed.

Lemma c_to_camelcase_snake words :
  Forall regular_word words -> c_to_camelcase (snake_of words) = camel_of words.
Proof.
  intros Hwords. unfold c_to_camelcase, snake_of, camel_of, split.
  rewrite chars_str. destruct words as [|w words]; [done|].
  rewrite split_on_snake;
    [|done|by eapply Forall_impl; [exact Hwords|apply regular_word_sep]].
  rewrite <- join_empty. f_equal.
  induction Hwords as [|x l Hx _ IH]; [done|].
  cbn [map]. by rewrite capitalize_regular, IH.
Qed.

(** X26.  On regular names the two conversions are inverse to each other:
    for words made of a lowercase letter followed by at least one
    lowercase letter or digit, the snake_case name of the words converts
    to their CamelCase name and back. *)
Theorem regular_names_round_trip (words : list (list ascii)) :
  Forall regular_word words ->
  c_to_camelcase (snake_of words) = camel_of words
  /\ camelcase_to_c (camel_of words) = snake_of words
  /\ camelcase_to_c (c_to_camelcase (snake_of words)) = snake_of words
  /\ c_to_camelcase (camelcase_to_c (camel_of words)) = camel_of words.
Proof.
  intros Hwords.
  pose proof (c_to_camelcase_snake words Hwords) as Hcamel.
  pose proof (camelcase_to_c_camel words Hwords) as Hsnake.
  by rewrite Hcamel, Hsnake.
Qed.

Lemma regular_names_round_trip_witness :
  Forall regular_word [chars "my"; chars "struct"; chars "v2"]
  /\ snake_of [chars "my"; chars "struct"; chars "v2"] = "my_struct_v2"
  /\ camel_of [chars "my"; chars "struct"; chars "v2"] = "MyStructV2"
  /\ camelcase_to_c
       (c_to_camelcase (snake_of [chars "my"; chars "struct"; chars "v2"]))
     = snake_of [chars "my"; chars "struct"; chars "v2"].
Proof.
  assert (Hwords : Forall regular_word
                     [chars "my"; chars "struct"; chars "v2"]).
  { repeat constructor; done. }
  split; [exact Hwords|]. split; [reflexivity|]. split; [reflexivity|].
  exact (proj1 (proj2 (proj2 (regular_names_round_trip _ Hwords)))).
Defined.

End mangler_round_trip.
